(** * A drawing canvas with snapshot undo: model of [script.js]

    The script keeps its whole state in module-level variables and mutates
    one 2D rendering context from event listeners.  The model keeps that
    shape: a record for the canvas with its context, a record for the
    globals, one function per listener, and the calls a listener makes on
    the context written as a list of commands that an interpreter
    executes in order.

    Numbers.  Pointer coordinates, random numbers and offsets are
    JavaScript doubles.  A finite double is a rational, so they are
    values of [Q]; the arithmetic of the spray brush and of the rainbow
    hue, where results depend on it, is rounded to binary64 as IEEE 754
    prescribes (round to nearest, ties to even, with subnormals).  The
    exponent range is not bounded above: overflow to [Infinity] and
    [NaN] are left out.  The sums [x - brushSize / 2] of the round and
    square brushes are left exact.  Pixel channels are canonical
    rationals [Qc] in premultiplied form, which lets two surfaces be
    compared with Leibniz equality.

    Platform.  Compositing follows the Porter-Duff formulas of the canvas
    specification; rectangles are rasterised by exact area coverage; the
    coverage of a filled circle is left to the browser and is a parameter
    of the development.  A snapshot is the bitmap itself: PNG encoding
    and decoding are taken to be lossless.

    Left out: the class toggles on the eraser button, the size readout,
    the download of [saveBtn], [preventDefault] and the translation of
    client coordinates into canvas coordinates; none of them feeds back
    into the globals or the surface. *)

From Stdlib Require Import ZArith QArith Qcanon Qround Qminmax Qabs Qpower.
From Stdlib Require Import Bool String List Lia Lqa.
From Stdlib Require PrimFloat FloatOps Uint63.
Import ListNotations.

Open Scope Z_scope.

(** ** Colours and pixels *)

(** The colour strings the script assigns to [fillStyle]:
    ['#rrggbb'] (the picker value, ['#000000'], ['#ffffff']),
    ['rgba(r,g,b,a)'] and [`hsl(${hue}, 100%, 50%)`]. *)
Inductive css_color : Type :=
| Hex (r g b : Z)
| Rgba (r g b : Z) (a : Q)
| Hsl (h s l : Q).

(** A parsed colour: channels and alpha in [0,1], not premultiplied. *)
Record rgba : Type := mk_rgba { red : Qc; green : Qc; blue : Qc; alpha : Qc }.

(** A pixel of the backing store: premultiplied channels. *)
Record pixel : Type := mk_pixel { pr : Qc; pg : Qc; pb : Qc; pa : Qc }.

Definition channel (v : Z) : Qc := Q2Qc (inject_Z v / 255).

(** JavaScript [%] on numbers: the remainder has the sign of the dividend. *)
Definition Qtruncate (q : Q) : Z := Z.quot (Qnum q) (Zpos (Qden q)).
Definition js_rem (q m : Q) : Q := (q - m * inject_Z (Qtruncate (q / m)))%Q.

(** CSS Color 4, hsl to rgb:
    f(n) = l - a * max(-1, min(k - 3, 9 - k, 1)),
    k = (n + h/30) mod 12, a = s * min(l, 1 - l). *)
Definition hsl_channel (h s l : Q) (n : Q) : Q :=
  let k := (n + h / 30 - 12 * inject_Z (Qfloor ((n + h / 30) / 12)))%Q in
  let a := (s * Qmin l (1 - l))%Q in
  (l - a * Qmax (-1) (Qmin (Qmin (k - 3) (9 - k)) 1))%Q.

Definition parse_color (c : css_color) : rgba :=
  match c with
  | Hex r g b => mk_rgba (channel r) (channel g) (channel b) 1%Qc
  | Rgba r g b a => mk_rgba (channel r) (channel g) (channel b) (Q2Qc a)
  | Hsl h s l =>
      mk_rgba (Q2Qc (hsl_channel h s l 0)) (Q2Qc (hsl_channel h s l 8))
              (Q2Qc (hsl_channel h s l 4)) 1%Qc
  end.

Definition transparent : pixel := mk_pixel 0%Qc 0%Qc 0%Qc 0%Qc.

(** The pixel an opaque colour leaves when it fully covers a cell. *)
Definition solid (c : rgba) : pixel :=
  mk_pixel (red c) (green c) (blue c) 1%Qc.

(** A colour seen through a coverage mask, premultiplied. *)
Definition shade (c : rgba) (cov : Qc) : pixel :=
  mk_pixel (red c * alpha c * cov)%Qc (green c * alpha c * cov)%Qc
           (blue c * alpha c * cov)%Qc (alpha c * cov)%Qc.

(** The two values the script gives to [globalCompositeOperation]. *)
Inductive composite_op : Type := source_over | destination_out.

(** Porter-Duff on premultiplied pixels:
    source-over      co = cs + cb * (1 - as)
    destination-out  co = cb * (1 - as). *)
Definition composite (op : composite_op) (src dst : pixel) : pixel :=
  match op with
  | source_over =>
      mk_pixel (pr src + pr dst * (1 - pa src))%Qc
               (pg src + pg dst * (1 - pa src))%Qc
               (pb src + pb dst * (1 - pa src))%Qc
               (pa src + pa dst * (1 - pa src))%Qc
  | destination_out =>
      mk_pixel (pr dst * (1 - pa src))%Qc (pg dst * (1 - pa src))%Qc
               (pb dst * (1 - pa src))%Qc (pa dst * (1 - pa src))%Qc
  end.

(** [clearRect] ignores the composite operation: it scales the pixel down
    by the part of the cell the rectangle covers. *)
Definition erase (cov : Qc) (dst : pixel) : pixel :=
  mk_pixel (pr dst * (1 - cov))%Qc (pg dst * (1 - cov))%Qc
           (pb dst * (1 - cov))%Qc (pa dst * (1 - cov))%Qc.

(** ** Geometry of rectangles *)

(** Length of the overlap of the span from [a] to [a + len] (either
    orientation: [fillRect] accepts negative sizes) with the cell
    [[i, i+1]]. *)
Definition overlap (a len : Q) (i : Z) : Q :=
  let lo := Qmin a (a + len) in
  let hi := Qmax a (a + len) in
  Qmax 0 (Qmin hi (inject_Z i + 1) - Qmax lo (inject_Z i)).

(** Area of the cell [(i, j)] covered by the rectangle. *)
Definition rect_coverage (x y w h : Q) (i j : Z) : Q :=
  (overlap x w i * overlap y h j)%Q.

(** ** The 2D rendering context *)

(** A full circle added to the current path by [arc(x, y, r, 0, 2 pi)]. *)
Record circle : Type := mk_circle { cx : Q; cy : Q; radius : Q }.

(** What [canvas.toDataURL()] serialises and an [Image] decodes again:
    the dimensions and the pixels.  The PNG encoding is taken to be
    lossless. *)
Record snapshot : Type := mk_snapshot { sw : Z; sh : Z; spix : Z -> Z -> pixel }.

(** The canvas element with its context.  Cells [(i, j)] with
    [0 <= i < width] and [0 <= j < height] are the surface. *)
Record context2d : Type := mk_context2d {
  width : Z;
  height : Z;
  bitmap : Z -> Z -> pixel;
  fillStyle : css_color;
  globalCompositeOperation : composite_op;
  path : list circle
}.

(** The calls the script makes on [ctx].  [arc] is only ever called with
    angles [0] and [Math.PI * 2], so the constructor keeps centre and
    radius. *)
Inductive call : Type :=
| set_globalCompositeOperation (op : composite_op)
| set_fillStyle (c : css_color)
| fillRect (x y w h : Q)
| clearRect (x y w h : Q)
| beginPath
| arc (x y r : Q)
| fill
| drawImage (img : snapshot) (dx dy : Z).

Definition in_image (img : snapshot) (i j : Z) : bool :=
  (0 <=? i) && (i <? sw img) && (0 <=? j) && (j <? sh img).

Definition image_pixel (img : snapshot) (i j : Z) : pixel :=
  if in_image img i j then spix img i j else transparent.

Definition toDataURL (c : context2d) : snapshot :=
  mk_snapshot (width c) (height c) (bitmap c).

(** ** Globals of the script *)

(** The value of an [<input type=color>]: always ['#rrggbb']. *)
Record hex_color : Type := mk_hex { hr : Z; hg : Z; hb : Z }.

Definition css_of_hex (c : hex_color) : css_color := Hex (hr c) (hg c) (hb c).

(** What the platform hands to one listener run: the clock read by
    [Date.now()] and the successive results of [Math.random()]. *)
Record env : Type := mk_env { now : Z; random : nat -> Q }.

Record globals : Type := mk_globals {
  ctx : context2d;
  isDrawing : bool;
  currentColor : hex_color;
  brushSize : Z;
  brushType : string;
  isEraser : bool;
  history : list snapshot;
  historyStep : Z;
  (** images whose [src] is set and whose [onload] has not fired yet *)
  loading : list snapshot
}.

Definition with_ctx (c : context2d) (s : globals) : globals :=
  mk_globals c (isDrawing s) (currentColor s) (brushSize s) (brushType s)
         (isEraser s) (history s) (historyStep s) (loading s).

Definition with_isDrawing (b : bool) (s : globals) : globals :=
  mk_globals (ctx s) b (currentColor s) (brushSize s) (brushType s)
         (isEraser s) (history s) (historyStep s) (loading s).

Definition with_history (h : list snapshot) (step : Z) (s : globals) : globals :=
  mk_globals (ctx s) (isDrawing s) (currentColor s) (brushSize s) (brushType s)
         (isEraser s) h step (loading s).

Definition with_loading (l : list snapshot) (s : globals) : globals :=
  mk_globals (ctx s) (isDrawing s) (currentColor s) (brushSize s) (brushType s)
         (isEraser s) (history s) (historyStep s) l.

(** ** History: [saveState] *)

Definition history_cap : Z := 50.

(** The body of [saveState] on the two history globals, given the data
    URL to push:
<<
    historyStep++;
    if (historyStep < history.length) history.length = historyStep;
    history.push(url);
    if (history.length > 50) { history.shift(); historyStep--; }
>>
    Assigning a negative [length] would throw; [historyStep] never goes
    below [-1], so the incremented value is never negative. *)
Definition push (url : snapshot) (h : list snapshot) (step : Z)
  : list snapshot * Z :=
  let step1 := step + 1 in
  let h1 := if step1 <? Z.of_nat (length h)
            then firstn (Z.to_nat step1) h else h in
  let h2 := h1 ++ [url] in
  if history_cap <? Z.of_nat (length h2)
  then (tl h2, step1 - 1)
  else (h2, step1).

Definition saveState (s : globals) : globals :=
  let '(h, step) := push (toDataURL (ctx s)) (history s) (historyStep s) in
  with_history h step s.

(** ** Arithmetic on doubles *)

Definition pow2 (k : Z) : Q := (2 ^ k)%Q.

(** The exponent of a positive number: [2^k <= q < 2^(k+1)]. *)
Definition floor_log2 (q : Q) : Z :=
  let k := Z.log2 (Qnum q) - Z.log2 (Zpos (Qden q)) in
  if Qle_bool (pow2 k) q then k else k - 1.

(** The nearest integer, a tie going to the even one. *)
Definition round_even (q : Q) : Z :=
  let f := Qfloor q in
  match (q - inject_Z f ?= 1 # 2)%Q with
  | Lt => f
  | Gt => f + 1
  | Eq => if Z.even f then f else f + 1
  end.

(** The exponent of the unit in the last place of a positive number:
    53 significant bits, and no finer than [2^-1074]. *)
Definition ulp_exp (q : Q) : Z := Z.max (-1074) (floor_log2 q - 52).

Definition fl_pos (q : Q) : Q :=
  (inject_Z (round_even (q / pow2 (ulp_exp q))) * pow2 (ulp_exp q))%Q.

(** The double nearest to [q]: what an arithmetic operation returns
    when its exact result is [q]. *)
Definition fl (q : Q) : Q :=
  match (q ?= 0)%Q with
  | Eq => 0%Q
  | Gt => fl_pos q
  | Lt => (- fl_pos (- q))%Q
  end.

Definition sqrt_exp (q : Q) : Z := floor_log2 q / 2 - 52.

(** [Math.sqrt]: the double nearest to the square root.  The argument
    is scaled by an even power of two so that the integer square root
    has 53 bits; the remainder decides the rounding. *)
Definition fl_sqrt (q : Q) : Q :=
  match (q ?= 0)%Q with
  | Gt =>
      let e := sqrt_exp q in
      let w := (q / pow2 (2 * e))%Q in
      let s := Z.sqrt (Qfloor w) in
      let half_way := ((inject_Z s + (1 # 2)) * (inject_Z s + (1 # 2)))%Q in
      let m := match (w ?= half_way)%Q with
               | Lt => s
               | Gt => s + 1
               | Eq => if Z.even s then s else s + 1
               end in
      (inject_Z m * pow2 e)%Q
  | _ => 0%Q
  end.

(** ** Brushes *)

Definition half (size : Z) : Q := inject_Z size / 2.

Definition drawRound (size : Z) (x y : Q) : list call :=
  [beginPath; arc x y (half size); fill].

Definition drawSquare (size : Z) (x y : Q) : list call :=
  [fillRect (x - half size) (y - half size) (inject_Z size) (inject_Z size)].

(** [(Math.random() - 0.5) * brushSize]: the difference is rounded,
    then the product. *)
Definition spray_offset (size : Z) (r : Q) : Q :=
  fl (fl (r - 1 / 2) * inject_Z size).

(** [Math.sqrt(offsetX * offsetX + offsetY * offsetY)]: the two
    products, their sum and the root are rounded in turn. *)
Definition spray_distance (ox oy : Q) : Q :=
  fl_sqrt (fl (fl (ox * ox) + fl (oy * oy))).

(** [distance <= brushSize / 2] *)
Definition within_radius (size : Z) (ox oy : Q) : bool :=
  Qle_bool (spray_distance ox oy) (fl (half size)).

(** The two offsets drawn in iteration [i] of the loop. *)
Definition spray_sample (size : Z) (rnd : nat -> Q) (i : nat) : Q * Q :=
  (spray_offset size (rnd (2 * i)%nat), spray_offset size (rnd (2 * i + 1)%nat)).

(** [const density = brushSize * 2] *)
Definition spray_density (size : Z) : Z := size * 2.

(** The iterations [i = 0, 1, ...] with [i < density].  The counter is
    a double: up to [2^53] the increments are exact. *)
Definition spray_samples (size : Z) (rnd : nat -> Q) : list (Q * Q) :=
  map (spray_sample size rnd) (seq 0 (Z.to_nat (spray_density size))).

Definition spray_accepted (size : Z) (rnd : nat -> Q) : list (Q * Q) :=
  filter (fun o => within_radius size (fst o) (snd o)) (spray_samples size rnd).

(** [ctx.fillRect(x + offsetX, y + offsetY, 1, 1)] for each accepted
    sample. *)
Definition drawSpray (size : Z) (rnd : nat -> Q) (x y : Q) : list call :=
  map (fun o => fillRect (fl (x + fst o)) (fl (y + snd o)) 1 1)
      (spray_accepted size rnd).

(** [(Date.now() / 10) % 360]: the quotient is rounded, the remainder
    of two doubles is exact. *)
Definition rainbow_hue (t : Z) : Q := js_rem (fl (inject_Z t / 10)) 360.

Definition drawRainbow (size : Z) (t : Z) (x y : Q) : list call :=
  set_fillStyle (Hsl (rainbow_hue t) 1 (1 / 2)) :: drawRound size x y.

(** The calls of [draw(x, y)].  The [switch] has no default: any other
    brush name paints nothing. *)
Definition draw (s : globals) (e : env) (x y : Q) : list call :=
  (if isEraser s
   then [set_globalCompositeOperation destination_out;
         set_fillStyle (Rgba 0 0 0 1)]
   else [set_globalCompositeOperation source_over;
         set_fillStyle (css_of_hex (currentColor s))])
  ++
  (if String.eqb (brushType s) "round" then drawRound (brushSize s) x y
   else if String.eqb (brushType s) "square" then drawSquare (brushSize s) x y
   else if String.eqb (brushType s) "spray"
        then drawSpray (brushSize s) (random e) x y
   else if String.eqb (brushType s) "rainbow"
        then drawRainbow (brushSize s) (now e) x y
   else []).

(** ** Executing the calls, and the listeners *)

Section Script.

(** How much of cell [(i, j)] the rasteriser finds covered when the
    current path is filled.  The script leaves this to the browser. *)
Variable path_coverage : list circle -> Z -> Z -> Qc.

Definition fill_coverage (p : list circle) (i j : Z) : Qc :=
  match p with
  | [] => 0%Qc
  | _ :: _ => path_coverage p i j
  end.

Definition with_bitmap (b : Z -> Z -> pixel) (c : context2d) : context2d :=
  mk_context2d (width c) (height c) b (fillStyle c)
               (globalCompositeOperation c) (path c).

Definition with_path (p : list circle) (c : context2d) : context2d :=
  mk_context2d (width c) (height c) (bitmap c) (fillStyle c)
               (globalCompositeOperation c) p.

(** One call on the context; [None] when the call throws ([arc] with a
    negative radius raises IndexSizeError). *)
Definition exec (k : call) (c : context2d) : option context2d :=
  match k with
  | set_globalCompositeOperation op =>
      Some (mk_context2d (width c) (height c) (bitmap c) (fillStyle c) op (path c))
  | set_fillStyle col =>
      Some (mk_context2d (width c) (height c) (bitmap c) col
                         (globalCompositeOperation c) (path c))
  | fillRect x y w h =>
      Some (with_bitmap
              (fun i j =>
                 composite (globalCompositeOperation c)
                   (shade (parse_color (fillStyle c)) (Q2Qc (rect_coverage x y w h i j)))
                   (bitmap c i j)) c)
  | clearRect x y w h =>
      Some (with_bitmap
              (fun i j => erase (Q2Qc (rect_coverage x y w h i j)) (bitmap c i j)) c)
  | beginPath => Some (with_path [] c)
  | arc x y r =>
      if Qle_bool 0 r then Some (with_path (path c ++ [mk_circle x y r]) c)
      else None
  | fill =>
      Some (with_bitmap
              (fun i j =>
                 composite (globalCompositeOperation c)
                   (shade (parse_color (fillStyle c)) (fill_coverage (path c) i j))
                   (bitmap c i j)) c)
  | drawImage img dx dy =>
      Some (with_bitmap
              (fun i j =>
                 composite (globalCompositeOperation c)
                   (image_pixel img (i - dx) (j - dy)) (bitmap c i j)) c)
  end.

(** A listener's calls in order.  A call that throws ends the listener;
    what was done before it stays done.  Every listener makes its
    context calls last, so nothing else is skipped. *)
Fixpoint run_calls (ks : list call) (c : context2d) : context2d :=
  match ks with
  | [] => c
  | k :: ks' =>
      match exec k c with
      | Some c' => run_calls ks' c'
      | None => c
      end
  end.

(** [resizeCanvas()], given the width the canvas ends up with
    ([Math.min(1200, container.clientWidth - 40)]).  Setting the
    dimensions resets the bitmap to transparent black and the context
    to its defaults. *)
Definition resizeCanvas (w : Z) : context2d :=
  run_calls [set_fillStyle (Hex 0 0 0); fillRect 0 0 (inject_Z w) 600]
            (mk_context2d w 600 (fun _ _ => transparent) (Hex 0 0 0) source_over []).

Definition whole_canvas (c : context2d) (k : Q -> Q -> Q -> Q -> call) : call :=
  k 0%Q 0%Q (inject_Z (width c)) (inject_Z (height c)).

(** [draw(pos.x, pos.y)] as the listeners call it. *)
Definition stamp (e : env) (x y : Q) (s : globals) : globals :=
  with_ctx (run_calls (draw s e x y) (ctx s)) s.

Definition colorPicker_input (v : hex_color) (s : globals) : globals :=
  mk_globals (ctx s) (isDrawing s) v (brushSize s) (brushType s)
         false (history s) (historyStep s) (loading s).

(** [brushSize = parseInt(e.target.value)]; [v] is the parsed integer. *)
Definition brushSizeSlider_input (v : Z) (s : globals) : globals :=
  mk_globals (ctx s) (isDrawing s) (currentColor s) v (brushType s)
         (isEraser s) (history s) (historyStep s) (loading s).

Definition brushTypeSelect_change (v : string) (s : globals) : globals :=
  mk_globals (ctx s) (isDrawing s) (currentColor s) (brushSize s) v
         (isEraser s) (history s) (historyStep s) (loading s).

(** [confirmed] is the answer to [confirm('Clear the entire canvas?')]. *)
Definition clearBtn_click (confirmed : bool) (s : globals) : globals :=
  if confirmed then
    let s1 := saveState s in
    with_ctx (run_calls [set_fillStyle (Hex 0 0 0);
                         whole_canvas (ctx s1) fillRect] (ctx s1)) s1
  else s.

Definition eraserBtn_click (s : globals) : globals :=
  mk_globals (ctx s) (isDrawing s) (currentColor s) (brushSize s) (brushType s)
         (negb (isEraser s)) (history s) (historyStep s) (loading s).

Definition fillBtn_click (s : globals) : globals :=
  let s1 := saveState s in
  with_ctx (run_calls [set_fillStyle (css_of_hex (currentColor s1));
                       whole_canvas (ctx s1) fillRect] (ctx s1)) s1.

(** The download changes none of the globals. *)
Definition saveBtn_click (s : globals) : globals := s.

(** The undo listener.  [img.src = history[historyStep]] starts a
    decode; the canvas is only touched when [onload] fires.  Were the
    index out of range the source would be [undefined], the load
    would fail and [onload] would never run. *)
Definition undoBtn_click (s : globals) : globals :=
  if 0 <? historyStep s then
    let step := historyStep s - 1 in
    match nth_error (history s) (Z.to_nat step) with
    | Some url => with_loading (loading s ++ [url]) (with_history (history s) step s)
    | None => with_history (history s) step s
    end
  else s.

(** The body of [img.onload]. *)
Definition img_onload (img : snapshot) (c : context2d) : context2d :=
  run_calls [whole_canvas c clearRect; drawImage img 0 0] c.

Fixpoint remove_nth {A : Type} (n : nat) (l : list A) : list A :=
  match n, l with
  | _, [] => []
  | O, _ :: l' => l'
  | S n', a :: l' => a :: remove_nth n' l'
  end.

(** A canvas without pixels serialises to ['data:,'], which is not an
    image: such a source fails to load. *)
Definition decodes (img : snapshot) : bool := (0 <? sw img) && (0 <? sh img).

(** The [n]-th pending image finishes: [onload] runs when the source
    decodes; otherwise the load ends in an error event, for which the
    script has no listener. *)
Definition image_loaded (n : nat) (s : globals) : globals :=
  match nth_error (loading s) n with
  | Some img =>
      if decodes img
      then with_loading (remove_nth n (loading s))
                        (with_ctx (img_onload img (ctx s)) s)
      else with_loading (remove_nth n (loading s)) s
  | None => s
  end.

Definition pointer_down (e : env) (x y : Q) (s : globals) : globals :=
  stamp e x y (saveState (with_isDrawing true s)).

Definition pointer_move (e : env) (x y : Q) (s : globals) : globals :=
  if isDrawing s then stamp e x y s else s.

Definition pointer_up (s : globals) : globals := with_isDrawing false s.

Definition keydown (ctrl_or_meta : bool) (key : string) (confirmed : bool)
           (s : globals) : globals :=
  let s1 := if ctrl_or_meta then
              if String.eqb key "z" then undoBtn_click s
              else if String.eqb key "s" then saveBtn_click s
              else s
            else s in
  let s2 := if String.eqb key "e" then eraserBtn_click s1 else s1 in
  if String.eqb key "c" then clearBtn_click confirmed s2 else s2.

Inductive event : Type :=
| Resize (w : Z)
| ColorInput (v : hex_color)
| BrushSizeInput (v : Z)
| BrushTypeChange (v : string)
| ClearClick (confirmed : bool)
| EraserClick
| FillClick
| SaveClick
| UndoClick
| ImageLoaded (n : nat)
| MouseDown (e : env) (x y : Q)
| MouseMove (e : env) (x y : Q)
| MouseUp
| MouseOut
| TouchStart (e : env) (x y : Q)
| TouchMove (e : env) (x y : Q)
| TouchEnd
| TouchCancel
| KeyDown (ctrl_or_meta : bool) (key : string) (confirmed : bool).

Definition handle (s : globals) (ev : event) : globals :=
  match ev with
  | Resize w => with_ctx (resizeCanvas w) s
  | ColorInput v => colorPicker_input v s
  | BrushSizeInput v => brushSizeSlider_input v s
  | BrushTypeChange v => brushTypeSelect_change v s
  | ClearClick confirmed => clearBtn_click confirmed s
  | EraserClick => eraserBtn_click s
  | FillClick => fillBtn_click s
  | SaveClick => saveBtn_click s
  | UndoClick => undoBtn_click s
  | ImageLoaded n => image_loaded n s
  | MouseDown e x y | TouchStart e x y => pointer_down e x y s
  | MouseMove e x y | TouchMove e x y => pointer_move e x y s
  | MouseUp | MouseOut | TouchEnd | TouchCancel => pointer_up s
  | KeyDown c k a => keydown c k a s
  end.

Definition run (evs : list event) (s : globals) : globals := fold_left handle evs s.

(** The globals as the script declares them, on a canvas of width [w]
    that [resizeCanvas()] has just painted black. *)
Definition start (w : Z) : globals :=
  mk_globals (resizeCanvas w) false (mk_hex 255 255 255) 5 "round" false [] (-1) [].

(** The state once the script has run to its end: the declarations,
    then the first [saveState()]. *)
Definition init (w : Z) : globals := saveState (start w).

Inductive reachable (w : Z) : globals -> Prop :=
| reach_init : reachable w (init w)
| reach_step s ev : reachable w s -> reachable w (handle s ev).

(** ** Notions the properties are stated with *)

(** [saveState()] called once for each surface of [cs], in order. *)
Fixpoint saves (cs : list context2d) (s : globals) : globals :=
  match cs with
  | [] => s
  | c :: cs' => saves cs' (saveState (with_ctx c s))
  end.

(** The history is within its cap and the cursor is [-1] (nothing
    stored yet) or the index of a stored entry. *)
Definition hist_ok (s : globals) : Prop :=
  Z.of_nat (length (history s)) <= history_cap /\
  -1 <= historyStep s < Z.of_nat (length (history s)).

Definition in_canvas (c : context2d) (i j : Z) : Prop :=
  0 <= i < width c /\ 0 <= j < height c.

Definition sets_composite (k : call) : bool :=
  match k with
  | set_globalCompositeOperation _ => true
  | _ => false
  end.

(** The brush part of [draw]: everything after the two assignments. *)
Definition brush_calls (s : globals) (e : env) (x y : Q) : list call :=
  if String.eqb (brushType s) "round" then drawRound (brushSize s) x y
  else if String.eqb (brushType s) "square" then drawSquare (brushSize s) x y
  else if String.eqb (brushType s) "spray"
       then drawSpray (brushSize s) (random e) x y
  else if String.eqb (brushType s) "rainbow"
       then drawRainbow (brushSize s) (now e) x y
  else [].

Definition black : rgba := parse_color (Hex 0 0 0).

Definition still : env := mk_env 0 (fun _ => 1 # 2).

(** A fresh page 800 wide; the user switches to the eraser, presses
    and releases the button over the canvas, clicks undo, and the
    image finishes loading. *)
Definition erased_then_undone : globals :=
  run [EraserClick; MouseDown still 10 10; MouseUp; UndoClick; ImageLoaded 0]
      (init 800).

Definition red_hex : hex_color := mk_hex 255 0 0.

(** A fresh page 800 wide; the user makes one eraser stamp, picks
    red in the colour picker (which also leaves eraser mode) and
    clicks fill. *)
Definition erased_then_filled : globals :=
  run [EraserClick; MouseDown still 10 10; MouseUp; ColorInput red_hex; FillClick]
      (init 800).

(** The calls that composite onto the bitmap ([clearRect] does not). *)
Definition paints (k : call) : bool :=
  match k with
  | fillRect _ _ _ _ | fill | drawImage _ _ _ => true
  | _ => false
  end.

(** The composite operation in force at each painting call, as the
    list executes. *)
Fixpoint paint_modes (ks : list call) (c : context2d) : list composite_op :=
  match ks with
  | [] => []
  | k :: ks' =>
      (if paints k then [globalCompositeOperation c] else [])
      ++ match exec k c with
         | Some c' => paint_modes ks' c'
         | None => []
         end
  end.

(** Two contexts that differ at most in the fill style. *)
Definition same_surface (c1 c2 : context2d) : Prop :=
  width c1 = width c2 /\ height c1 = height c2 /\ bitmap c1 = bitmap c2 /\
  globalCompositeOperation c1 = globalCompositeOperation c2 /\
  path c1 = path c2.

(** Two states that differ at most in the configured colour and in
    the fill style left on the context. *)
Definition same_but_color (s1 s2 : globals) : Prop :=
  same_surface (ctx s1) (ctx s2) /\
  isDrawing s1 = isDrawing s2 /\
  brushSize s1 = brushSize s2 /\
  brushType s1 = brushType s2 /\
  isEraser s1 = isEraser s2 /\
  history s1 = history s2 /\
  historyStep s1 = historyStep s2 /\
  loading s1 = loading s2.

(** The same pointer event in two runs: same position, same random
    numbers; only the clock may differ. *)
Inductive same_gesture : event -> event -> Prop :=
| same_MouseDown e1 e2 x y :
    random e1 = random e2 -> same_gesture (MouseDown e1 x y) (MouseDown e2 x y)
| same_MouseMove e1 e2 x y :
    random e1 = random e2 -> same_gesture (MouseMove e1 x y) (MouseMove e2 x y)
| same_MouseUp : same_gesture MouseUp MouseUp
| same_MouseOut : same_gesture MouseOut MouseOut
| same_TouchStart e1 e2 x y :
    random e1 = random e2 -> same_gesture (TouchStart e1 x y) (TouchStart e2 x y)
| same_TouchMove e1 e2 x y :
    random e1 = random e2 -> same_gesture (TouchMove e1 x y) (TouchMove e2 x y)
| same_TouchEnd : same_gesture TouchEnd TouchEnd
| same_TouchCancel : same_gesture TouchCancel TouchCancel.

(** A cell that some [fillRect] of the list covers at least in part. *)
Definition touched (ks : list call) (i j : Z) : Prop :=
  exists x y w h,
    In (fillRect x y w h) ks /\ (0 < rect_coverage x y w h i j)%Q.

(** Random numbers whose first two make the offset (0.75, 0.5) at
    size 2; all later ones give the offset (0, 0). *)
Definition gust (n : nat) : Q :=
  match n with
  | 0%nat => 7 # 8
  | 1%nat => 3 # 4
  | _ => 1 # 2
  end.

(** Random numbers whose first two make the offset (-0.5, 2^-30) at
    size 1. *)
Definition edge (n : nat) : Q :=
  match n with
  | 0%nat => 0
  | 1%nat => (1 # 2) + pow2 (-30)
  | _ => 1 # 2
  end.

(** One stroke: the button goes down, the pointer moves through the
    sampled positions, the button goes up. *)
Definition stroke (e : env) (x y : Q) (moves : list (env * Q * Q)) : list event :=
  MouseDown e x y
  :: map (fun m => MouseMove (fst (fst m)) (snd (fst m)) (snd m)) moves
  ++ [MouseUp].

(** ** Properties of the rounding *)

(** *** Powers of two *)

Lemma pow2_pos k : (0 < pow2 k)%Q.
Proof. apply Qpower_0_lt. reflexivity. Qed.

Lemma pow2_add a b : (pow2 (a + b) == pow2 a * pow2 b)%Q.
Proof. apply Qpower_plus. discriminate. Qed.

Lemma pow2_le a b : a <= b -> (pow2 a <= pow2 b)%Q.
Proof. intros H. apply Qpower_le_compat_l; [exact H|discriminate]. Qed.

Lemma pow2_lt a b : a < b -> (pow2 a < pow2 b)%Q.
Proof. intros H. apply Qpower_lt_compat_l; [exact H|reflexivity]. Qed.

Lemma pow2_lt_inv a b : (pow2 a < pow2 b)%Q -> a < b.
Proof. intros H. apply (Qpower_lt_compat_l_inv 2); [exact H|reflexivity]. Qed.

Lemma pow2_Z k : 0 <= k -> (pow2 k == inject_Z (2 ^ k))%Q.
Proof. intros H. unfold pow2. rewrite Zpower_Qpower by exact H. reflexivity. Qed.

Lemma pow2_sub a b : (pow2 (a - b) == pow2 a / pow2 b)%Q.
Proof.
  assert (E : (pow2 a == pow2 (a - b) * pow2 b)%Q).
  { rewrite <- pow2_add. now replace (a - b + b) with a by lia. }
  rewrite E. field. pose proof (pow2_pos b). lra.
Qed.

(** *** The exponent of a positive number *)

Lemma floor_log2_spec q :
  (0 < q)%Q -> (pow2 (floor_log2 q) <= q < pow2 (floor_log2 q + 1))%Q.
Proof.
  intros Hq. unfold floor_log2.
  destruct q as [n d]. cbn [Qnum Qden].
  assert (Hn : 0 < n) by (unfold Qlt in Hq; cbn in Hq; lia).
  set (a := Z.log2 n). set (b := Z.log2 (Zpos d)).
  assert (Ha0 : 0 <= a) by apply Z.log2_nonneg.
  assert (Hb0 : 0 <= b) by apply Z.log2_nonneg.
  destruct (Z.log2_spec n Hn) as [Ha1 Ha2]. fold a in Ha1, Ha2.
  destruct (Z.log2_spec (Zpos d) ltac:(lia)) as [Hb1 Hb2]. fold b in Hb1, Hb2.
  assert (Qa1 : (pow2 a <= inject_Z n)%Q).
  { rewrite pow2_Z by lia. rewrite <- Zle_Qle. exact Ha1. }
  assert (Qa2 : (inject_Z n < pow2 (a + 1))%Q).
  { rewrite pow2_Z by lia. rewrite <- Zlt_Qlt. replace (a + 1) with (Z.succ a) by lia. exact Ha2. }
  assert (Qb1 : (pow2 b <= inject_Z (Zpos d))%Q).
  { rewrite pow2_Z by lia. rewrite <- Zle_Qle. exact Hb1. }
  assert (Qb2 : (inject_Z (Zpos d) < pow2 (b + 1))%Q).
  { rewrite pow2_Z by lia. rewrite <- Zlt_Qlt. replace (b + 1) with (Z.succ b) by lia. exact Hb2. }
  assert (Eq : (n # d == inject_Z n / inject_Z (Zpos d))%Q) by apply Qmake_Qdiv.
  pose proof (pow2_pos b) as Pb. pose proof (pow2_pos (a - b)) as Pab.
  pose proof (pow2_pos (a - b - 1)) as Pab1.
  assert (Dpos : (0 < inject_Z (Zpos d))%Q) by reflexivity.
  (* q * d = n *)
  assert (Emul : ((n # d) * inject_Z (Zpos d) == inject_Z n)%Q).
  { rewrite Eq. field. lra. }
  assert (U : ((n # d) < pow2 (a - b + 1))%Q).
  { assert (E1 : (pow2 (a + 1) == pow2 (a - b + 1) * pow2 b)%Q).
    { rewrite <- pow2_add. now replace (a - b + 1 + b) with (a + 1) by lia. }
    pose proof (pow2_pos (a - b + 1)) as P1.
    apply Qnot_le_lt. intros C.
    assert ((pow2 (a - b + 1) * pow2 b <= (n # d) * inject_Z (Zpos d))%Q).
    { apply Qle_trans with ((n # d) * pow2 b)%Q.
      - apply Qmult_le_compat_r; lra.
      - rewrite (Qmult_comm (n # d)), (Qmult_comm (n # d)).
        apply Qmult_le_compat_r; lra. }
    lra. }
  assert (L : (pow2 (a - b - 1) < (n # d))%Q).
  { assert (E1 : (pow2 a == pow2 (a - b - 1) * pow2 (b + 1))%Q).
    { rewrite <- pow2_add. now replace (a - b - 1 + (b + 1)) with a by lia. }
    pose proof (pow2_pos (b + 1)) as P1.
    apply Qnot_le_lt. intros C.
    assert (((n # d) * inject_Z (Zpos d) <= pow2 (a - b - 1) * inject_Z (Zpos d))%Q).
    { apply Qmult_le_compat_r; lra. }
    assert ((pow2 (a - b - 1) * inject_Z (Zpos d) < pow2 (a - b - 1) * pow2 (b + 1))%Q).
    { apply Qmult_lt_l; assumption. }
    lra. }
  destruct (Qle_bool (pow2 (a - b)) (n # d)) eqn:E.
  - apply Qle_bool_iff in E. split; assumption.
  - assert (H : ~ (pow2 (a - b) <= (n # d))%Q).
    { intros C. apply Qle_bool_iff in C. congruence. }
    apply Qnot_le_lt in H. replace (a - b - 1 + 1) with (a - b) by lia.
    split; lra.
Qed.

Lemma floor_log2_unique q k :
  (pow2 k <= q < pow2 (k + 1))%Q -> floor_log2 q = k.
Proof.
  intros [H1 H2].
  assert (Hq : (0 < q)%Q) by (pose proof (pow2_pos k); lra).
  destruct (floor_log2_spec q Hq) as [S1 S2].
  assert (A : floor_log2 q < k + 1) by (apply pow2_lt_inv; lra).
  assert (B : k < floor_log2 q + 1) by (apply pow2_lt_inv; lra).
  lia.
Qed.

Lemma floor_log2_wd q q' : (0 < q)%Q -> (q == q')%Q -> floor_log2 q = floor_log2 q'.
Proof.
  intros Hq E. apply floor_log2_unique.
  destruct (floor_log2_spec q' ltac:(lra)). lra.
Qed.

Lemma floor_log2_mono q q' : (0 < q)%Q -> (q <= q')%Q -> floor_log2 q <= floor_log2 q'.
Proof.
  intros Hq H.
  destruct (floor_log2_spec q Hq). destruct (floor_log2_spec q' ltac:(lra)).
  assert (floor_log2 q < floor_log2 q' + 1) by (apply pow2_lt_inv; lra). lia.
Qed.

(** *** Rounding to the nearest integer *)

Lemma Qfloor_bounds q : (inject_Z (Qfloor q) <= q < inject_Z (Qfloor q) + 1)%Q.
Proof.
  split; [apply Qfloor_le|].
  pose proof (Qlt_floor q) as H. rewrite inject_Z_plus in H. exact H.
Qed.

Lemma round_even_cases q :
  (round_even q = Qfloor q /\ (q - inject_Z (Qfloor q) <= 1 # 2)%Q) \/
  (round_even q = Qfloor q + 1 /\ (1 # 2 <= q - inject_Z (Qfloor q))%Q).
Proof.
  unfold round_even.
  destruct (q - inject_Z (Qfloor q) ?= 1 # 2)%Q eqn:E.
  - apply (proj2 (Qeq_alt _ _)) in E.
    destruct (Z.even (Qfloor q)); [left|right]; split; trivial; lra.
  - apply (proj2 (Qlt_alt _ _)) in E. left. split; trivial; lra.
  - apply (proj2 (Qgt_alt _ _)) in E. right. split; trivial; lra.
Qed.

Lemma round_even_near q :
  (- (1 # 2) <= inject_Z (round_even q) - q <= 1 # 2)%Q.
Proof.
  pose proof (Qfloor_bounds q) as [F1 F2].
  destruct (round_even_cases q) as [[-> H]|[-> H]].
  - lra.
  - rewrite inject_Z_plus. change (inject_Z 1) with 1%Q. lra.
Qed.

Lemma round_even_wd q q' : (q == q')%Q -> round_even q = round_even q'.
Proof.
  intros E. unfold round_even.
  assert (F : Qfloor q = Qfloor q') by now rewrite E.
  rewrite F.
  assert (C : (q - inject_Z (Qfloor q') ?= 1 # 2)%Q = (q' - inject_Z (Qfloor q') ?= 1 # 2)%Q)
    by now rewrite E.
  now rewrite C.
Qed.

Lemma round_even_Z z : round_even (inject_Z z) = z.
Proof.
  unfold round_even. rewrite Qfloor_Z.
  assert (E : (inject_Z z - inject_Z z ?= 1 # 2)%Q = Lt).
  { apply (proj1 (Qlt_alt _ _)). lra. }
  now rewrite E.
Qed.

Lemma Zlt_floor_le (z : Z) (q : Q) : (inject_Z z <= q)%Q -> z <= Qfloor q.
Proof.
  intros H. rewrite <- (Qfloor_Z z). now apply Qfloor_resp_le.
Qed.

Lemma round_even_mono q q' : (q <= q')%Q -> round_even q <= round_even q'.
Proof.
  intros H.
  pose proof (Qfloor_resp_le _ _ H) as Hf.
  pose proof (Qfloor_bounds q) as [A1 A2]. pose proof (Qfloor_bounds q') as [B1 B2].
  destruct (Z.eq_dec (Qfloor q) (Qfloor q')) as [E|NE].
  - unfold round_even. rewrite E.
    destruct (q - inject_Z (Qfloor q') ?= 1 # 2)%Q eqn:C1;
    destruct (q' - inject_Z (Qfloor q') ?= 1 # 2)%Q eqn:C2;
      try (destruct (Z.even (Qfloor q'))); try lia;
      first [apply (proj2 (Qeq_alt _ _)) in C1 | apply (proj2 (Qlt_alt _ _)) in C1
            | apply (proj2 (Qgt_alt _ _)) in C1];
      first [apply (proj2 (Qeq_alt _ _)) in C2 | apply (proj2 (Qlt_alt _ _)) in C2
            | apply (proj2 (Qgt_alt _ _)) in C2];
      exfalso; lra.
  - destruct (round_even_cases q) as [[-> _]|[-> _]];
    destruct (round_even_cases q') as [[-> _]|[-> _]]; lia.
Qed.

Lemma round_even_ge z q : (inject_Z z <= q)%Q -> z <= round_even q.
Proof. intros H. rewrite <- (round_even_Z z). now apply round_even_mono. Qed.

Lemma round_even_le z q : (q <= inject_Z z)%Q -> round_even q <= z.
Proof. intros H. rewrite <- (round_even_Z z). now apply round_even_mono. Qed.

(** *** Rounding a positive number to a double *)

Lemma ulp_exp_wd q q' : (0 < q)%Q -> (q == q')%Q -> ulp_exp q = ulp_exp q'.
Proof. intros H E. unfold ulp_exp. now rewrite (floor_log2_wd q q' H E). Qed.

Lemma ulp_exp_mono q q' : (0 < q)%Q -> (q <= q')%Q -> ulp_exp q <= ulp_exp q'.
Proof. intros H L. unfold ulp_exp. pose proof (floor_log2_mono q q' H L). lia. Qed.

(** [q / 2^e < 2^53], and [2^52 <= q / 2^e] unless the exponent is the least one. *)
Lemma scaled_bounds q :
  (0 < q)%Q ->
  (q < pow2 (ulp_exp q + 53))%Q /\
  (-1074 < ulp_exp q -> (pow2 (ulp_exp q + 52) <= q)%Q).
Proof.
  intros Hq. destruct (floor_log2_spec q Hq) as [S1 S2]. unfold ulp_exp. split.
  - apply Qlt_le_trans with (pow2 (floor_log2 q + 1)); [exact S2|].
    apply pow2_le. lia.
  - intros H. replace (Z.max (-1074) (floor_log2 q - 52) + 52) with (floor_log2 q) by lia.
    exact S1.
Qed.

Lemma fl_pos_wd q q' : (0 < q)%Q -> (q == q')%Q -> (fl_pos q == fl_pos q')%Q.
Proof.
  intros H E. unfold fl_pos. rewrite <- (ulp_exp_wd q q' H E).
  assert (R : round_even (q / pow2 (ulp_exp q)) = round_even (q' / pow2 (ulp_exp q))).
  { apply round_even_wd. apply Qdiv_comp; [exact E|reflexivity]. }
  rewrite R. reflexivity.
Qed.

Lemma fl_pos_error q :
  (0 < q)%Q ->
  (- (pow2 (ulp_exp q) / 2) <= fl_pos q - q <= pow2 (ulp_exp q) / 2)%Q.
Proof.
  intros Hq. unfold fl_pos. set (e := ulp_exp q).
  pose proof (pow2_pos e) as Pe.
  pose proof (round_even_near (q / pow2 e)) as [N1 N2].
  set (m := inject_Z (round_even (q / pow2 e))) in *.
  assert (E : (q == (q / pow2 e) * pow2 e)%Q) by (field; lra).
  set (t := (q / pow2 e)%Q) in *.
  assert (A : ((m - t) * pow2 e <= (1 # 2) * pow2 e)%Q)
    by (apply Qmult_le_compat_r; lra).
  assert (B : (- (1 # 2) * pow2 e <= (m - t) * pow2 e)%Q)
    by (apply Qmult_le_compat_r; lra).
  assert (E1 : (pow2 e / 2 == (1 # 2) * pow2 e)%Q) by (field).
  assert (G : (m * pow2 e - q == (m - t) * pow2 e)%Q).
  { clearbody t m. rewrite E. ring. }
  rewrite E1, G. split; lra.
Qed.

Lemma fl_pos_range q :
  (0 < q)%Q ->
  (0 <= fl_pos q)%Q /\
  (fl_pos q <= pow2 (ulp_exp q + 53))%Q /\
  (-1074 < ulp_exp q -> (pow2 (ulp_exp q + 52) <= fl_pos q)%Q).
Proof.
  intros Hq. destruct (scaled_bounds q Hq) as [U L]. unfold fl_pos.
  set (e := ulp_exp q) in *. pose proof (pow2_pos e) as Pe.
  assert (T0 : (0 <= q / pow2 e)%Q).
  { apply Qle_shift_div_l; lra. }
  assert (T1 : (q / pow2 e <= inject_Z (2 ^ 53))%Q).
  { apply Qle_shift_div_r; [lra|]. rewrite <- pow2_Z by lia.
    rewrite <- pow2_add. replace (53 + e) with (e + 53) by lia. lra. }
  pose proof (round_even_ge 0 _ T0) as M0.
  pose proof (round_even_le _ _ T1) as M1.
  set (m := round_even (q / pow2 e)) in *.
  assert (Q0 : (0 <= inject_Z m)%Q) by (rewrite <- (Zle_Qle 0); exact M0).
  assert (Q1 : (inject_Z m <= pow2 53)%Q).
  { rewrite pow2_Z by lia. rewrite <- Zle_Qle. exact M1. }
  split; [|split].
  - apply Qmult_le_0_compat; lra.
  - rewrite pow2_add, (Qmult_comm (pow2 e)). apply Qmult_le_compat_r; lra.
  - intros Hn. specialize (L Hn).
    assert (T2 : (inject_Z (2 ^ 52) <= q / pow2 e)%Q).
    { apply Qle_shift_div_l; [lra|]. rewrite <- pow2_Z by lia.
      rewrite <- pow2_add. replace (52 + e) with (e + 52) by lia. lra. }
    pose proof (round_even_ge _ _ T2) as M2. fold m in M2.
    assert (Q2 : (pow2 52 <= inject_Z m)%Q).
    { rewrite pow2_Z by lia. rewrite <- Zle_Qle. exact M2. }
    rewrite pow2_add, (Qmult_comm (pow2 e)). apply Qmult_le_compat_r; lra.
Qed.

Lemma fl_pos_mono q q' : (0 < q)%Q -> (q <= q')%Q -> (fl_pos q <= fl_pos q')%Q.
Proof.
  intros Hq H. assert (Hq' : (0 < q')%Q) by lra.
  pose proof (ulp_exp_mono q q' Hq H) as He.
  destruct (Z.eq_dec (ulp_exp q) (ulp_exp q')) as [E|NE].
  - unfold fl_pos. rewrite E. set (e := ulp_exp q'). pose proof (pow2_pos e) as Pe.
    assert (T : (q / pow2 e <= q' / pow2 e)%Q).
    { apply Qmult_le_compat_r; [exact H|]. apply Qlt_le_weak, Qinv_lt_0_compat, Pe. }
    pose proof (round_even_mono _ _ T) as M. rewrite Zle_Qle in M.
    apply Qmult_le_compat_r; lra.
  - destruct (fl_pos_range q Hq) as (_ & U & _).
    destruct (fl_pos_range q' Hq') as (_ & _ & L).
    assert (Hn : -1074 < ulp_exp q') by (unfold ulp_exp in *; lia).
    specialize (L Hn).
    assert (P : (pow2 (ulp_exp q + 53) <= pow2 (ulp_exp q' + 52))%Q)
      by (apply pow2_le; lia).
    lra.
Qed.

(** A number with at most 53 significant bits and an exponent in range is
    a double, and rounding leaves it alone. *)
Lemma fl_pos_dyadic (m k : Z) :
  0 < m < 2 ^ 53 -> -1074 <= k ->
  (fl_pos (inject_Z m * pow2 k) == inject_Z m * pow2 k)%Q.
Proof.
  intros [Hm0 Hm1] Hk. set (q := (inject_Z m * pow2 k)%Q).
  pose proof (pow2_pos k) as Pk.
  assert (Qm0 : (0 < inject_Z m)%Q) by (rewrite <- (Zlt_Qlt 0); exact Hm0).
  assert (Qm1 : (inject_Z m < pow2 53)%Q).
  { rewrite pow2_Z by lia. rewrite <- Zlt_Qlt. exact Hm1. }
  assert (Hq : (0 < q)%Q) by (apply Qmult_lt_0_compat; assumption).
  assert (Hlt : (q < pow2 (53 + k))%Q).
  { rewrite pow2_add. unfold q. apply Qmult_lt_compat_r; assumption. }
  destruct (floor_log2_spec q Hq) as [S1 _].
  assert (Hfl : floor_log2 q < 53 + k) by (apply pow2_lt_inv; lra).
  assert (He : ulp_exp q <= k) by (unfold ulp_exp; lia).
  unfold fl_pos. set (e := ulp_exp q) in *. pose proof (pow2_pos e) as Pe.
  assert (Ek : (pow2 k == pow2 (k - e) * pow2 e)%Q).
  { rewrite <- pow2_add. now replace (k - e + e) with k by lia. }
  assert (Ez : (pow2 (k - e) == inject_Z (2 ^ (k - e)))%Q) by (apply pow2_Z; lia).
  assert (Et : (q / pow2 e == inject_Z (m * 2 ^ (k - e)))%Q).
  { unfold q. rewrite inject_Z_mult, <- Ez, Ek. field. lra. }
  rewrite (round_even_wd _ _ Et), round_even_Z.
  unfold q. rewrite inject_Z_mult, <- Ez, Ek. ring.
Qed.

(** *** Rounding any number *)

Lemma fl_0 : fl 0 = 0%Q.
Proof. reflexivity. Qed.

Lemma fl_pos_eq q : (0 < q)%Q -> fl q = fl_pos q.
Proof. intros H. unfold fl. apply (proj1 (Qgt_alt _ _)) in H. now rewrite H. Qed.

Lemma fl_neg_eq q : (q < 0)%Q -> fl q = (- fl_pos (- q))%Q.
Proof. intros H. unfold fl. apply (proj1 (Qlt_alt _ _)) in H. now rewrite H. Qed.

Lemma fl_zero_eq q : (q == 0)%Q -> fl q = 0%Q.
Proof. intros H. unfold fl. apply (proj1 (Qeq_alt _ _)) in H. now rewrite H. Qed.

Lemma fl_wd q q' : (q == q')%Q -> (fl q == fl q')%Q.
Proof.
  intros E. destruct (Q_dec q 0) as [[H|H]|H].
  - rewrite (fl_neg_eq q H), (fl_neg_eq q') by lra.
    rewrite (fl_pos_wd (- q) (- q')); [reflexivity|lra|now rewrite E].
  - rewrite (fl_pos_eq q H), (fl_pos_eq q') by lra. apply fl_pos_wd; trivial.
  - rewrite (fl_zero_eq q H), (fl_zero_eq q') by lra. reflexivity.
Qed.

Lemma fl_sign q :
  ((0 <= q)%Q -> (0 <= fl q)%Q) /\ ((q <= 0)%Q -> (fl q <= 0)%Q).
Proof.
  destruct (Q_dec q 0) as [[H|H]|H].
  - rewrite (fl_neg_eq q H). destruct (fl_pos_range (- q)) as (P & _); [lra|].
    split; intros; lra.
  - rewrite (fl_pos_eq q H). destruct (fl_pos_range q H) as (P & _).
    split; intros; lra.
  - rewrite (fl_zero_eq q H). split; intros; lra.
Qed.

Lemma fl_mono q q' : (q <= q')%Q -> (fl q <= fl q')%Q.
Proof.
  intros H. destruct (Q_dec q 0) as [[Hq|Hq]|Hq]; destruct (Q_dec q' 0) as [[Hq'|Hq']|Hq'].
  - rewrite (fl_neg_eq q Hq), (fl_neg_eq q' Hq').
    pose proof (fl_pos_mono (- q') (- q) ltac:(lra) ltac:(lra)). lra.
  - pose proof (proj2 (fl_sign q) ltac:(lra)). pose proof (proj1 (fl_sign q') ltac:(lra)). lra.
  - pose proof (proj2 (fl_sign q) ltac:(lra)). pose proof (proj1 (fl_sign q') ltac:(lra)). lra.
  - lra.
  - rewrite (fl_pos_eq q Hq), (fl_pos_eq q' Hq'). apply fl_pos_mono; assumption.
  - lra.
  - pose proof (proj2 (fl_sign q) ltac:(lra)). pose proof (proj1 (fl_sign q') ltac:(lra)). lra.
  - pose proof (proj2 (fl_sign q) ltac:(lra)). pose proof (proj1 (fl_sign q') ltac:(lra)). lra.
  - rewrite (fl_zero_eq q Hq), (fl_zero_eq q' Hq'). lra.
Qed.

Lemma fl_dyadic (m k : Z) :
  - 2 ^ 53 < m < 2 ^ 53 -> -1074 <= k ->
  (fl (inject_Z m * pow2 k) == inject_Z m * pow2 k)%Q.
Proof.
  intros Hm Hk. pose proof (pow2_pos k) as Pk.
  destruct (Z.lt_trichotomy m 0) as [H|[H|H]].
  - assert (Qm : (inject_Z m < 0)%Q) by (unfold Qlt; cbn; lia).
    assert (Hq : (inject_Z m * pow2 k < 0)%Q).
    { setoid_replace (inject_Z m * pow2 k)%Q with (- ((- inject_Z m) * pow2 k))%Q by ring.
      assert ((0 < (- inject_Z m) * pow2 k)%Q) by (apply Qmult_lt_0_compat; lra). lra. }
    rewrite (fl_neg_eq _ Hq).
    assert (E : (- (inject_Z m * pow2 k) == inject_Z (- m) * pow2 k)%Q)
      by (rewrite inject_Z_opp; ring).
    assert (Hpos : (0 < - (inject_Z m * pow2 k))%Q) by lra.
    rewrite (fl_pos_wd _ _ Hpos E), fl_pos_dyadic by lia.
    rewrite inject_Z_opp. ring.
  - subst m. rewrite fl_zero_eq; [|ring]. ring.
  - assert (Qm : (0 < inject_Z m)%Q) by (unfold Qlt; cbn; lia).
    rewrite fl_pos_eq by (apply Qmult_lt_0_compat; lra).
    apply fl_pos_dyadic; lia.
Qed.

(** The rounding error: half a unit in the last place, which is at most
    [2^-53] of the number or, for subnormal results, [2^-1075]. *)
Lemma fl_error q :
  (Qabs (fl q - q) <= Qabs q * pow2 (-53) + pow2 (-1075))%Q.
Proof.
  assert (Pos : forall p, (0 < p)%Q ->
            (Qabs (fl_pos p - p) <= p * pow2 (-53) + pow2 (-1075))%Q).
  { intros p Hp. pose proof (fl_pos_error p Hp) as [E1 E2].
    destruct (scaled_bounds p Hp) as [_ L].
    pose proof (pow2_pos (-53)) as P53. pose proof (pow2_pos (-1075)) as P1075.
    assert (B : (pow2 (ulp_exp p) / 2 <= p * pow2 (-53) + pow2 (-1075))%Q).
    { assert (Eh : (pow2 (ulp_exp p) / 2 == pow2 (ulp_exp p - 1))%Q).
      { rewrite pow2_sub. reflexivity. }
      rewrite Eh.
      destruct (Z.eq_dec (ulp_exp p) (-1074)) as [E|NE].
      - rewrite E. change (-1074 - 1) with (-1075).
        assert ((0 <= p * pow2 (-53))%Q) by (apply Qmult_le_0_compat; lra). lra.
      - assert (Hn : -1074 < ulp_exp p) by (unfold ulp_exp in *; lia).
        specialize (L Hn).
        assert (E53 : (pow2 (ulp_exp p - 1) == pow2 (ulp_exp p + 52) * pow2 (-53))%Q).
        { rewrite <- pow2_add. now replace (ulp_exp p + 52 + -53) with (ulp_exp p - 1) by lia. }
        rewrite E53.
        assert ((pow2 (ulp_exp p + 52) * pow2 (-53) <= p * pow2 (-53))%Q)
          by (apply Qmult_le_compat_r; lra).
        lra. }
    apply Qabs_Qle_condition. split; lra. }
  destruct (Q_dec q 0) as [[H|H]|H].
  - rewrite (fl_neg_eq q H). specialize (Pos (- q)%Q ltac:(lra)).
    rewrite (Qabs_neg q) by lra.
    setoid_replace (- fl_pos (- q) - q)%Q with (- (fl_pos (- q) - - q))%Q by ring.
    rewrite Qabs_opp. exact Pos.
  - rewrite (fl_pos_eq q H), (Qabs_pos q) by lra. now apply Pos.
  - rewrite (fl_zero_eq q H).
    pose proof (pow2_pos (-1075)). pose proof (pow2_pos (-53)).
    pose proof (Qabs_nonneg q).
    assert ((0 <= Qabs q * pow2 (-53))%Q) by (apply Qmult_le_0_compat; lra).
    setoid_replace (0 - q)%Q with 0%Q by lra. cbn [Qabs Z.abs]. lra.
Qed.

Lemma Qmult_le_compat_left (x y z : Q) : (x <= y -> 0 <= z -> z * x <= z * y)%Q.
Proof.
  intros H Hz. rewrite (Qmult_comm z x), (Qmult_comm z y).
  now apply Qmult_le_compat_r.
Qed.

(** *** The square root *)

Lemma fl_sqrt_nonneg q : (0 <= fl_sqrt q)%Q.
Proof.
  unfold fl_sqrt. destruct (q ?= 0)%Q; try lra.
  set (w := (q / pow2 (2 * sqrt_exp q))%Q). set (s := Z.sqrt (Qfloor w)).
  pose proof (Z.sqrt_nonneg (Qfloor w)) as Hs. fold s in Hs.
  pose proof (pow2_pos (sqrt_exp q)).
  apply Qmult_le_0_compat; [|lra].
  destruct (w ?= _)%Q; try destruct (Z.even s); unfold Qle; cbn; lia.
Qed.

(** The computed root is at most half a unit in the last place below
    the true one: [q <= (fl_sqrt q * (1 + 2^-53))^2]. *)
Lemma fl_sqrt_bound q :
  (0 < q)%Q ->
  (q <= (fl_sqrt q * (1 + pow2 (-53))) * (fl_sqrt q * (1 + pow2 (-53))))%Q.
Proof.
  intros Hq. unfold fl_sqrt. rewrite (proj1 (Qgt_alt _ _) Hq).
  set (e := sqrt_exp q). set (w := (q / pow2 (2 * e))%Q).
  set (s := Z.sqrt (Qfloor w)).
  pose proof (pow2_pos e) as Pe. pose proof (pow2_pos (2 * e)) as P2e.
  destruct (floor_log2_spec q Hq) as [L1 _].
  assert (He : 2 * e + 104 <= floor_log2 q).
  { unfold e, sqrt_exp. pose proof (Z.mul_div_le (floor_log2 q) 2 ltac:(lia)). lia. }
  assert (Hw : (inject_Z (2 ^ 104) <= w)%Q).
  { unfold w. apply Qle_shift_div_l; [lra|]. rewrite <- pow2_Z by lia.
    rewrite <- pow2_add. apply Qle_trans with (pow2 (floor_log2 q)); [|exact L1].
    apply pow2_le. lia. }
  assert (Hf : 2 ^ 104 <= Qfloor w) by now apply Zlt_floor_le.
  assert (Hs : 2 ^ 52 <= s).
  { unfold s. change (2 ^ 52) with (Z.sqrt (2 ^ 104)). now apply Z.sqrt_le_mono. }
  destruct (Z.sqrt_spec (Qfloor w) ltac:(lia)) as [_ Hs2]. fold s in Hs2.
  pose proof (Qfloor_bounds w) as [_ F2].
  assert (Hw2 : (w < (inject_Z s + 1) * (inject_Z s + 1))%Q).
  { apply Qlt_le_trans with (inject_Z (Qfloor w) + 1)%Q; [exact F2|].
    assert (Hz : Qfloor w + 1 <= Z.succ s * Z.succ s) by lia.
    rewrite Zle_Qle in Hz. rewrite inject_Z_plus, inject_Z_mult in Hz.
    unfold Z.succ in Hz. rewrite inject_Z_plus in Hz.
    change (inject_Z 1) with 1%Q in Hz. exact Hz. }
  set (m := match (w ?= (inject_Z s + (1 # 2)) * (inject_Z s + (1 # 2)))%Q with
            | Eq => if Z.even s then s else s + 1
            | Lt => s
            | Gt => s + 1
            end).
  assert (Qs : (pow2 52 <= inject_Z s)%Q).
  { rewrite pow2_Z by lia. rewrite <- Zle_Qle. exact Hs. }
  assert (P52 : (pow2 52 == inject_Z (2 ^ 52))%Q) by (apply pow2_Z; lia).
  assert (Hm : (inject_Z s <= inject_Z m)%Q /\
               (w <= (inject_Z m + (1 # 2)) * (inject_Z m + (1 # 2)))%Q).
  { assert (S0 : (0 <= inject_Z s)%Q) by (pose proof (pow2_pos 52); lra).
    unfold m.
    destruct (w ?= (inject_Z s + (1 # 2)) * (inject_Z s + (1 # 2)))%Q eqn:C.
    - apply (proj2 (Qeq_alt _ _)) in C. destruct (Z.even s).
      + split; [lra|]. apply Qle_lteq. right. exact C.
      + rewrite inject_Z_plus. change (inject_Z 1) with 1%Q. split; [lra|]. nra.
    - apply (proj2 (Qlt_alt _ _)) in C. split; lra.
    - rewrite inject_Z_plus. change (inject_Z 1) with 1%Q. split; [lra|]. nra. }
  destruct Hm as [Hsm Hwm]. clearbody m.
  assert (U : (pow2 (-53) * pow2 52 == 1 # 2)%Q).
  { rewrite <- pow2_add. reflexivity. }
  assert (Hm12 : (inject_Z m + (1 # 2) <= inject_Z m * (1 + pow2 (-53)))%Q).
  { pose proof (pow2_pos (-53)) as P53.
    assert ((pow2 (-53) * pow2 52 <= pow2 (-53) * inject_Z m)%Q).
    { apply Qmult_le_compat_left; lra. }
    lra. }
  assert (M0 : (0 <= inject_Z m + (1 # 2))%Q) by (pose proof (pow2_pos 52); lra).
  assert (Hsq : ((inject_Z m + (1 # 2)) * (inject_Z m + (1 # 2))
                 <= (inject_Z m * (1 + pow2 (-53))) * (inject_Z m * (1 + pow2 (-53))))%Q).
  { apply Qle_trans with ((inject_Z m + (1 # 2)) * (inject_Z m * (1 + pow2 (-53))))%Q.
    - apply Qmult_le_compat_left; lra.
    - apply Qmult_le_compat_r; lra. }
  assert (E2 : (pow2 (2 * e) == pow2 e * pow2 e)%Q).
  { rewrite <- pow2_add. now replace (e + e) with (2 * e) by lia. }
  assert (Eq' : (q == w * pow2 (2 * e))%Q) by (unfold w; field; lra).
  rewrite Eq' at 1.
  setoid_replace ((inject_Z m * pow2 e * (1 + pow2 (-53))) *
                  (inject_Z m * pow2 e * (1 + pow2 (-53))))%Q
    with (((inject_Z m * (1 + pow2 (-53))) * (inject_Z m * (1 + pow2 (-53))))
          * pow2 (2 * e))%Q by (rewrite E2; ring).
  apply Qmult_le_compat_r; lra.
Qed.

Lemma fl_int (z : Z) : - 2 ^ 53 < z < 2 ^ 53 -> (fl (inject_Z z) == inject_Z z)%Q.
Proof.
  intros Hz. pose proof (fl_dyadic z 0 Hz ltac:(lia)) as H.
  assert (E : (inject_Z z * pow2 0 == inject_Z z)%Q) by (change (pow2 0) with 1%Q; ring).
  rewrite <- E at 2. rewrite <- H. apply fl_wd. now rewrite E.
Qed.

Lemma fl_lower (q : Q) :
  (0 <= q)%Q -> (q * (1 - pow2 (-53)) <= fl q + pow2 (-1075))%Q.
Proof.
  intros Hq. pose proof (fl_error q) as H. rewrite (Qabs_pos q Hq) in H.
  apply Qabs_Qle_condition in H as [H _]. lra.
Qed.

(** ** Properties of the history *)

Lemma push_truncates url h step :
  -1 <= step -> step + 1 < Z.of_nat (length h) ->
  Z.of_nat (length h) <= history_cap ->
  push url h step = (firstn (Z.to_nat (step + 1)) h ++ [url], step + 1).
Proof.
  intros Hlo Hlt Hcap. unfold push.
  destruct (Z.ltb_spec (step + 1) (Z.of_nat (length h))); [|lia].
  rewrite length_app, length_firstn. cbn [length].
  destruct (Z.ltb_spec history_cap (Z.of_nat
             (Nat.min (Z.to_nat (step + 1)) (length h) + 1))); [|reflexivity].
  unfold history_cap in *. lia.
Qed.

Lemma push_appends url h step :
  step + 1 = Z.of_nat (length h) -> Z.of_nat (length h) < history_cap ->
  push url h step = (h ++ [url], step + 1).
Proof.
  intros Heq Hcap. unfold push.
  destruct (Z.ltb_spec (step + 1) (Z.of_nat (length h))); [lia|].
  rewrite length_app. cbn [length].
  destruct (Z.ltb_spec history_cap (Z.of_nat (length h + 1))); [|reflexivity].
  unfold history_cap in *. lia.
Qed.

Lemma push_evicts url h step :
  step + 1 = Z.of_nat (length h) -> Z.of_nat (length h) = history_cap ->
  push url h step = (tl (h ++ [url]), step + 1 - 1).
Proof.
  intros Heq Hcap. unfold push.
  destruct (Z.ltb_spec (step + 1) (Z.of_nat (length h))); [lia|].
  rewrite length_app. cbn [length].
  destruct (Z.ltb_spec history_cap (Z.of_nat (length h + 1))); [reflexivity|].
  unfold history_cap in *. lia.
Qed.

Lemma length_tl_Z {A} (l : list A) :
  l <> [] -> Z.of_nat (length (tl l)) = Z.of_nat (length l) - 1.
Proof. destruct l; [congruence|]. intros _. cbn [tl length]. lia. Qed.

Lemma push_ok url h step :
  Z.of_nat (length h) <= history_cap -> -1 <= step < Z.of_nat (length h) ->
  Z.of_nat (length (fst (push url h step))) <= history_cap /\
  snd (push url h step) = Z.of_nat (length (fst (push url h step))) - 1 /\
  0 <= snd (push url h step).
Proof.
  intros Hcap Hstep.
  destruct (Z.lt_ge_cases (step + 1) (Z.of_nat (length h))) as [Hlt|Hge].
  - rewrite push_truncates by lia. cbn [fst snd].
    rewrite length_app, length_firstn. cbn [length]. unfold history_cap in *. lia.
  - destruct (Z.eq_dec (Z.of_nat (length h)) history_cap) as [Hfull|Hroom].
    + rewrite push_evicts by lia. cbn [fst snd].
      rewrite length_tl_Z by (destruct h; discriminate).
      rewrite length_app. cbn [length]. unfold history_cap in *. lia.
    + rewrite push_appends by lia. cbn [fst snd].
      rewrite length_app. cbn [length]. unfold history_cap in *. lia.
Qed.

Lemma saveState_fields s :
  history (saveState s) = fst (push (toDataURL (ctx s)) (history s) (historyStep s)) /\
  historyStep (saveState s) = snd (push (toDataURL (ctx s)) (history s) (historyStep s)) /\
  ctx (saveState s) = ctx s /\ isDrawing (saveState s) = isDrawing s /\
  currentColor (saveState s) = currentColor s /\ brushSize (saveState s) = brushSize s /\
  brushType (saveState s) = brushType s /\ isEraser (saveState s) = isEraser s /\
  loading (saveState s) = loading s.
Proof.
  unfold saveState.
  destruct (push (toDataURL (ctx s)) (history s) (historyStep s)) as [h st].
  cbn. repeat split.
Qed.

Lemma saveState_ok s : hist_ok s -> hist_ok (saveState s).
Proof.
  intros [Hcap Hstep]. unfold hist_ok.
  destruct (saveState_fields s) as (Hh & Hs & _). rewrite Hh, Hs.
  destruct (push_ok (toDataURL (ctx s)) (history s) (historyStep s) Hcap Hstep)
    as (H1 & H2 & H3).
  lia.
Qed.

Lemma undoBtn_click_ok s : hist_ok s -> hist_ok (undoBtn_click s).
Proof.
  intros [Hcap Hstep]. unfold undoBtn_click, hist_ok.
  destruct (Z.ltb_spec 0 (historyStep s)); [|split; assumption].
  destruct (nth_error (history s) (Z.to_nat (historyStep s - 1))); cbn; lia.
Qed.

Lemma hist_ok_same s s' :
  history s' = history s -> historyStep s' = historyStep s ->
  hist_ok s -> hist_ok s'.
Proof. unfold hist_ok. intros -> ->. trivial. Qed.

(** Listeners that leave both history globals alone keep [hist_ok],
    by computation. *)
Ltac untouched H := exact (hist_ok_same _ _ eq_refl eq_refl H).

Lemma clearBtn_click_ok a s : hist_ok s -> hist_ok (clearBtn_click a s).
Proof.
  intros H. unfold clearBtn_click. destruct a; [|assumption].
  apply saveState_ok in H. untouched H.
Qed.

Lemma fillBtn_click_ok s : hist_ok s -> hist_ok (fillBtn_click s).
Proof. intros H. unfold fillBtn_click. apply saveState_ok in H. untouched H. Qed.

(** Whether or not [onload] runs, a finished load touches neither
    the history nor the tool settings. *)
Lemma image_loaded_fields n s :
  history (image_loaded n s) = history s /\
  historyStep (image_loaded n s) = historyStep s /\
  isDrawing (image_loaded n s) = isDrawing s /\
  currentColor (image_loaded n s) = currentColor s /\
  brushSize (image_loaded n s) = brushSize s /\
  brushType (image_loaded n s) = brushType s /\
  isEraser (image_loaded n s) = isEraser s.
Proof.
  unfold image_loaded.
  destruct (nth_error (loading s) n) as [img|]; [|repeat split].
  destruct (decodes img); repeat split.
Qed.

Lemma image_loaded_ok n s : hist_ok s -> hist_ok (image_loaded n s).
Proof.
  intros H. unfold image_loaded.
  destruct (nth_error (loading s) n) as [img|]; [|assumption].
  destruct (decodes img); untouched H.
Qed.

Lemma pointer_down_ok e x y s : hist_ok s -> hist_ok (pointer_down e x y s).
Proof.
  intros H. unfold pointer_down, stamp.
  assert (H1 : hist_ok (with_isDrawing true s)) by untouched H.
  apply saveState_ok in H1. untouched H1.
Qed.

Lemma pointer_move_ok e x y s : hist_ok s -> hist_ok (pointer_move e x y s).
Proof.
  intros H. unfold pointer_move, stamp.
  destruct (isDrawing s); [untouched H|assumption].
Qed.

Lemma keydown_ok c k a s : hist_ok s -> hist_ok (keydown c k a s).
Proof.
  intros H. unfold keydown.
  assert (H1 : hist_ok (if c then if String.eqb k "z" then undoBtn_click s
                                  else if String.eqb k "s" then saveBtn_click s else s
                        else s)).
  { destruct c; [|assumption].
    destruct (String.eqb k "z"); [now apply undoBtn_click_ok|].
    destruct (String.eqb k "s"); assumption. }
  revert H1. generalize (if c then if String.eqb k "z" then undoBtn_click s
                                   else if String.eqb k "s" then saveBtn_click s else s
                         else s).
  intros s1 H1.
  assert (H2 : hist_ok (if String.eqb k "e" then eraserBtn_click s1 else s1)).
  { destruct (String.eqb k "e"); [untouched H1|assumption]. }
  destruct (String.eqb k "c"); [now apply clearBtn_click_ok|assumption].
Qed.

Lemma handle_ok s ev : hist_ok s -> hist_ok (handle s ev).
Proof.
  intros H. destruct ev; cbn [handle].
  - untouched H.
  - untouched H.
  - untouched H.
  - untouched H.
  - now apply clearBtn_click_ok.
  - untouched H.
  - now apply fillBtn_click_ok.
  - assumption.
  - now apply undoBtn_click_ok.
  - now apply image_loaded_ok.
  - now apply pointer_down_ok.
  - now apply pointer_move_ok.
  - untouched H.
  - untouched H.
  - now apply pointer_down_ok.
  - now apply pointer_move_ok.
  - untouched H.
  - untouched H.
  - now apply keydown_ok.
Qed.

Lemma start_hist_ok w : hist_ok (start w).
Proof. unfold hist_ok, start, history_cap. cbn. lia. Qed.

Lemma reachable_hist_ok w s : reachable w s -> hist_ok s.
Proof.
  induction 1 as [|s ev _ IH].
  - apply saveState_ok, start_hist_ok.
  - now apply handle_ok.
Qed.

Lemma saves_append cs : forall s,
  historyStep s + 1 = Z.of_nat (length (history s)) ->
  Z.of_nat (length (history s)) + Z.of_nat (length cs) <= history_cap ->
  history (saves cs s) = history s ++ map toDataURL cs /\
  historyStep (saves cs s) = historyStep s + Z.of_nat (length cs).
Proof.
  induction cs as [|c cs IH]; intros s Hlast Hroom; cbn [saves map length].
  - rewrite app_nil_r. split; [reflexivity|lia].
  - cbn [length] in Hroom.
    destruct (saveState_fields (with_ctx c s)) as (Hh & Hs & _).
    cbn [with_ctx history historyStep ctx] in Hh, Hs.
    rewrite push_appends in Hh, Hs by lia. cbn [fst snd] in Hh, Hs.
    destruct (IH (saveState (with_ctx c s))) as [IHh IHs].
    + rewrite Hh, Hs, length_app. cbn [length]. lia.
    + rewrite Hh, length_app. cbn [length]. lia.
    + rewrite IHh, IHs, Hh, Hs, <- app_assoc. split; [reflexivity|lia].
Qed.

(** C1.  In a well-formed history whose cursor is not at the last
    entry, [saveState] keeps the entries up to and including the
    cursor, appends the snapshot of the current surface and leaves
    the cursor on that new, last entry; the old entries beyond the
    cursor are gone: position [cursor + 1] now holds the new snapshot
    and there is no later position. *)
Theorem saveState_drops_redo_branch (s : globals) :
  hist_ok s ->
  historyStep s + 1 < Z.of_nat (length (history s)) ->
  let url := toDataURL (ctx s) in
  let kept := Z.to_nat (historyStep s + 1) in
  history (saveState s) = firstn kept (history s) ++ [url] /\
  historyStep (saveState s) = historyStep s + 1 /\
  historyStep (saveState s) = Z.of_nat (length (history (saveState s))) - 1 /\
  nth_error (history (saveState s)) (Z.to_nat (historyStep (saveState s))) = Some url /\
  (forall k, (k < kept)%nat ->
             nth_error (history (saveState s)) k = nth_error (history s) k) /\
  (forall k, (kept < k)%nat -> nth_error (history (saveState s)) k = None).
Proof.
  intros [Hcap Hstep] Hnot_last url kept.
  destruct (saveState_fields s) as (Hh & Hs & _).
  rewrite push_truncates in Hh, Hs by lia. cbn [fst snd] in Hh, Hs.
  fold url kept in Hh. rewrite Hh, Hs.
  assert (Hlen : length (firstn kept (history s)) = kept).
  { rewrite length_firstn. subst kept. lia. }
  repeat split.
  - rewrite length_app, Hlen. cbn [length]. subst kept. lia.
  - fold kept. rewrite nth_error_app2 by lia.
    rewrite Hlen, Nat.sub_diag. reflexivity.
  - intros k Hk. rewrite nth_error_app1 by lia.
    rewrite nth_error_firstn.
    destruct (Nat.ltb_spec k kept); [reflexivity|lia].
  - intros k Hk. apply nth_error_None.
    rewrite length_app, Hlen. cbn [length]. lia.
Qed.

(** C2.  From a well-formed history every push leaves at most 50
    entries; every listener (pushes and undo among them) keeps the
    history well formed; and when the push would store a 51st entry
    the oldest one is shifted out and the cursor, incremented and
    decremented again, still indexes the entry just appended. *)
Theorem history_never_exceeds_cap (s : globals) :
  hist_ok s ->
  let url := toDataURL (ctx s) in
  Z.of_nat (length (history (saveState s))) <= history_cap /\
  hist_ok (saveState s) /\
  hist_ok (undoBtn_click s) /\
  (forall ev, hist_ok (handle s ev)) /\
  (historyStep s + 1 = history_cap ->
   history (saveState s) = tl (history s) ++ [url] /\
   Z.of_nat (length (history (saveState s))) = history_cap /\
   historyStep (saveState s) = historyStep s + 1 - 1 /\
   nth_error (history (saveState s)) (Z.to_nat (historyStep (saveState s))) = Some url).
Proof.
  intros H url.
  split; [apply (saveState_ok s H)|].
  split; [apply (saveState_ok s H)|].
  split; [apply (undoBtn_click_ok s H)|].
  split; [intros ev; apply (handle_ok s ev H)|].
  destruct H as [Hcap Hstep]. intros Hfull.
  destruct (saveState_fields s) as (Hh & Hs & _).
  rewrite push_evicts in Hh, Hs by lia. cbn [fst snd] in Hh, Hs.
  fold url in Hh.
  unfold history_cap in *.
  destruct (history s) as [|u0 h] eqn:E; [cbn [length] in *; lia|].
  cbn [app tl] in Hh. cbn [tl]. cbn [length] in Hstep, Hcap.
  rewrite Hh, Hs. repeat split.
  - rewrite length_app. cbn [length]. lia.
  - rewrite nth_error_app2 by lia.
    replace (Z.to_nat (historyStep s + 1 - 1) - length h)%nat with 0%nat by lia.
    reflexivity.
Qed.

(** C9.  Starting from the empty history with cursor [-1], [N] pushes
    in a row, [0 < N < 50], leave exactly [N] entries (the snapshots
    of the surfaces pushed, in order) and the cursor at [N - 1]. *)
Theorem pushes_below_cap (N : nat) (cs : list context2d) (s : globals) :
  history s = [] -> historyStep s = -1 ->
  length cs = N -> (0 < N < 50)%nat ->
  length (history (saves cs s)) = N /\
  historyStep (saves cs s) = Z.of_nat N - 1 /\
  history (saves cs s) = map toDataURL cs.
Proof.
  intros Hh Hs Hlen HN.
  destruct (saves_append cs s) as [Hh' Hs'].
  - rewrite Hh, Hs. reflexivity.
  - rewrite Hh. cbn [length]. unfold history_cap. lia.
  - rewrite Hh', Hs', Hh, Hs, Hlen. cbn [app].
    rewrite length_map. repeat split; lia.
Qed.

(** C10.  The colour picker listener stores the chosen colour and
    always switches eraser mode off, whatever the state was; nothing
    else changes. *)
Theorem color_input_leaves_eraser_mode (v : hex_color) (s : globals) :
  let s' := handle s (ColorInput v) in
  currentColor s' = v /\ isEraser s' = false /\
  ctx s' = ctx s /\ isDrawing s' = isDrawing s /\
  brushSize s' = brushSize s /\ brushType s' = brushType s /\
  history s' = history s /\ historyStep s' = historyStep s /\
  loading s' = loading s.
Proof. cbn. repeat split. Qed.

(** ** Properties of the surface *)

Lemma Qmin_cases a b :
  (a <= b /\ Qmin a b == a)%Q \/ (b <= a /\ Qmin a b == b)%Q.
Proof.
  destruct (Q.min_spec a b) as [[H E]|[H E]]; [left|right];
    (split; [lra|assumption]).
Qed.

Lemma Qmax_cases a b :
  (a <= b /\ Qmax a b == b)%Q \/ (b <= a /\ Qmax a b == a)%Q.
Proof.
  destruct (Q.max_spec a b) as [[H E]|[H E]]; [left|right];
    (split; [lra|assumption]).
Qed.

(** Case analysis on every min and max of [overlap a len i]. *)
Ltac overlap_cases a len q :=
  destruct (Qmin_cases a (a + len)) as [[? ?]|[? ?]];
  destruct (Qmax_cases a (a + len)) as [[? ?]|[? ?]];
  destruct (Qmin_cases (Qmax a (a + len)) (q + 1)) as [[? ?]|[? ?]];
  destruct (Qmax_cases (Qmin a (a + len)) q) as [[? ?]|[? ?]];
  destruct (Qmax_cases 0 (Qmin (Qmax a (a + len)) (q + 1)
                          - Qmax (Qmin a (a + len)) q)) as [[? ?]|[? ?]].

Lemma overlap_inside (n i : Z) :
  0 <= i < n -> (overlap 0 (inject_Z n) i == 1)%Q.
Proof.
  intros [H0 H1]. unfold overlap.
  assert (A : (0 <= inject_Z i)%Q) by (unfold Qle; cbn; lia).
  assert (B : (inject_Z i + 1 <= inject_Z n)%Q) by (unfold Qle; cbn; lia).
  generalize dependent (inject_Z i). generalize dependent (inject_Z n).
  intros w q A B. overlap_cases 0%Q w q; lra.
Qed.

Lemma whole_rect_covers (w h i j : Z) :
  0 <= i < w -> 0 <= j < h ->
  Q2Qc (rect_coverage 0 0 (inject_Z w) (inject_Z h) i j) = 1%Qc.
Proof.
  intros Hi Hj. apply Q2Qc_eq_iff. unfold rect_coverage.
  rewrite (overlap_inside w i Hi), (overlap_inside h j Hj). reflexivity.
Qed.

Lemma source_over_opaque (c : rgba) (dst : pixel) :
  alpha c = 1%Qc -> composite source_over (shade c 1%Qc) dst = solid c.
Proof.
  intros Ha. unfold composite, shade, solid. cbn [pr pg pb pa]. rewrite Ha.
  f_equal; ring.
Qed.

Lemma destination_out_opaque (c : rgba) (dst : pixel) :
  alpha c = 1%Qc -> composite destination_out (shade c 1%Qc) dst = transparent.
Proof.
  intros Ha. unfold composite, shade, transparent. cbn [pr pg pb pa]. rewrite Ha.
  f_equal; ring.
Qed.

Lemma erase_whole (dst : pixel) : erase 1%Qc dst = transparent.
Proof. unfold erase, transparent. f_equal; ring. Qed.

Lemma source_over_on_transparent (src : pixel) :
  composite source_over src transparent = src.
Proof.
  destruct src. unfold composite, transparent. cbn [pr pg pb pa]. f_equal; ring.
Qed.

Lemma destination_out_on_transparent (src : pixel) :
  composite destination_out src transparent = transparent.
Proof. unfold composite, transparent. cbn [pr pg pb pa]. f_equal; ring. Qed.

(** What [ctx.fillStyle = col; ctx.fillRect(0, 0, canvas.width,
    canvas.height)] leaves on the surface, by composite operation. *)
Lemma fill_whole_canvas (col : css_color) (c : context2d) (i j : Z) :
  alpha (parse_color col) = 1%Qc -> in_canvas c i j ->
  bitmap (run_calls [set_fillStyle col; whole_canvas c fillRect] c) i j =
  match globalCompositeOperation c with
  | source_over => solid (parse_color col)
  | destination_out => transparent
  end.
Proof.
  intros Ha [Hi Hj]. cbn.
  rewrite (whole_rect_covers _ _ _ _ Hi Hj).
  destruct (globalCompositeOperation c).
  - now apply source_over_opaque.
  - now apply destination_out_opaque.
Qed.

Lemma hex_opaque (v : hex_color) : alpha (parse_color (css_of_hex v)) = 1%Qc.
Proof. reflexivity. Qed.

(** What the body of [img.onload] leaves on the surface, for an
    image of the canvas's size. *)
Lemma img_onload_bitmap (img : snapshot) (c : context2d) (i j : Z) :
  sw img = width c -> sh img = height c -> in_canvas c i j ->
  bitmap (img_onload img c) i j =
  match globalCompositeOperation c with
  | source_over => spix img i j
  | destination_out => transparent
  end.
Proof.
  intros Hw Hh [Hi Hj]. unfold img_onload. cbn.
  rewrite (whole_rect_covers _ _ _ _ Hi Hj), erase_whole.
  destruct (globalCompositeOperation c).
  - rewrite source_over_on_transparent. unfold image_pixel, in_image.
    rewrite !Z.sub_0_r, Hw, Hh.
    destruct (Z.leb_spec 0 i); [|lia]. destruct (Z.ltb_spec i (width c)); [|lia].
    destruct (Z.leb_spec 0 j); [|lia]. destruct (Z.ltb_spec j (height c)); [|lia].
    reflexivity.
  - apply destination_out_on_transparent.
Qed.

Lemma exec_keeps k c c' :
  exec k c = Some c' ->
  width c' = width c /\ height c' = height c /\
  (sets_composite k = false ->
   globalCompositeOperation c' = globalCompositeOperation c).
Proof.
  destruct k; cbn [exec sets_composite];
    try (intros [= <-]; cbn; repeat split; congruence).
  destruct (Qle_bool 0 r); [|discriminate].
  intros [= <-]; cbn; repeat split.
Qed.

Lemma run_calls_keeps ks : forall c,
  width (run_calls ks c) = width c /\ height (run_calls ks c) = height c /\
  (forallb (fun k => negb (sets_composite k)) ks = true ->
   globalCompositeOperation (run_calls ks c) = globalCompositeOperation c).
Proof.
  induction ks as [|k ks IH]; intros c; cbn [run_calls forallb].
  - repeat split.
  - destruct (exec k c) as [c'|] eqn:E; [|repeat split].
    destruct (exec_keeps k c c' E) as (Hw & Hh & Hg).
    destruct (IH c') as (IHw & IHh & IHg).
    rewrite IHw, IHh, Hw, Hh. repeat split.
    intros Hall. apply andb_prop in Hall as [Hk Hks].
    rewrite (IHg Hks). apply Hg. now destruct (sets_composite k).
Qed.

Lemma brush_calls_keep_composite s e x y :
  forallb (fun k => negb (sets_composite k)) (brush_calls s e x y) = true.
Proof.
  unfold brush_calls.
  destruct (String.eqb (brushType s) "round"); [reflexivity|].
  destruct (String.eqb (brushType s) "square"); [reflexivity|].
  destruct (String.eqb (brushType s) "spray").
  { unfold drawSpray. apply forallb_forall. intros k Hk.
    apply in_map_iff in Hk as (o & <- & _). reflexivity. }
  destruct (String.eqb (brushType s) "rainbow"); reflexivity.
Qed.

(** After [draw] the composite operation is the one its first
    assignment chose, also when a later call threw. *)
Lemma draw_composite s e x y c :
  globalCompositeOperation (run_calls (draw s e x y) c) =
  if isEraser s then destination_out else source_over.
Proof.
  unfold draw. fold (brush_calls s e x y).
  destruct (isEraser s); cbn [app run_calls exec];
    match goal with
    | |- context [run_calls ?ks ?c0] =>
        destruct (run_calls_keeps ks c0) as (_ & _ & Hg)
    end;
    rewrite (Hg (brush_calls_keep_composite s e x y)); reflexivity.
Qed.

Lemma resizeCanvas_bitmap (w i j : Z) :
  0 <= i < w -> 0 <= j < 600 -> bitmap (resizeCanvas w) i j = solid black.
Proof.
  intros Hi Hj.
  exact (fill_whole_canvas (Hex 0 0 0)
           (mk_context2d w 600 (fun _ _ => transparent) (Hex 0 0 0) source_over [])
           i j eq_refl (conj Hi Hj)).
Qed.

Lemma transparent_not_solid (c : rgba) : transparent <> solid c.
Proof.
  intros H. apply (f_equal (fun p => Qnum (this (pa p)))) in H.
  vm_compute in H. discriminate.
Qed.

(** The undo listener does nothing at all while the cursor is at the
    first entry or below. *)
Lemma undoBtn_click_at_first s : historyStep s <= 0 -> undoBtn_click s = s.
Proof.
  intros H. unfold undoBtn_click.
  destruct (Z.ltb_spec 0 (historyStep s)); [lia|reflexivity].
Qed.

(** The snapshot of a canvas that has a cell is an image. *)
Lemma decodes_canvas (url : snapshot) (c : context2d) (i j : Z) :
  sw url = width c -> sh url = height c -> in_canvas c i j -> decodes url = true.
Proof.
  intros Hw Hh [Hi Hj]. unfold decodes. rewrite Hw, Hh.
  destruct (Z.ltb_spec 0 (width c)); [|lia].
  destruct (Z.ltb_spec 0 (height c)); [reflexivity|lia].
Qed.

(** Undo followed by the completion of its image load: the cursor
    moves back by one, the history is untouched, and each cell of the
    surface is composited from the entry under the operation that
    happens to be set on the context. *)
Lemma undo_then_onload s url i j :
  0 < historyStep s ->
  nth_error (history s) (Z.to_nat (historyStep s - 1)) = Some url ->
  loading s = [] ->
  sw url = width (ctx s) -> sh url = height (ctx s) ->
  in_canvas (ctx s) i j ->
  let s' := image_loaded 0 (undoBtn_click s) in
  historyStep s' = historyStep s - 1 /\
  history s' = history s /\
  bitmap (ctx s') i j =
  match globalCompositeOperation (ctx s) with
  | source_over => spix url i j
  | destination_out => transparent
  end.
Proof.
  intros Hpos Hurl Hload Hw Hh Hin. unfold undoBtn_click.
  destruct (Z.ltb_spec 0 (historyStep s)); [|lia].
  rewrite Hurl. unfold image_loaded.
  cbn [with_loading with_history loading]. rewrite Hload.
  cbn [app nth_error]. rewrite (decodes_canvas url (ctx s) i j Hw Hh Hin).
  cbn. repeat split. now apply img_onload_bitmap.
Qed.

(** The fill listener: a history entry is pushed first, and each
    cell of the surface is composited from the current colour under
    the operation that happens to be set on the context. *)
Lemma fillBtn_click_bitmap s i j :
  in_canvas (ctx s) i j ->
  history (fillBtn_click s) = history (saveState s) /\
  bitmap (ctx (fillBtn_click s)) i j =
  match globalCompositeOperation (ctx s) with
  | source_over => solid (parse_color (css_of_hex (currentColor s)))
  | destination_out => transparent
  end.
Proof.
  intros Hin. unfold fillBtn_click.
  destruct (saveState_fields s) as (_ & _ & Hc & _ & Hcol & _).
  split; [reflexivity|].
  cbn [with_ctx ctx]. rewrite Hc, Hcol.
  apply fill_whole_canvas; [apply hex_opaque|assumption].
Qed.

(** C3, evaluated after one eraser stamp.  Undo moves the cursor from
    1 to 0 and loads entry 0, which is opaque black in every cell;
    but the image is drawn while the context still has the eraser's
    ['destination-out'], so every cell of the surface ends up
    transparent instead of showing the entry. *)
Theorem undo_after_eraser_blanks_surface (i j : Z) :
  0 <= i < 800 -> 0 <= j < 600 ->
  historyStep erased_then_undone = 0 /\
  exists entry,
    nth_error (history erased_then_undone)
              (Z.to_nat (historyStep erased_then_undone)) = Some entry /\
    spix entry i j = solid black /\
    bitmap (ctx erased_then_undone) i j = transparent /\
    bitmap (ctx erased_then_undone) i j <> spix entry i j.
Proof.
  intros Hi Hj. unfold erased_then_undone. cbn [run fold_left handle].
  set (s := pointer_up (pointer_down still 10 10 (eraserBtn_click (init 800)))).
  assert (Hg : globalCompositeOperation (ctx s) = destination_out).
  { subst s. cbn -[resizeCanvas run_calls draw]. now rewrite draw_composite. }
  assert (Hdim : width (ctx s) = 800 /\ height (ctx s) = 600).
  { subst s. cbn -[resizeCanvas run_calls draw].
    match goal with
    | |- context [run_calls ?ks ?c0] =>
        destruct (run_calls_keeps ks c0) as (-> & -> & _)
    end.
    unfold resizeCanvas.
    match goal with
    | |- context [run_calls ?ks ?c0] =>
        destruct (run_calls_keeps ks c0) as (-> & -> & _)
    end.
    split; reflexivity. }
  destruct Hdim as [Hw Hh].
  destruct (undo_then_onload s (toDataURL (resizeCanvas 800)) i j)
    as (Hstep & Hhist & Hbit).
  - reflexivity.
  - reflexivity.
  - reflexivity.
  - rewrite Hw. unfold resizeCanvas. cbn [toDataURL sw].
    match goal with
    | |- context [run_calls ?ks ?c0] =>
        destruct (run_calls_keeps ks c0) as (-> & _)
    end.
    reflexivity.
  - rewrite Hh. unfold resizeCanvas. cbn [toDataURL sh].
    match goal with
    | |- context [run_calls ?ks ?c0] =>
        destruct (run_calls_keeps ks c0) as (_ & -> & _)
    end.
    reflexivity.
  - unfold in_canvas. rewrite Hw, Hh. split; assumption.
  - rewrite Hg in Hbit.
    split; [exact Hstep|].
    exists (toDataURL (resizeCanvas 800)).
    rewrite Hstep, Hbit. cbn [toDataURL spix].
    rewrite (resizeCanvas_bitmap 800 i j Hi Hj).
    repeat split. apply transparent_not_solid.
Qed.

(** C5, evaluated after one eraser stamp.  Eraser mode is off and the
    current colour is red, a history entry has been pushed, yet the
    fill runs under the ['destination-out'] the last stamp left on
    the context: every cell of the surface ends up transparent, not
    red. *)
Theorem fill_after_eraser_blanks_surface (i j : Z) :
  0 <= i < 800 -> 0 <= j < 600 ->
  isEraser erased_then_filled = false /\
  currentColor erased_then_filled = red_hex /\
  length (history erased_then_filled) = 3%nat /\
  bitmap (ctx erased_then_filled) i j = transparent /\
  bitmap (ctx erased_then_filled) i j
    <> solid (parse_color (css_of_hex (currentColor erased_then_filled))).
Proof.
  intros Hi Hj. unfold erased_then_filled. cbn [run fold_left handle].
  set (s := colorPicker_input red_hex
              (pointer_up (pointer_down still 10 10 (eraserBtn_click (init 800))))).
  assert (Hg : globalCompositeOperation (ctx s) = destination_out).
  { subst s. cbn -[resizeCanvas run_calls draw]. now rewrite draw_composite. }
  assert (Hin : in_canvas (ctx s) i j).
  { subst s. unfold in_canvas. cbn -[resizeCanvas run_calls draw].
    match goal with
    | |- context [run_calls ?ks ?c0] =>
        destruct (run_calls_keeps ks c0) as (-> & -> & _)
    end.
    split; assumption. }
  destruct (fillBtn_click_bitmap s i j Hin) as [Hhist Hbit].
  rewrite Hg in Hbit.
  rewrite Hbit, Hhist.
  repeat split. apply transparent_not_solid.
Qed.

(** ** Erasing *)

Lemma paint_modes_constant ks : forall c,
  forallb (fun k => negb (sets_composite k)) ks = true ->
  Forall (eq (globalCompositeOperation c)) (paint_modes ks c).
Proof.
  induction ks as [|k ks IH]; intros c Hall; cbn [paint_modes].
  - constructor.
  - cbn [forallb] in Hall. apply andb_prop in Hall as [Hk Hks].
    apply Forall_app. split.
    + destruct (paints k); repeat constructor.
    + destruct (exec k c) as [c'|] eqn:E; [|constructor].
      destruct (exec_keeps k c c' E) as (_ & _ & Hg).
      rewrite <- Hg by now destruct (sets_composite k).
      now apply IH.
Qed.

Lemma draw_erasing_modes s e x y c :
  isEraser s = true ->
  Forall (eq destination_out) (paint_modes (draw s e x y) c).
Proof.
  intros He. unfold draw. fold (brush_calls s e x y). rewrite He.
  cbn [app paint_modes paints exec].
  match goal with
  | |- Forall _ (paint_modes ?ks ?c0) =>
      exact (paint_modes_constant ks c0 (brush_calls_keep_composite s e x y))
  end.
Qed.

Lemma same_surface_refl c : same_surface c c.
Proof. repeat split. Qed.

Lemma same_surface_snapshot c1 c2 :
  same_surface c1 c2 -> toDataURL c1 = toDataURL c2.
Proof. intros (Hw & Hh & Hb & _). unfold toDataURL. now rewrite Hw, Hh, Hb. Qed.

(** Under ['destination-out'] the hue of the rainbow brush leaves no
    trace on the bitmap: only the alpha of the source, which is 1 for
    every hue, enters the result. *)
Lemma rainbow_erasing_same size t1 t2 x y c :
  globalCompositeOperation c = destination_out ->
  same_surface (run_calls (drawRainbow size t1 x y) c)
               (run_calls (drawRainbow size t2 x y) c).
Proof.
  intros Hg. destruct c as [w h bm fs op p]. cbn in Hg. subst op.
  unfold drawRainbow, drawRound.
  cbn [run_calls exec with_path with_bitmap
       width height bitmap fillStyle globalCompositeOperation path].
  destruct (Qle_bool 0 (half size)); [|repeat split].
  cbn [run_calls exec with_path with_bitmap
       width height bitmap fillStyle globalCompositeOperation path].
  repeat split.
Qed.

Lemma draw_erasing_same s1 s2 e1 e2 x y c1 c2 :
  isEraser s1 = true -> isEraser s2 = true ->
  brushSize s1 = brushSize s2 -> brushType s1 = brushType s2 ->
  random e1 = random e2 ->
  same_surface c1 c2 ->
  same_surface (run_calls (draw s1 e1 x y) c1) (run_calls (draw s2 e2 x y) c2).
Proof.
  intros He1 He2 Hsize Htype Hrnd (Hw & Hh & Hb & Hg & Hp).
  unfold draw. rewrite He1, He2, <- Hsize, <- Htype, <- Hrnd.
  cbn [app run_calls exec]. rewrite <- Hw, <- Hh, <- Hb, <- Hp.
  destruct (String.eqb (brushType s1) "round"); [apply same_surface_refl|].
  destruct (String.eqb (brushType s1) "square"); [apply same_surface_refl|].
  destruct (String.eqb (brushType s1) "spray"); [apply same_surface_refl|].
  destruct (String.eqb (brushType s1) "rainbow"); [|apply same_surface_refl].
  now apply rainbow_erasing_same.
Qed.

Lemma stamp_erasing_same s1 s2 e1 e2 x y :
  isEraser s1 = true -> same_but_color s1 s2 -> random e1 = random e2 ->
  same_but_color (stamp e1 x y s1) (stamp e2 x y s2).
Proof.
  intros He (Hc & Hd & Hsize & Htype & Her & Hh & Hs & Hl) Hrnd.
  unfold same_but_color, stamp. cbn.
  repeat split; try assumption.
  all: apply draw_erasing_same; congruence.
Qed.

Lemma saveState_same s1 s2 :
  same_but_color s1 s2 -> same_but_color (saveState s1) (saveState s2).
Proof.
  intros (Hc & Hd & Hsize & Htype & Her & Hh & Hs & Hl).
  destruct (saveState_fields s1) as (A1 & A2 & A3 & A4 & _ & A6 & A7 & A8 & A9).
  destruct (saveState_fields s2) as (B1 & B2 & B3 & B4 & _ & B6 & B7 & B8 & B9).
  unfold same_but_color.
  rewrite A1, A2, A3, A4, A6, A7, A8, A9, B1, B2, B3, B4, B6, B7, B8, B9.
  rewrite (same_surface_snapshot _ _ Hc), Hh, Hs.
  repeat split; assumption || apply Hc.
Qed.

Lemma gesture_erasing_same s1 s2 ev1 ev2 :
  isEraser s1 = true -> same_but_color s1 s2 -> same_gesture ev1 ev2 ->
  same_but_color (handle s1 ev1) (handle s2 ev2) /\
  isEraser (handle s1 ev1) = true.
Proof.
  intros He Hsame Hev.
  assert (Hdown : forall e1 e2 x y, random e1 = random e2 ->
            same_but_color (pointer_down e1 x y s1) (pointer_down e2 x y s2) /\
            isEraser (pointer_down e1 x y s1) = true).
  { intros e1 e2 x y Hrnd. unfold pointer_down.
    assert (H1 : same_but_color (saveState (with_isDrawing true s1))
                                (saveState (with_isDrawing true s2))).
    { apply saveState_same.
      destruct Hsame as (Hc & Hd & Hsize & Htype & Her & Hh & Hs & Hl).
      unfold same_but_color. cbn. repeat split; assumption || apply Hc. }
    assert (H2 : isEraser (saveState (with_isDrawing true s1)) = true).
    { destruct (saveState_fields (with_isDrawing true s1))
        as (_ & _ & _ & _ & _ & _ & _ & -> & _). exact He. }
    split; [now apply stamp_erasing_same|exact H2]. }
  assert (Hmove : forall e1 e2 x y, random e1 = random e2 ->
            same_but_color (pointer_move e1 x y s1) (pointer_move e2 x y s2) /\
            isEraser (pointer_move e1 x y s1) = true).
  { intros e1 e2 x y Hrnd. unfold pointer_move.
    destruct Hsame as (Hc & Hd & Hrest). rewrite <- Hd.
    destruct (isDrawing s1) eqn:E.
    - split; [|exact He]. apply stamp_erasing_same; trivial.
      unfold same_but_color. now rewrite E, <- Hd.
    - split; [|exact He]. unfold same_but_color. now rewrite E, <- Hd. }
  assert (Hup : same_but_color (pointer_up s1) (pointer_up s2) /\
                isEraser (pointer_up s1) = true).
  { destruct Hsame as (Hc & Hd & Hsize & Htype & Her & Hh & Hs & Hl).
    unfold same_but_color, pointer_up. cbn.
    repeat split; assumption || apply Hc. }
  destruct Hev; cbn [handle]; auto.
Qed.

(** Under ['destination-out'] an opaque source scales the pixel down
    by its coverage, as [clearRect] does; its colour does not enter. *)
Lemma destination_out_erases (c : rgba) (cov : Qc) (dst : pixel) :
  alpha c = 1%Qc -> composite destination_out (shade c cov) dst = erase cov dst.
Proof.
  intros Ha. unfold composite, shade, erase. cbn [pr pg pb pa]. rewrite Ha.
  f_equal; ring.
Qed.

(** The pixel after the rectangles of a spray stamp, erasing. *)
Definition sprayed_out (x y : Q) (os : list (Q * Q)) (i j : Z) (p : pixel) : pixel :=
  fold_left
    (fun p o => erase (Q2Qc (rect_coverage (fl (x + fst o)) (fl (y + snd o)) 1 1 i j)) p)
    os p.

Lemma erasing_rects (x y : Q) (os : list (Q * Q)) (i j : Z) : forall c,
  globalCompositeOperation c = destination_out ->
  alpha (parse_color (fillStyle c)) = 1%Qc ->
  bitmap (run_calls (map (fun o => fillRect (fl (x + fst o)) (fl (y + snd o)) 1 1) os) c)
         i j
  = sprayed_out x y os i j (bitmap c i j).
Proof.
  induction os as [|o os IH]; intros c Hg Ha; [reflexivity|].
  cbn [map run_calls exec]. unfold sprayed_out. cbn [fold_left].
  fold (sprayed_out x y os i j).
  rewrite IH by assumption.
  cbn [with_bitmap bitmap]. rewrite Hg, destination_out_erases by exact Ha.
  reflexivity.
Qed.

(** What an eraser stamp does to a cell, brush by brush: the pixel is
    scaled down by the coverage of the brush's shape, whatever the
    configured colour, the hue and the pixel's own colour. *)
Lemma stamp_erases s e x y i j :
  isEraser s = true ->
  let size := brushSize s in
  let p := bitmap (ctx s) i j in
  let p' := bitmap (ctx (stamp e x y s)) i j in
  (brushType s = "square"%string ->
   p' = erase (Q2Qc (rect_coverage (x - half size) (y - half size)
                                   (inject_Z size) (inject_Z size) i j)) p) /\
  ((brushType s = "round" \/ brushType s = "rainbow")%string -> 0 <= size ->
   p' = erase (path_coverage [mk_circle x y (half size)] i j) p) /\
  (brushType s = "spray"%string ->
   p' = sprayed_out x y (spray_accepted size (random e)) i j p).
Proof.
  intros He size p p'. subst size p p'. unfold stamp, draw. rewrite He.
  cbn [with_ctx ctx].
  assert (Hhalf : 0 <= brushSize s -> Qle_bool 0 (half (brushSize s)) = true).
  { intros H. apply Qle_bool_iff. unfold half, Qle. cbn. lia. }
  split; [|split].
  - intros ->. cbn [String.eqb Ascii.eqb Bool.eqb]. unfold drawSquare.
    cbn [app run_calls exec with_bitmap bitmap globalCompositeOperation fillStyle].
    now apply destination_out_erases.
  - intros [->| ->] Hs; cbn [String.eqb Ascii.eqb Bool.eqb];
      unfold drawRainbow, drawRound;
      cbn [app run_calls exec with_path path width height bitmap fillStyle
           globalCompositeOperation];
      rewrite (Hhalf Hs);
      cbn [app run_calls exec with_path with_bitmap path width height bitmap
           fillStyle globalCompositeOperation fill_coverage];
      now apply destination_out_erases.
  - intros ->. cbn [String.eqb Ascii.eqb Bool.eqb]. unfold drawSpray.
    cbn [app run_calls exec].
    rewrite erasing_rects by reflexivity. reflexivity.
Qed.

(** The painting calls of an eraser stamp are not an empty list for
    the brushes that draw one shape. *)
Lemma stamp_erasing_calls s e x y c :
  isEraser s = true ->
  (brushType s = "square"%string \/
   (brushType s = "round" \/ brushType s = "rainbow")%string /\ 0 <= brushSize s) ->
  paint_modes (draw s e x y) c = [destination_out].
Proof.
  intros He Hb. unfold draw. rewrite He.
  assert (Hhalf : 0 <= brushSize s -> Qle_bool 0 (half (brushSize s)) = true).
  { intros H. apply Qle_bool_iff. unfold half, Qle. cbn. lia. }
  destruct Hb as [->|[[->| ->] Hs]]; cbn [String.eqb Ascii.eqb Bool.eqb];
    unfold drawSquare, drawRainbow, drawRound;
    cbn [app paint_modes paints exec with_path path globalCompositeOperation];
    rewrite ?(Hhalf Hs); reflexivity.
Qed.

(** C7.  While eraser mode is on, every painting call of every stamp,
    whatever the brush, executes under ['destination-out'], and the
    stamp leaves the context on that operation.  The square, round
    and rainbow brushes with a size that is not negative issue exactly
    one painting call, and each brush erases: a stamp scales every
    pixel down by the coverage of the brush's shape (the square, the
    circle, the accepted rectangles of the spray in turn), with no
    trace of the configured colour or of the hue.  Two runs of
    pointer events from states that differ only in the configured
    colour (and in the fill style left over on the context), with
    clocks that may differ, end with the same surface: same
    dimensions and the same bitmap. *)
Theorem eraser_ignores_color (s1 s2 : globals) (evs1 evs2 : list event) :
  isEraser s1 = true ->
  same_but_color s1 s2 ->
  Forall2 same_gesture evs1 evs2 ->
  (forall s e x y c, isEraser s = true ->
     Forall (eq destination_out) (paint_modes (draw s e x y) c)) /\
  (forall s e x y, isEraser s = true ->
     globalCompositeOperation (ctx (stamp e x y s)) = destination_out) /\
  (forall s e x y c, isEraser s = true ->
     (brushType s = "square"%string \/
      (brushType s = "round" \/ brushType s = "rainbow")%string /\ 0 <= brushSize s) ->
     paint_modes (draw s e x y) c = [destination_out]) /\
  (forall s e x y i j, isEraser s = true ->
     let size := brushSize s in
     let p := bitmap (ctx s) i j in
     let p' := bitmap (ctx (stamp e x y s)) i j in
     (brushType s = "square"%string ->
      p' = erase (Q2Qc (rect_coverage (x - half size) (y - half size)
                                      (inject_Z size) (inject_Z size) i j)) p) /\
     ((brushType s = "round" \/ brushType s = "rainbow")%string -> 0 <= size ->
      p' = erase (path_coverage [mk_circle x y (half size)] i j) p) /\
     (brushType s = "spray"%string ->
      p' = sprayed_out x y (spray_accepted size (random e)) i j p)) /\
  isEraser (run evs1 s1) = true /\
  width (ctx (run evs1 s1)) = width (ctx (run evs2 s2)) /\
  height (ctx (run evs1 s1)) = height (ctx (run evs2 s2)) /\
  bitmap (ctx (run evs1 s1)) = bitmap (ctx (run evs2 s2)).
Proof.
  intros He Hsame Hevs.
  split; [intros; now apply draw_erasing_modes|].
  split.
  { intros s e x y Hs. unfold stamp. cbn [with_ctx ctx].
    now rewrite draw_composite, Hs. }
  split; [intros; now apply stamp_erasing_calls|].
  split; [intros s e x y i j Hs; now apply stamp_erases|].
  assert (H : same_but_color (run evs1 s1) (run evs2 s2) /\
              isEraser (run evs1 s1) = true).
  { revert s1 s2 He Hsame.
    induction Hevs as [|ev1 ev2 evs1 evs2 Hev _ IH]; intros s1 s2 He Hsame.
    - split; assumption.
    - cbn [run fold_left].
      destruct (gesture_erasing_same s1 s2 ev1 ev2 He Hsame Hev) as [H1 H2].
      exact (IH _ _ H2 H1). }
  destruct H as [((Hw & Hh & Hb & _) & _) He'].
  repeat split; assumption.
Qed.

(** ** The spray brush *)

Lemma fl_half (size : Z) :
  - 2 ^ 53 < size < 2 ^ 53 -> (fl (half size) == half size)%Q.
Proof.
  intros Hz. pose proof (fl_dyadic size (-1) Hz ltac:(lia)) as H.
  assert (E : (half size == inject_Z size * pow2 (-1))%Q) by reflexivity.
  rewrite E at 2. rewrite <- H. now apply fl_wd.
Qed.

(** Rounding keeps the offsets inside the square: its bounds
    [-S / 2] and [S / 2] are doubles and rounding is monotone. *)
Lemma spray_offset_range (size : Z) (r : Q) :
  0 < size <= 2 ^ 52 -> (0 <= r < 1)%Q ->
  (- half size <= spray_offset size r <= half size)%Q.
Proof.
  intros Hs [H0 H1]. unfold spray_offset.
  assert (Hq : (0 < inject_Z size)%Q) by (unfold Qlt; cbn; lia).
  assert (P : (fl (1 # 2) == 1 # 2)%Q) by reflexivity.
  assert (N : (fl (- (1 # 2)) == - (1 # 2))%Q) by reflexivity.
  assert (A : (- (1 # 2) <= fl (r - 1 / 2) <= 1 # 2)%Q).
  { change (1 / 2)%Q with (1 # 2)%Q.
    pose proof (fl_mono (- (1 # 2)) (r - (1 # 2)) ltac:(lra)).
    pose proof (fl_mono (r - (1 # 2)) (1 # 2) ltac:(lra)).
    split; lra. }
  assert (Hh : (half size == inject_Z size * (1 # 2))%Q) by reflexivity.
  assert (Hfh : (fl (half size) == half size)%Q) by (apply fl_half; lia).
  assert (Hfn : (fl (- half size) == - half size)%Q).
  { pose proof (fl_dyadic (- size) (-1) ltac:(lia) ltac:(lia)) as H.
    assert (E : (- half size == inject_Z (- size) * pow2 (-1))%Q).
    { rewrite inject_Z_opp. rewrite Hh. change (pow2 (-1)) with (1 # 2)%Q. ring. }
    rewrite E at 2. rewrite <- H. now apply fl_wd. }
  generalize dependent (fl (r - 1 / 2)). intros a A.
  assert (B1 : (0 <= (a + (1 # 2)) * inject_Z size)%Q) by (apply Qmult_le_0_compat; lra).
  assert (B2 : (0 <= ((1 # 2) - a) * inject_Z size)%Q) by (apply Qmult_le_0_compat; lra).
  assert (C1 : (- half size <= a * inject_Z size)%Q) by (rewrite Hh; lra).
  assert (C2 : (a * inject_Z size <= half size)%Q) by (rewrite Hh; lra).
  apply fl_mono in C1, C2. split; lra.
Qed.

(** A pair of offsets that passes the rounded test is within the
    radius up to a relative error of [2^-50] on the squares: each of
    the three roundings under the root and the root itself is off by
    at most [2^-53] of its value. *)
Lemma within_radius_bound (size : Z) (ox oy : Q) :
  0 < size < 2 ^ 53 ->
  within_radius size ox oy = true ->
  (ox * ox + oy * oy <= half size * half size * (1 + pow2 (-50)))%Q.
Proof.
  intros Hs Hacc. unfold within_radius, spray_distance in Hacc.
  apply Qle_bool_iff in Hacc. rewrite (fl_half size) in Hacc by lia.
  assert (Ha : (0 <= ox * ox)%Q) by nra.
  assert (Hb : (0 <= oy * oy)%Q) by nra.
  set (a := (ox * ox)%Q) in *. set (b := (oy * oy)%Q) in *.
  pose proof (proj1 (fl_sign a) Ha) as HA. pose proof (proj1 (fl_sign b) Hb) as HB.
  pose proof (fl_lower a Ha) as La. pose proof (fl_lower b Hb) as Lb.
  set (A := fl a) in *. set (B := fl b) in *.
  assert (HAB : (0 <= A + B)%Q) by lra.
  pose proof (proj1 (fl_sign (A + B)) HAB) as HS.
  pose proof (fl_lower (A + B) HAB) as Ls.
  set (S := fl (A + B)) in *.
  assert (Hh : (1 # 2 <= half size)%Q).
  { unfold half. assert ((1 <= inject_Z size)%Q) by (unfold Qle; cbn; lia).
    assert (E : (inject_Z size / 2 == inject_Z size * (1 # 2))%Q) by reflexivity.
    rewrite E. lra. }
  set (h := half size) in *.
  assert (U : (pow2 (-53) == 1 # 9007199254740992)%Q) by reflexivity.
  assert (U50 : (pow2 (-50) == 1 # 1125899906842624)%Q) by reflexivity.
  assert (HSh : (S <= (h * (1 + pow2 (-53))) * (h * (1 + pow2 (-53))))%Q).
  { destruct (Qlt_le_dec 0 S) as [Sp|Sn].
    - pose proof (fl_sqrt_bound S Sp) as Hb'. pose proof (fl_sqrt_nonneg S) as Hn.
      set (d := fl_sqrt S) in *.
      apply Qle_trans with (1 := Hb').
      assert (D1 : (d * (1 + pow2 (-53)) <= h * (1 + pow2 (-53)))%Q).
      { apply Qmult_le_compat_r; [exact Hacc|]. rewrite U. lra. }
      assert (D0 : (0 <= d * (1 + pow2 (-53)))%Q).
      { apply Qmult_le_0_compat; [exact Hn|]. rewrite U. lra. }
      apply Qle_trans with (d * (1 + pow2 (-53)) * (h * (1 + pow2 (-53))))%Q.
      + apply Qmult_le_compat_left; assumption.
      + apply Qmult_le_compat_r; [exact D1|]. lra.
    - assert ((0 <= h * (1 + pow2 (-53)))%Q) by (rewrite U; lra).
      assert ((0 <= (h * (1 + pow2 (-53))) * (h * (1 + pow2 (-53))))%Q)
        by (apply Qmult_le_0_compat; assumption).
      lra. }
  assert (Hhh : ((1 # 4) <= h * h)%Q) by nra.
  assert (E1 : ((h * (1 + pow2 (-53))) * (h * (1 + pow2 (-53)))
                == h * h * ((1 + pow2 (-53)) * (1 + pow2 (-53))))%Q) by ring.
  rewrite E1 in HSh.
  assert (Eta : (pow2 (-1075) <= pow2 (-100))%Q) by (apply pow2_le; lia).
  assert (U100 : (pow2 (-100) == 1 # 1267650600228229401496703205376)%Q) by reflexivity.
  pose proof (pow2_pos (-1075)) as P.
  generalize dependent (pow2 (-1075)). intros eta La Lb Ls Eta P.
  generalize dependent (h * h)%Q. intros H2 HSh Hhh.
  rewrite U in *. rewrite U50. rewrite U100 in Eta.
  clearbody a b A B S. clear - La Lb Ls Eta P HSh Hhh.
  lra.
Qed.

Lemma overlap_nonneg a len i : (0 <= overlap a len i)%Q.
Proof.
  unfold overlap. generalize (inject_Z i). intros q.
  overlap_cases a len q; lra.
Qed.

Lemma overlap_unit_near (a : Q) (i : Z) :
  (0 < overlap a 1 i)%Q -> (a - 1 < inject_Z i < a + 1)%Q.
Proof.
  unfold overlap. generalize (inject_Z i). intros q.
  overlap_cases a 1%Q q; lra.
Qed.

Lemma rect_coverage_pos x y w h i j :
  (0 < rect_coverage x y w h i j)%Q ->
  (0 < overlap x w i)%Q /\ (0 < overlap y h j)%Q.
Proof.
  unfold rect_coverage.
  pose proof (overlap_nonneg x w i). pose proof (overlap_nonneg y h j).
  generalize dependent (overlap x w i). generalize dependent (overlap y h j).
  intros a Ha b Hb Hab. split; nra.
Qed.

Lemma in_spray_samples size rnd o :
  In o (spray_samples size rnd) ->
  exists i, o = (spray_offset size (rnd (2 * i)%nat),
                 spray_offset size (rnd (2 * i + 1)%nat)).
Proof.
  unfold spray_samples. intros H. apply in_map_iff in H as (i & <- & _).
  now exists i.
Qed.

Lemma in_drawSpray size rnd x y k :
  In k (drawSpray size rnd x y) <->
  exists o, In o (spray_samples size rnd) /\
            within_radius size (fst o) (snd o) = true /\
            k = fillRect (fl (x + fst o)) (fl (y + snd o)) 1 1.
Proof.
  unfold drawSpray, spray_accepted. rewrite in_map_iff. split.
  - intros (o & <- & Ho). apply filter_In in Ho as [Hin Hacc]. now exists o.
  - intros (o & Hin & Hacc & ->). exists o. split; [reflexivity|].
    apply filter_In. now split.
Qed.

(** C6, as the code has it.  With a size [S] from 1 to [2^52] and
    random numbers in [[0, 1)], one spray stamp draws exactly [2 * S]
    candidate offsets, each inside the square of side [S] around the
    centre.  It paints exactly the candidates that pass the test
    [Math.sqrt(ox * ox + oy * oy) <= S / 2] as it is evaluated in
    doubles, each as the 1 x 1 rectangle whose top-left corner is the
    rounded sub-point.  Passing the test bounds the squared distance
    by [(S / 2)^2] only up to a relative error of [2^-50], not by
    [(S / 2)^2] itself.  Every point of a cell the stamp touches lies,
    on each axis, above [x - S / 2] (rounded) minus 1 and below
    [x + S / 2] (rounded) plus 2. *)
Theorem spray_stamp_geometry (size : Z) (rnd : nat -> Q) (x y : Q) :
  0 < size <= 2 ^ 52 -> (forall n, (0 <= rnd n < 1)%Q) ->
  Z.of_nat (length (spray_samples size rnd)) = 2 * size /\
  (forall o, In o (spray_samples size rnd) ->
     (- half size <= fst o <= half size)%Q /\
     (- half size <= snd o <= half size)%Q) /\
  (forall k, In k (drawSpray size rnd x y) <->
     exists o, In o (spray_samples size rnd) /\
               within_radius size (fst o) (snd o) = true /\
               k = fillRect (fl (x + fst o)) (fl (y + snd o)) 1 1) /\
  (forall o, In o (spray_accepted size rnd) ->
     (fst o * fst o + snd o * snd o
      <= half size * half size * (1 + pow2 (-50)))%Q) /\
  (forall i j, touched (drawSpray size rnd x y) i j ->
     forall px py : Q,
       (inject_Z i <= px <= inject_Z i + 1)%Q ->
       (inject_Z j <= py <= inject_Z j + 1)%Q ->
       (fl (x - half size) - 1 < px < fl (x + half size) + 2)%Q /\
       (fl (y - half size) - 1 < py < fl (y + half size) + 2)%Q).
Proof.
  intros Hs Hrnd.
  assert (Hsq : forall o, In o (spray_samples size rnd) ->
            (- half size <= fst o <= half size)%Q /\
            (- half size <= snd o <= half size)%Q).
  { intros o Ho. apply in_spray_samples in Ho as (i & ->). cbn [fst snd].
    split; apply spray_offset_range; trivial. }
  split; [|split; [exact Hsq|split; [|split]]].
  - unfold spray_samples, spray_density. rewrite length_map, length_seq. lia.
  - intros k. apply in_drawSpray.
  - intros o Ho. unfold spray_accepted in Ho.
    apply filter_In in Ho as [_ Hacc]. apply within_radius_bound; [lia|exact Hacc].
  - intros i j (x0 & y0 & w & h & Hin & Hcov) px py Hpx Hpy.
    apply in_drawSpray in Hin as (o & Ho & _ & [= -> -> -> ->]).
    apply rect_coverage_pos in Hcov as [Hx Hy].
    apply overlap_unit_near in Hx, Hy.
    destruct (Hsq o Ho) as [Hox Hoy].
    pose proof (fl_mono (x - half size) (x + fst o) ltac:(lra)).
    pose proof (fl_mono (x + fst o) (x + half size) ltac:(lra)).
    pose proof (fl_mono (y - half size) (y + snd o) ltac:(lra)).
    pose proof (fl_mono (y + snd o) (y + half size) ltac:(lra)).
    split; lra.
Qed.

(** ** Brush size *)

(** C8, as the code has it.  The slider listener stores the parsed
    value as it is, with no rejection and no clamping.  A zero or
    negative size therefore reaches the spray brush, where the
    density [2 * size] is not positive, the loop body never runs and
    the stamp paints nothing. *)
Theorem brush_size_stored_unchecked
        (v : Z) (s : globals) (e : env) (x y : Q) :
  let s' := handle s (BrushSizeInput v) in
  brushSize s' = v /\
  (v <= 0 ->
   spray_density (brushSize s') <= 0 /\
   spray_samples (brushSize s') (random e) = [] /\
   drawSpray (brushSize s') (random e) x y = [] /\
   (brushType s = "spray"%string ->
    bitmap (ctx (stamp e x y s')) = bitmap (ctx s))).
Proof.
  cbn [handle]. split; [reflexivity|]. intros Hv.
  assert (Hnone : spray_samples v (random e) = []).
  { unfold spray_samples, spray_density.
    replace (Z.to_nat (v * 2)) with 0%nat by lia. reflexivity. }
  assert (Hcalls : drawSpray v (random e) x y = []).
  { unfold drawSpray, spray_accepted. now rewrite Hnone. }
  cbn [brushSizeSlider_input brushSize].
  split; [unfold spray_density; lia|].
  split; [exact Hnone|]. split; [exact Hcalls|].
  intros Htype. unfold stamp, draw.
  cbn [with_ctx ctx brushSizeSlider_input brushSize brushType isEraser
       currentColor].
  rewrite Htype. cbn [String.eqb Ascii.eqb Bool.eqb]. rewrite Hcalls.
  destruct (isEraser s); reflexivity.
Qed.

(** ** The stroke, undo, stroke scenario *)

Lemma pointer_move_history e x y s :
  history (pointer_move e x y s) = history s /\
  historyStep (pointer_move e x y s) = historyStep s /\
  loading (pointer_move e x y s) = loading s.
Proof. unfold pointer_move. destruct (isDrawing s); repeat split. Qed.

Lemma moves_history moves : forall s,
  let s' := run (map (fun m => MouseMove (fst (fst m)) (snd (fst m)) (snd m))
                     moves) s in
  history s' = history s /\ historyStep s' = historyStep s /\
  loading s' = loading s.
Proof.
  induction moves as [|m moves IH]; intros s; cbn [map run fold_left handle].
  - repeat split.
  - destruct (IH (pointer_move (fst (fst m)) (snd (fst m)) (snd m) s))
      as (H1 & H2 & H3).
    destruct (pointer_move_history (fst (fst m)) (snd (fst m)) (snd m) s)
      as (M1 & M2 & M3).
    unfold run in H1, H2, H3. rewrite H1, H2, H3, M1, M2, M3. repeat split.
Qed.

Lemma stroke_history e x y moves s :
  let s' := run (stroke e x y moves) s in
  history s' = history (saveState s) /\
  historyStep s' = historyStep (saveState s) /\
  loading s' = loading s.
Proof.
  unfold stroke, run. cbn [fold_left handle]. rewrite fold_left_app.
  cbn [fold_left handle pointer_up with_isDrawing history historyStep loading].
  destruct (moves_history moves (pointer_down e x y s)) as (H1 & H2 & H3).
  unfold run in H1, H2, H3. rewrite H1, H2, H3.
  unfold pointer_down, stamp. cbn [with_ctx history historyStep loading].
  destruct (saveState_fields (with_isDrawing true s))
    as (A1 & A2 & _ & _ & _ & _ & _ & _ & A9).
  destruct (saveState_fields s) as (B1 & B2 & _).
  rewrite A1, A2, A9, B1, B2. repeat split.
Qed.

(** C4, as the code has it.  From the initial entry, stroke A pushes
    the snapshot taken when it began (the surface still equal to the
    initial one), giving [[initial; A-start]] with the cursor at 1;
    undo moves the cursor to 0; the push of stroke B then truncates
    after the cursor, which drops A-start, and appends: the history
    is the two entries [[initial; B-start]].  This holds whether or
    not the undo's image has finished loading before stroke B. *)
Theorem stroke_undo_stroke_history
        (w : Z) (eA : env) (xA yA : Q) (movesA : list (env * Q * Q))
        (loaded : bool) (eB : env) (xB yB : Q) :
  let initial := toDataURL (ctx (init w)) in
  let sA := run (stroke eA xA yA movesA) (init w) in
  let sU := run (UndoClick :: if loaded then [ImageLoaded 0] else []) sA in
  let sB := handle sU (MouseDown eB xB yB) in
  history (init w) = [initial] /\ historyStep (init w) = 0 /\
  history sA = [initial; initial] /\ historyStep sA = 1 /\
  history sU = [initial; initial] /\ historyStep sU = 0 /\
  history sB = [initial; toDataURL (ctx sU)] /\ historyStep sB = 1.
Proof.
  intros initial sA sU sB.
  assert (H0 : history (init w) = [initial] /\ historyStep (init w) = 0)
    by (split; reflexivity).
  destruct H0 as [H0h H0s].
  assert (HA : history sA = [initial; initial] /\ historyStep sA = 1
               /\ loading sA = []).
  { destruct (stroke_history eA xA yA movesA (init w)) as (H1 & H2 & H3).
    fold sA in H1, H2, H3. rewrite H1, H2, H3.
    destruct (saveState_fields (init w)) as (B1 & B2 & _).
    rewrite B1, B2, H0h, H0s. repeat split. }
  destruct HA as (HAh & HAs & HAl).
  assert (HU : history sU = [initial; initial] /\ historyStep sU = 0).
  { subst sU. cbn [run fold_left handle]. unfold undoBtn_click.
    rewrite HAs, HAh. cbn [Z.ltb Z.compare Z.sub Z.add Z.opp Z.pos_sub
                            Z.to_nat nth_error].
    destruct loaded; cbn [fold_left handle].
    - match goal with
      | |- context [image_loaded 0 ?S] =>
          destruct (image_loaded_fields 0 S) as (E1 & E2 & _); rewrite E1, E2
      end.
      cbn. split; reflexivity.
    - cbn. split; reflexivity. }
  destruct HU as [HUh HUs].
  repeat split; try assumption.
  - subst sB. cbn [handle]. unfold pointer_down, stamp. cbn [with_ctx history].
    destruct (saveState_fields (with_isDrawing true sU)) as (A1 & _).
    rewrite A1. cbn [with_isDrawing history historyStep ctx].
    rewrite HUh, HUs. reflexivity.
  - subst sB. cbn [handle]. unfold pointer_down, stamp. cbn [with_ctx historyStep].
    destruct (saveState_fields (with_isDrawing true sU)) as (_ & A2 & _).
    rewrite A2. cbn [with_isDrawing history historyStep ctx].
    rewrite HUh, HUs. reflexivity.
Qed.

(** ** Further properties of the history *)

(** How one listener run may move the two history globals: not at
    all, by one [saveState] of the surface it found, or by one step of
    undo. *)
Definition history_move (s s' : globals) : Prop :=
  (history s' = history s /\ historyStep s' = historyStep s) \/
  (history s' = fst (push (toDataURL (ctx s)) (history s) (historyStep s)) /\
   historyStep s' = snd (push (toDataURL (ctx s)) (history s) (historyStep s))) \/
  (history s' = history s /\ 0 < historyStep s /\
   historyStep s' = historyStep s - 1).

Lemma push_shape url h step :
  Z.of_nat (length h) <= history_cap -> -1 <= step < Z.of_nat (length h) ->
  exists pre,
    fst (push url h step) = pre ++ [url] /\
    snd (push url h step) = Z.of_nat (length pre) /\
    (snd (push url h step) = step + 1 \/ snd (push url h step) = step).
Proof.
  intros Hcap Hstep.
  destruct (Z.lt_ge_cases (step + 1) (Z.of_nat (length h))) as [Hlt|Hge].
  - rewrite push_truncates by lia. cbn [fst snd].
    exists (firstn (Z.to_nat (step + 1)) h). rewrite length_firstn.
    split; [reflexivity|]. split; lia.
  - destruct (Z.eq_dec (Z.of_nat (length h)) history_cap) as [Hfull|Hroom].
    + rewrite push_evicts by lia. cbn [fst snd].
      destruct h as [|u0 h]; [unfold history_cap in *; cbn [length] in *; lia|].
      exists h. cbn [app tl length] in *. split; [reflexivity|]. split; lia.
    + rewrite push_appends by lia. cbn [fst snd].
      exists h. split; [reflexivity|]. split; lia.
Qed.

Lemma saveState_move s : history_move s (saveState s).
Proof.
  right; left. destruct (saveState_fields s) as (H1 & H2 & _). now split.
Qed.

Lemma undoBtn_click_move s : history_move s (undoBtn_click s).
Proof.
  unfold undoBtn_click.
  destruct (Z.ltb_spec 0 (historyStep s)); [|left; now split].
  right; right.
  destruct (nth_error (history s) (Z.to_nat (historyStep s - 1))); cbn;
    repeat split; assumption.
Qed.

Lemma clearBtn_click_move a s : history_move s (clearBtn_click a s).
Proof.
  unfold clearBtn_click. destruct a; [|left; now split].
  exact (saveState_move s).
Qed.

Lemma keydown_move c k a s : history_move s (keydown c k a s).
Proof.
  unfold keydown.
  destruct (String.eqb_spec k "c") as [->|Hc].
  - cbn [String.eqb Ascii.eqb Bool.eqb]. destruct c; apply clearBtn_click_move.
  - destruct (String.eqb_spec k "e") as [->|He].
    + destruct c; cbn [String.eqb Ascii.eqb Bool.eqb]; left; now split.
    + destruct c; [|left; now split].
      destruct (String.eqb_spec k "z"); [apply undoBtn_click_move|].
      destruct (String.eqb_spec k "s"); left; now split.
Qed.

Lemma handle_move s ev : history_move s (handle s ev).
Proof.
  destruct ev; cbn [handle];
    try (left; split; reflexivity).
  - apply clearBtn_click_move.
  - exact (saveState_move s).
  - apply undoBtn_click_move.
  - left. destruct (image_loaded_fields n s) as (E1 & E2 & _). now split.
  - exact (saveState_move (with_isDrawing true s)).
  - left. unfold pointer_move. destruct (isDrawing s); now split.
  - exact (saveState_move (with_isDrawing true s)).
  - left. unfold pointer_move. destruct (isDrawing s); now split.
  - apply keydown_move.
Qed.

(** X1.  From any well-formed history, [saveState] leaves the history
    non-empty and within the cap, with the cursor on the last entry,
    and that entry is the snapshot of the surface as it was found;
    nothing but the two history globals changes. *)
Theorem saveState_cursor_on_snapshot (s : globals) :
  hist_ok s ->
  let s' := saveState s in
  nth_error (history s') (Z.to_nat (historyStep s')) = Some (toDataURL (ctx s)) /\
  historyStep s' = Z.of_nat (length (history s')) - 1 /\
  1 <= Z.of_nat (length (history s')) <= history_cap /\
  ctx s' = ctx s /\ loading s' = loading s /\
  isDrawing s' = isDrawing s /\ isEraser s' = isEraser s.
Proof.
  intros [Hcap Hstep] s'.
  destruct (saveState_fields s) as (Hh & Hs & Hc & Hd & _ & _ & _ & He & Hl).
  destruct (push_shape (toDataURL (ctx s)) (history s) (historyStep s) Hcap Hstep)
    as (pre & Hpre & Hcur & _).
  destruct (push_ok (toDataURL (ctx s)) (history s) (historyStep s) Hcap Hstep)
    as (Hle & _ & _).
  subst s'. rewrite Hh, Hs, Hcur. rewrite Hpre in *.
  rewrite length_app in *. cbn [length] in *.
  repeat split; try assumption; try lia.
  rewrite Nat2Z.id, nth_error_app2, Nat.sub_diag by lia. reflexivity.
Qed.

(** X2.  Undo clicked [k] times in a row only moves the cursor: it
    goes down by one per click and stops at entry 0 (a cursor that is
    already at 0 or below stays where it is); the history and the
    surface are exactly as before. *)
Theorem undo_repeated (k : nat) (s : globals) :
  let s' := run (repeat UndoClick k) s in
  historyStep s' = Z.min (historyStep s) (Z.max 0 (historyStep s - Z.of_nat k)) /\
  history s' = history s /\ ctx s' = ctx s.
Proof.
  revert s. induction k as [|k IH]; intros s; cbn [repeat run fold_left handle].
  - repeat split. lia.
  - destruct (IH (undoBtn_click s)) as (IHs & IHh & IHc).
    unfold run in IHs, IHh, IHc. rewrite IHs, IHh, IHc.
    unfold undoBtn_click.
    destruct (Z.ltb_spec 0 (historyStep s)).
    + destruct (nth_error (history s) (Z.to_nat (historyStep s - 1)));
        cbn [with_loading with_history historyStep history ctx];
        repeat split; lia.
    + repeat split; lia.
Qed.

(** X3.  There is no redo.  Whatever the event, the cursor moves
    forward only through a [saveState]: it then advances by exactly
    one, sits on the last entry, and that entry is the snapshot of the
    surface the listener found, never an entry stored earlier. *)
Theorem cursor_advances_only_by_push (s : globals) (ev : event) :
  hist_ok s ->
  historyStep s < historyStep (handle s ev) ->
  historyStep (handle s ev) = historyStep s + 1 /\
  historyStep (handle s ev) = Z.of_nat (length (history (handle s ev))) - 1 /\
  nth_error (history (handle s ev)) (Z.to_nat (historyStep (handle s ev)))
  = Some (toDataURL (ctx s)).
Proof.
  intros [Hcap Hstep] Hfwd.
  destruct (handle_move s ev) as [[_ Hs]|[[Hh Hs]|(_ & _ & Hs)]]; try lia.
  destruct (push_shape (toDataURL (ctx s)) (history s) (historyStep s) Hcap Hstep)
    as (pre & Hpre & Hcur & Hby).
  rewrite Hs, Hh, Hpre in *. rewrite length_app. cbn [length].
  split; [lia|]. split; [lia|].
  rewrite Hcur, Nat2Z.id, nth_error_app2, Nat.sub_diag by lia. reflexivity.
Qed.

(** The facts every state the page can reach shares. *)
Definition page_ok (s : globals) : Prop :=
  1 <= Z.of_nat (length (history s)) <= history_cap /\
  0 <= historyStep s < Z.of_nat (length (history s)) /\
  height (ctx s) = 600.

Lemma handle_height s ev :
  height (ctx s) = 600 -> height (ctx (handle s ev)) = 600.
Proof.
  assert (Hsave : forall t, height (ctx (saveState t)) = height (ctx t)).
  { intros t. destruct (saveState_fields t) as (_ & _ & -> & _). reflexivity. }
  assert (Hrun : forall ks c, height (run_calls ks c) = height c).
  { intros ks c. now destruct (run_calls_keeps ks c) as (_ & -> & _). }
  assert (Hclear : forall a t, height (ctx t) = 600 ->
                   height (ctx (clearBtn_click a t)) = 600).
  { intros a t Ht. unfold clearBtn_click. destruct a; [|exact Ht].
    cbn [with_ctx ctx]. now rewrite Hrun, Hsave. }
  assert (Hdown : forall e x y, height (ctx s) = 600 ->
                  height (ctx (pointer_down e x y s)) = 600).
  { intros e x y Ht. unfold pointer_down, stamp. cbn [with_ctx ctx].
    now rewrite Hrun, Hsave. }
  assert (Hmove : forall e x y, height (ctx s) = 600 ->
                  height (ctx (pointer_move e x y s)) = 600).
  { intros e x y Ht. unfold pointer_move, stamp.
    destruct (isDrawing s); [|exact Ht]. cbn [with_ctx ctx]. now rewrite Hrun. }
  intros H. destruct ev; cbn [handle];
    try exact H; try (now apply Hdown); try (now apply Hmove);
    try (now apply Hclear).
  - cbn [with_ctx ctx]. unfold resizeCanvas. now rewrite Hrun.
  - unfold fillBtn_click. cbn [with_ctx ctx]. now rewrite Hrun, Hsave.
  - unfold undoBtn_click. destruct (0 <? historyStep s); [|exact H].
    now destruct (nth_error (history s) (Z.to_nat (historyStep s - 1))).
  - unfold image_loaded. destruct (nth_error (loading s) n) as [img|]; [|exact H].
    destruct (decodes img); [|exact H].
    cbn [with_loading with_ctx ctx]. unfold img_onload. now rewrite Hrun.
  - unfold keydown.
    assert (H1 : height (ctx (if ctrl_or_meta
                              then if String.eqb key "z" then undoBtn_click s
                                   else if String.eqb key "s" then saveBtn_click s
                                   else s
                              else s)) = 600).
    { destruct ctrl_or_meta; [|exact H].
      destruct (String.eqb key "z").
      - unfold undoBtn_click. destruct (0 <? historyStep s); [|exact H].
        now destruct (nth_error (history s) (Z.to_nat (historyStep s - 1))).
      - now destruct (String.eqb key "s"). }
    revert H1.
    generalize (if ctrl_or_meta
                then if String.eqb key "z" then undoBtn_click s
                     else if String.eqb key "s" then saveBtn_click s else s
                else s).
    intros s1 H1.
    assert (H2 : height (ctx (if String.eqb key "e" then eraserBtn_click s1 else s1))
                 = 600) by now destruct (String.eqb key "e").
    destruct (String.eqb key "c"); [now apply Hclear|exact H2].
Qed.

Lemma handle_page_ok s ev : page_ok s -> page_ok (handle s ev).
Proof.
  intros (Hlen & Hstep & Hh). unfold page_ok.
  split; [|split; [|now apply handle_height]].
  - destruct (handle_move s ev) as [[E _]|[[E _]|(E & _)]]; rewrite E; try lia.
    destruct (push_shape (toDataURL (ctx s)) (history s) (historyStep s))
      as (pre & Hpre & _); try lia.
    destruct (push_ok (toDataURL (ctx s)) (history s) (historyStep s))
      as (Hle & _); try lia.
    rewrite Hpre in *. rewrite length_app in *. cbn [length] in *. lia.
  - destruct (handle_move s ev) as [[E1 E2]|[[E1 E2]|(E1 & Hpos & E2)]];
      rewrite E1, E2; try lia.
    destruct (push_ok (toDataURL (ctx s)) (history s) (historyStep s))
      as (_ & Hlast & Hnn); lia.
Qed.

(** X4.  In every state the page can reach, whatever the events were:
    the history holds between 1 and 50 entries, the cursor is the index
    of one of them (never [-1] again), and the canvas is 600 high. *)
Theorem reachable_page_ok (w : Z) (s : globals) :
  reachable w s -> page_ok s.
Proof.
  induction 1 as [|s ev _ IH].
  - unfold page_ok, history_cap. repeat split; cbn; lia.
  - now apply handle_page_ok.
Qed.

(** ** Further properties of the surface *)

(** [canvas.width = Math.min(1200, container.clientWidth - 40)] *)
Definition canvas_width (clientWidth : Z) : Z := Z.min 1200 (clientWidth - 40).

Lemma img_onload_pixel (img : snapshot) (c : context2d) (i j : Z) :
  globalCompositeOperation c = source_over -> in_canvas c i j ->
  bitmap (img_onload img c) i j = image_pixel img i j.
Proof.
  intros Hg [Hi Hj]. unfold img_onload. cbn.
  rewrite (whole_rect_covers _ _ _ _ Hi Hj), erase_whole, Hg.
  rewrite source_over_on_transparent, !Z.sub_0_r. reflexivity.
Qed.

Lemma push_push_previous u1 u2 h step :
  Z.of_nat (length h) <= history_cap -> -1 <= step < Z.of_nat (length h) ->
  let p1 := push u1 h step in
  let p2 := push u2 (fst p1) (snd p1) in
  0 < snd p2 /\ nth_error (fst p2) (Z.to_nat (snd p2 - 1)) = Some u1.
Proof.
  intros Hcap Hstep p1 p2.
  destruct (push_shape u1 h step Hcap Hstep) as (pre & Hpre & Hcur & _).
  destruct (push_ok u1 h step Hcap Hstep) as (Hle & _ & _).
  fold p1 in Hpre, Hcur, Hle. subst p2. rewrite Hpre in *. rewrite Hcur.
  rewrite length_app in Hle. cbn [length] in Hle.
  destruct (Z.eq_dec (Z.of_nat (length (pre ++ [u1]))) history_cap) as [Hfull|Hroom];
    rewrite length_app in *; cbn [length] in *.
  - rewrite push_evicts by (rewrite ?length_app; cbn [length]; lia).
    cbn [fst snd].
    destruct pre as [|p0 pre]; [unfold history_cap in *; cbn [length] in *; lia|].
    cbn [app tl length]. split; [lia|].
    replace (Z.to_nat (Z.of_nat (S (length pre)) + 1 - 1 - 1)) with (length pre) by lia.
    rewrite <- app_assoc, nth_error_app2, Nat.sub_diag by lia. reflexivity.
  - rewrite push_appends by (rewrite ?length_app; cbn [length]; lia).
    cbn [fst snd]. split; [lia|].
    replace (Z.to_nat (Z.of_nat (length pre) + 1 - 1)) with (length pre) by lia.
    rewrite <- app_assoc, nth_error_app2, Nat.sub_diag by lia. reflexivity.
Qed.

(** What a run of pointer moves and a whole stroke keep, with the
    eraser off: the dimensions, eraser mode, and ['source-over'] once
    it is set. *)
Lemma stamp_paint_ctx e x y s :
  isEraser s = false ->
  let s' := stamp e x y s in
  globalCompositeOperation (ctx s') = source_over /\
  width (ctx s') = width (ctx s) /\ height (ctx s') = height (ctx s) /\
  isEraser s' = false.
Proof.
  intros He. unfold stamp. cbn [with_ctx ctx isEraser].
  rewrite draw_composite, He.
  destruct (run_calls_keeps (draw s e x y) (ctx s)) as (-> & -> & _).
  repeat split; assumption.
Qed.

Lemma moves_paint_ctx moves : forall s,
  isEraser s = false -> globalCompositeOperation (ctx s) = source_over ->
  let s' := run (map (fun m => MouseMove (fst (fst m)) (snd (fst m)) (snd m))
                     moves) s in
  globalCompositeOperation (ctx s') = source_over /\
  width (ctx s') = width (ctx s) /\ height (ctx s') = height (ctx s) /\
  isEraser s' = false.
Proof.
  induction moves as [|m moves IH]; intros s He Hg; cbn [map run fold_left handle].
  - repeat split; assumption.
  - set (s1 := pointer_move (fst (fst m)) (snd (fst m)) (snd m) s).
    assert (H1 : globalCompositeOperation (ctx s1) = source_over /\
                 width (ctx s1) = width (ctx s) /\
                 height (ctx s1) = height (ctx s) /\ isEraser s1 = false).
    { subst s1. unfold pointer_move. destruct (isDrawing s).
      - now apply stamp_paint_ctx.
      - repeat split; assumption. }
    destruct H1 as (G1 & W1 & H1 & E1).
    destruct (IH s1 E1 G1) as (G & W & H & E). unfold run in G, W, H, E.
    rewrite G, W, H, E, W1, H1. repeat split.
Qed.

Lemma stroke_paint_ctx e x y moves s :
  isEraser s = false ->
  let s' := run (stroke e x y moves) s in
  globalCompositeOperation (ctx s') = source_over /\
  width (ctx s') = width (ctx s) /\ height (ctx s') = height (ctx s) /\
  isEraser s' = false.
Proof.
  intros He. unfold stroke, run. cbn [fold_left handle]. rewrite fold_left_app.
  cbn [fold_left handle pointer_up with_isDrawing ctx isEraser].
  assert (H0 : isEraser (saveState (with_isDrawing true s)) = false).
  { destruct (saveState_fields (with_isDrawing true s))
      as (_ & _ & _ & _ & _ & _ & _ & -> & _). exact He. }
  destruct (stamp_paint_ctx e x y _ H0) as (G1 & W1 & H1 & E1).
  fold (pointer_down e x y s) in G1, W1, H1, E1.
  destruct (moves_paint_ctx moves (pointer_down e x y s) E1 G1) as (G & W & H & E).
  unfold run in G, W, H, E. rewrite G, W, H, E, W1, H1.
  destruct (saveState_fields (with_isDrawing true s)) as (_ & _ & -> & _).
  repeat split.
Qed.

(** The same for either mode: a stamp leaves the context on the
    operation that eraser mode selects, and a stroke keeps it there. *)
Lemma stamp_ctx e x y s :
  let s' := stamp e x y s in
  globalCompositeOperation (ctx s')
  = (if isEraser s then destination_out else source_over) /\
  width (ctx s') = width (ctx s) /\ height (ctx s') = height (ctx s) /\
  isEraser s' = isEraser s.
Proof.
  unfold stamp. cbn [with_ctx ctx isEraser].
  rewrite draw_composite.
  destruct (run_calls_keeps (draw s e x y) (ctx s)) as (-> & -> & _).
  repeat split.
Qed.

Lemma moves_ctx moves : forall s,
  globalCompositeOperation (ctx s)
  = (if isEraser s then destination_out else source_over) ->
  let s' := run (map (fun m => MouseMove (fst (fst m)) (snd (fst m)) (snd m))
                     moves) s in
  globalCompositeOperation (ctx s')
  = (if isEraser s then destination_out else source_over) /\
  width (ctx s') = width (ctx s) /\ height (ctx s') = height (ctx s) /\
  isEraser s' = isEraser s.
Proof.
  induction moves as [|m moves IH]; intros s Hg; cbn [map run fold_left handle].
  - repeat split; assumption.
  - set (s1 := pointer_move (fst (fst m)) (snd (fst m)) (snd m) s).
    assert (H1 : globalCompositeOperation (ctx s1)
                 = (if isEraser s then destination_out else source_over) /\
                 width (ctx s1) = width (ctx s) /\
                 height (ctx s1) = height (ctx s) /\ isEraser s1 = isEraser s).
    { subst s1. unfold pointer_move. destruct (isDrawing s).
      - apply stamp_ctx.
      - repeat split; assumption. }
    destruct H1 as (G1 & W1 & H1 & E1).
    rewrite <- E1 in G1.
    destruct (IH s1 G1) as (G & W & H & E). unfold run in G, W, H, E.
    rewrite G, W, H, E, W1, H1, E1. repeat split.
Qed.

Lemma stroke_ctx e x y moves s :
  let s' := run (stroke e x y moves) s in
  globalCompositeOperation (ctx s')
  = (if isEraser s then destination_out else source_over) /\
  width (ctx s') = width (ctx s) /\ height (ctx s') = height (ctx s) /\
  isEraser s' = isEraser s.
Proof.
  unfold stroke, run. cbn [fold_left handle]. rewrite fold_left_app.
  cbn [fold_left handle pointer_up with_isDrawing ctx isEraser].
  assert (H0 : isEraser (saveState (with_isDrawing true s)) = isEraser s).
  { destruct (saveState_fields (with_isDrawing true s))
      as (_ & _ & _ & _ & _ & _ & _ & -> & _). reflexivity. }
  destruct (stamp_ctx e x y (saveState (with_isDrawing true s))) as (G1 & W1 & H1 & E1).
  fold (pointer_down e x y s) in G1, W1, H1, E1.
  rewrite <- E1 in G1.
  destruct (moves_ctx moves (pointer_down e x y s) G1) as (G & W & H & E).
  unfold run in G, W, H, E. rewrite G, W, H, E, W1, H1, E1, H0.
  destruct (saveState_fields (with_isDrawing true s)) as (_ & _ & -> & _).
  repeat split.
Qed.

(** X5.  Undo goes back two gestures, not one.  After two strokes
    (eraser off, no image pending), one undo and the completion of its
    load, every cell of the surface is as it was before the first
    stroke: the snapshot taken before the second stroke, which holds
    the first stroke's paint, is skipped. *)
Theorem undo_after_two_strokes (s : globals)
        (eA : env) (xA yA : Q) (movesA : list (env * Q * Q))
        (eB : env) (xB yB : Q) (movesB : list (env * Q * Q)) (i j : Z) :
  hist_ok s -> loading s = [] -> isEraser s = false ->
  in_canvas (ctx s) i j ->
  let s' := run (stroke eA xA yA movesA ++ stroke eB xB yB movesB
                 ++ [UndoClick; ImageLoaded 0]) s in
  bitmap (ctx s') i j = bitmap (ctx s) i j.
Proof.
  intros [Hcap Hstep] Hload He Hin s'. subst s'. unfold run.
  rewrite !fold_left_app. fold (run (stroke eA xA yA movesA) s).
  set (sA := run (stroke eA xA yA movesA) s).
  fold (run (stroke eB xB yB movesB) sA).
  set (sB := run (stroke eB xB yB movesB) sA).
  cbn [fold_left handle].
  destruct (stroke_history eA xA yA movesA s) as (HAh & HAs & HAl).
  destruct (stroke_paint_ctx eA xA yA movesA s He) as (_ & HAw & HAht & HAe).
  fold sA in HAh, HAs, HAl, HAw, HAht, HAe.
  destruct (stroke_history eB xB yB movesB sA) as (HBh & HBs & HBl).
  destruct (stroke_paint_ctx eB xB yB movesB sA HAe) as (HBg & HBw & HBht & _).
  fold sB in HBh, HBs, HBl, HBg, HBw, HBht.
  destruct (saveState_fields s) as (S1 & S2 & _).
  destruct (saveState_fields sA) as (T1 & T2 & _).
  destruct (push_push_previous (toDataURL (ctx s)) (toDataURL (ctx sA))
              (history s) (historyStep s) Hcap Hstep) as [Hpos Hprev].
  cbv zeta in Hpos, Hprev.
  rewrite <- S1, <- S2, <- HAh, <- HAs, <- T2, <- HBs in Hpos.
  rewrite <- S1, <- S2, <- HAh, <- HAs, <- T1, <- T2, <- HBh, <- HBs in Hprev.
  destruct (undo_then_onload sB (toDataURL (ctx s)) i j) as (_ & _ & Hbit).
  - exact Hpos.
  - exact Hprev.
  - now rewrite HBl, HAl.
  - cbn [toDataURL sw]. now rewrite HBw, HAw.
  - cbn [toDataURL sh]. now rewrite HBht, HAht.
  - unfold in_canvas. now rewrite HBw, HBht, HAw, HAht.
  - rewrite Hbit, HBg. reflexivity.
Qed.

(** X6.  A restore that completes late wins.  Undo is clicked with
    the cursor above 0 and no other image pending, the undone entry
    has the size of the canvas, and a stroke is drawn before the image
    has loaded.  The completion of the load then clears the surface
    and draws the entry under the composite operation the stroke left
    on the context.  With the eraser off every cell becomes the
    entry's: the stroke's paint is lost.  With the eraser on every
    cell becomes transparent.  Either way the history entry that the
    stroke pushed stays. *)
Theorem late_onload_overwrites_stroke (s : globals) (url : snapshot)
        (e : env) (x y : Q) (moves : list (env * Q * Q)) (i j : Z) :
  0 < historyStep s ->
  nth_error (history s) (Z.to_nat (historyStep s - 1)) = Some url ->
  loading s = [] ->
  sw url = width (ctx s) -> sh url = height (ctx s) ->
  in_canvas (ctx s) i j ->
  let drawn := run (UndoClick :: stroke e x y moves) s in
  let s' := handle drawn (ImageLoaded 0) in
  bitmap (ctx s') i j = (if isEraser s then transparent else spix url i j) /\
  history s' = history drawn /\ historyStep s' = historyStep drawn /\
  history drawn = history (saveState (undoBtn_click s)).
Proof.
  intros Hpos Hurl Hload Hw Hh Hin drawn s'.
  assert (Hu : undoBtn_click s
               = with_loading [url] (with_history (history s) (historyStep s - 1) s)).
  { unfold undoBtn_click. destruct (Z.ltb_spec 0 (historyStep s)); [|lia].
    now rewrite Hurl, Hload. }
  subst s' drawn. cbn [run fold_left handle]. rewrite Hu.
  set (u := with_loading [url] (with_history (history s) (historyStep s - 1) s)).
  fold (run (stroke e x y moves) u).
  set (d := run (stroke e x y moves) u).
  destruct (stroke_history e x y moves u) as (Dh & _ & Dl).
  destruct (stroke_ctx e x y moves u) as (Dg & Dw & Dht & _).
  fold d in Dh, Dl, Dg, Dw, Dht.
  change (isEraser u) with (isEraser s) in Dg.
  change (width (ctx u)) with (width (ctx s)) in Dw.
  change (height (ctx u)) with (height (ctx s)) in Dht.
  assert (Hdec : decodes url = true) by exact (decodes_canvas url (ctx s) i j Hw Hh Hin).
  unfold image_loaded. rewrite Dl. cbn [u with_loading loading nth_error].
  rewrite Hdec.
  cbn [with_loading with_ctx ctx history historyStep remove_nth].
  split; [|split; [reflexivity|split; [reflexivity|exact Dh]]].
  rewrite img_onload_bitmap, Dg.
  - destruct (isEraser s); reflexivity.
  - now rewrite Dw.
  - now rewrite Dht.
  - unfold in_canvas. now rewrite Dw, Dht.
Qed.

(** X7.  A resize in a container at least 40 wide gives a canvas of
    width [min(1200, clientWidth - 40)], at most 1200, and height 600,
    painted opaque black in every cell, with the context back on
    ['source-over']; the drawing is discarded, but the history, the
    cursor, the brush settings and the drawing flag are untouched. *)
Theorem resize_clears_and_resets (clientWidth : Z) (s : globals) (i j : Z) :
  40 <= clientWidth ->
  let w := canvas_width clientWidth in
  let s' := handle s (Resize w) in
  0 <= i < w -> 0 <= j < 600 ->
  width (ctx s') = w /\ 0 <= w <= 1200 /\ height (ctx s') = 600 /\
  bitmap (ctx s') i j = solid black /\
  globalCompositeOperation (ctx s') = source_over /\
  history s' = history s /\ historyStep s' = historyStep s /\
  isDrawing s' = isDrawing s /\ isEraser s' = isEraser s /\
  brushSize s' = brushSize s /\ brushType s' = brushType s /\
  currentColor s' = currentColor s.
Proof.
  intros Hcw w s' Hi Hj. subst s'. cbn [handle with_ctx ctx history historyStep
    isDrawing isEraser brushSize brushType currentColor].
  rewrite (resizeCanvas_bitmap w i j Hi Hj).
  unfold resizeCanvas.
  match goal with
  | |- context [run_calls ?ks ?c0] =>
      destruct (run_calls_keeps ks c0) as (-> & -> & Hg)
  end.
  rewrite (Hg eq_refl). cbn [width height globalCompositeOperation].
  subst w. unfold canvas_width in *. repeat split; lia.
Qed.

(** X8.  Undo across a resize.  When the stored entry has pixels
    (positive width and height), the restored image is drawn at its
    own size onto the cleared canvas: cells that lie inside the entry
    take its pixels, and the cells of the new canvas beyond the
    entry's width or height are left transparent, not black.  The
    resize has reset the composite operation, so this holds whatever
    brush or eraser was used before.  An entry without pixels, the
    snapshot of a canvas of width 0, does not load: the cursor has
    moved all the same, and the canvas stays black as the resize left
    it. *)
Theorem undo_after_resize (s : globals) (url : snapshot) (w i j : Z) :
  0 < historyStep s ->
  nth_error (history s) (Z.to_nat (historyStep s - 1)) = Some url ->
  loading s = [] ->
  0 <= i < w -> 0 <= j < 600 ->
  let s' := run [Resize w; UndoClick; ImageLoaded 0] s in
  historyStep s' = historyStep s - 1 /\
  (0 < sw url -> 0 < sh url ->
   (i < sw url /\ j < sh url -> bitmap (ctx s') i j = spix url i j) /\
   (sw url <= i \/ sh url <= j -> bitmap (ctx s') i j = transparent)) /\
  (sw url <= 0 \/ sh url <= 0 -> bitmap (ctx s') i j = solid black).
Proof.
  intros Hpos Hurl Hload Hi Hj s'. subst s'. cbn [run fold_left handle].
  unfold undoBtn_click. cbn [with_ctx historyStep history loading].
  destruct (Z.ltb_spec 0 (historyStep s)); [|lia].
  rewrite Hurl, Hload. unfold image_loaded.
  cbn [with_loading with_history with_ctx loading app nth_error ctx historyStep].
  unfold decodes.
  destruct (Z.ltb_spec 0 (sw url)) as [Hsw|Hsw];
    destruct (Z.ltb_spec 0 (sh url)) as [Hsh|Hsh];
    cbn [andb with_loading with_history with_ctx loading ctx historyStep];
    (split; [reflexivity|]).
  2-4: split; [intros; lia|intros _; now apply resizeCanvas_bitmap].
  split; [intros _ _|intros; lia].
  assert (Hpix : bitmap (img_onload url (resizeCanvas w)) i j = image_pixel url i j).
  { apply img_onload_pixel; [reflexivity|]. split; assumption. }
  rewrite Hpix. unfold image_pixel, in_image. split.
  - intros [Hiw Hjh].
    destruct (Z.leb_spec 0 i); [|lia]. destruct (Z.ltb_spec i (sw url)); [|lia].
    destruct (Z.leb_spec 0 j); [|lia]. destruct (Z.ltb_spec j (sh url)); [|lia].
    reflexivity.
  - intros Hout.
    destruct (Z.leb_spec 0 i); [|lia]. destruct (Z.leb_spec 0 j); [|lia].
    destruct (Z.ltb_spec i (sw url)); destruct (Z.ltb_spec j (sh url));
      try reflexivity; lia.
Qed.

(** X9.  The clear button.  When the confirmation is declined nothing
    changes at all.  When it is accepted one history entry is pushed
    (the snapshot of the surface before clearing) and the canvas is
    filled with ['#000000'] under whatever composite operation the
    context holds: opaque black in every cell under ['source-over'],
    but fully transparent when the last stamp was an eraser stamp. *)
Theorem clear_button (s : globals) (i j : Z) :
  in_canvas (ctx s) i j ->
  clearBtn_click false s = s /\
  history (clearBtn_click true s) = history (saveState s) /\
  historyStep (clearBtn_click true s) = historyStep (saveState s) /\
  bitmap (ctx (clearBtn_click true s)) i j =
  match globalCompositeOperation (ctx s) with
  | source_over => solid black
  | destination_out => transparent
  end.
Proof.
  intros Hin. split; [reflexivity|]. unfold clearBtn_click.
  destruct (saveState_fields s) as (_ & _ & Hc & _).
  split; [reflexivity|]. split; [reflexivity|].
  cbn [with_ctx ctx]. rewrite Hc.
  apply (fill_whole_canvas (Hex 0 0 0) (ctx s) i j eq_refl Hin).
Qed.

Lemma stamp_color e x y s : currentColor (stamp e x y s) = currentColor s.
Proof. reflexivity. Qed.

Lemma moves_color moves : forall s,
  currentColor (run (map (fun m => MouseMove (fst (fst m)) (snd (fst m)) (snd m))
                         moves) s) = currentColor s.
Proof.
  induction moves as [|m moves IH]; intros s; cbn [map run fold_left handle].
  - reflexivity.
  - fold (run (map (fun m => MouseMove (fst (fst m)) (snd (fst m)) (snd m)) moves)
              (pointer_move (fst (fst m)) (snd (fst m)) (snd m) s)).
    rewrite IH. unfold pointer_move. now destruct (isDrawing s).
Qed.

Lemma stroke_color e x y moves s :
  currentColor (run (stroke e x y moves) s) = currentColor s.
Proof.
  unfold stroke, run. cbn [fold_left handle]. rewrite fold_left_app.
  cbn [fold_left handle pointer_up with_isDrawing currentColor].
  fold (run (map (fun m => MouseMove (fst (fst m)) (snd (fst m)) (snd m)) moves)
            (pointer_down e x y s)).
  rewrite moves_color. unfold pointer_down. rewrite stamp_color.
  now destruct (saveState_fields (with_isDrawing true s)) as (_ & _ & _ & _ & -> & _).
Qed.

(** X10.  Fill works after any stroke drawn with the eraser off.
    Whatever was on the context before (also the eraser's
    ['destination-out']), a stroke with eraser mode off leaves
    ['source-over'] behind, and a fill that follows sets every cell of
    the surface to the configured colour. *)
Theorem fill_after_stroke (s : globals) (e : env) (x y : Q)
        (moves : list (env * Q * Q)) (i j : Z) :
  isEraser s = false -> in_canvas (ctx s) i j ->
  bitmap (ctx (run (stroke e x y moves ++ [FillClick]) s)) i j
  = solid (parse_color (css_of_hex (currentColor s))).
Proof.
  intros He Hin. unfold run. rewrite fold_left_app.
  fold (run (stroke e x y moves) s). cbn [fold_left handle].
  destruct (stroke_paint_ctx e x y moves s He) as (Hg & Hw & Hh & _).
  destruct (fillBtn_click_bitmap (run (stroke e x y moves) s) i j) as [_ Hbit].
  - unfold in_canvas. now rewrite Hw, Hh.
  - now rewrite Hbit, Hg, stroke_color.
Qed.

(** ** Further properties of the brushes *)

Lemma overlap_covers (a len : Q) (i : Z) :
  (0 <= len)%Q -> (a <= inject_Z i)%Q -> (inject_Z i + 1 <= a + len)%Q ->
  (overlap a len i == 1)%Q.
Proof.
  unfold overlap. generalize (inject_Z i). intros q Hlen Hlo Hhi.
  overlap_cases a len q; lra.
Qed.

Lemma overlap_misses (a len : Q) (i : Z) :
  (0 <= len)%Q -> (inject_Z i + 1 <= a \/ a + len <= inject_Z i)%Q ->
  (overlap a len i == 0)%Q.
Proof.
  unfold overlap. generalize (inject_Z i). intros q Hlen Hout.
  overlap_cases a len q; lra.
Qed.

Lemma half_twice (size : Z) : (half size + half size == inject_Z size)%Q.
Proof. unfold half. change (/ 2)%Q with (1 # 2)%Q. unfold Qdiv. change (/ 2)%Q with (1 # 2)%Q. ring. Qed.

Lemma composite_nothing (op : composite_op) (c : rgba) (dst : pixel) :
  composite op (shade c 0%Qc) dst = dst.
Proof.
  destruct dst, op; unfold composite, shade; cbn [pr pg pb pa]; f_equal; ring.
Qed.

Lemma rgba_black_opaque : alpha (parse_color (Rgba 0 0 0 1)) = 1%Qc.
Proof. reflexivity. Qed.

(** The pixel a full-coverage stamp leaves, by eraser mode. *)
Definition stamped (s : globals) : pixel :=
  if isEraser s then transparent
  else solid (parse_color (css_of_hex (currentColor s))).

(** X11.  The square brush with a size [S >= 0] paints the square of
    side [S] centred on the pointer and nothing else: a cell that lies
    wholly inside becomes the configured colour (transparent in
    eraser mode), and a cell that lies wholly outside keeps its
    pixel. *)
Theorem square_stamp_is_local (s : globals) (e : env) (x y : Q) (i j : Z) :
  brushType s = "square"%string -> 0 <= brushSize s ->
  let r := half (brushSize s) in
  let c' := ctx (stamp e x y s) in
  ((x - r <= inject_Z i)%Q /\ (inject_Z i + 1 <= x + r)%Q /\
   (y - r <= inject_Z j)%Q /\ (inject_Z j + 1 <= y + r)%Q ->
   bitmap c' i j = stamped s) /\
  ((inject_Z i + 1 <= x - r)%Q \/ (x + r <= inject_Z i)%Q \/
   (inject_Z j + 1 <= y - r)%Q \/ (y + r <= inject_Z j)%Q ->
   bitmap c' i j = bitmap (ctx s) i j).
Proof.
  intros Htype Hsize r c'. subst c'. unfold stamp, draw, stamped.
  rewrite Htype. cbn [String.eqb Ascii.eqb Bool.eqb].
  pose proof (half_twice (brushSize s)) as Hr. fold r in Hr.
  assert (Hq : (0 <= inject_Z (brushSize s))%Q) by (unfold Qle; cbn; lia).
  assert (Hcov : bitmap (with_ctx
             (run_calls
                ((if isEraser s
                  then [set_globalCompositeOperation destination_out;
                        set_fillStyle (Rgba 0 0 0 1)]
                  else [set_globalCompositeOperation source_over;
                        set_fillStyle (css_of_hex (currentColor s))])
                 ++ drawSquare (brushSize s) x y) (ctx s)) s).(ctx) i j
          = composite (if isEraser s then destination_out else source_over)
              (shade (parse_color (if isEraser s then Rgba 0 0 0 1
                                   else css_of_hex (currentColor s)))
                     (Q2Qc (rect_coverage (x - r) (y - r)
                              (inject_Z (brushSize s)) (inject_Z (brushSize s)) i j)))
              (bitmap (ctx s) i j)).
  { destruct (isEraser s); reflexivity. }
  rewrite Hcov. clear Hcov. unfold rect_coverage.
  generalize dependent (inject_Z (brushSize s)). intros q Hr Hq.
  split.
  - intros (Hx1 & Hx2 & Hy1 & Hy2).
    assert (E : Q2Qc (overlap (x - r) q i * overlap (y - r) q j) = 1%Qc).
    { apply Q2Qc_eq_iff.
      rewrite (overlap_covers (x - r) q i), (overlap_covers (y - r) q j) by lra.
      reflexivity. }
    rewrite E. destruct (isEraser s).
    + now apply destination_out_opaque.
    + now apply source_over_opaque.
  - intros Hout.
    assert (E : Q2Qc (overlap (x - r) q i * overlap (y - r) q j) = 0%Qc).
    { apply Q2Qc_eq_iff.
      destruct Hout as [H|[H|[H|H]]].
      - rewrite (overlap_misses (x - r) q i) by lra. ring.
      - rewrite (overlap_misses (x - r) q i) by lra. ring.
      - rewrite (overlap_misses (y - r) q j) by lra. ring.
      - rewrite (overlap_misses (y - r) q j) by lra. ring. }
    rewrite E. apply composite_nothing.
Qed.

Lemma half_negative (size : Z) : size < 0 -> Qle_bool 0 (half size) = false.
Proof.
  intros H. destruct (Qle_bool 0 (half size)) eqn:E; [|reflexivity].
  apply Qle_bool_iff in E. unfold half, Qle in E. cbn in E. lia.
Qed.

Lemma spray_nothing (size : Z) (rnd : nat -> Q) (x y : Q) :
  size <= 0 -> drawSpray size rnd x y = [].
Proof.
  intros H. unfold drawSpray, spray_accepted, spray_samples, spray_density.
  replace (Z.to_nat (size * 2)) with 0%nat by lia. reflexivity.
Qed.

(** X12.  A brush name other than the four the [switch] knows paints
    nothing: the stamp leaves the bitmap exactly as it was (the names
    are compared exactly, so ["Round"] is unknown too). *)
Theorem unknown_brush_paints_nothing (s : globals) (e : env) (x y : Q) :
  brushType s <> "round"%string -> brushType s <> "square"%string ->
  brushType s <> "spray"%string -> brushType s <> "rainbow"%string ->
  bitmap (ctx (stamp e x y s)) = bitmap (ctx s) /\
  width (ctx (stamp e x y s)) = width (ctx s) /\
  height (ctx (stamp e x y s)) = height (ctx s).
Proof.
  intros H1 H2 H3 H4. unfold stamp, draw.
  apply String.eqb_neq in H1, H2, H3, H4. rewrite H1, H2, H3, H4.
  destruct (isEraser s); repeat split.
Qed.

(** X13.  Sizes that are not positive.  With a negative size the round
    and rainbow brushes paint nothing ([arc] throws on the negative
    radius before [fill] is reached) and neither does the spray; with
    size 0 the square and the spray paint nothing.  In each case every
    pixel is as before the stamp. *)
Theorem nonpositive_size_paints_nothing (s : globals) (e : env) (x y : Q) (i j : Z) :
  (brushSize s < 0 /\
   (brushType s = "round" \/ brushType s = "rainbow" \/ brushType s = "spray")%string)
  \/
  (brushSize s = 0 /\
   (brushType s = "square" \/ brushType s = "spray")%string) ->
  bitmap (ctx (stamp e x y s)) i j = bitmap (ctx s) i j.
Proof.
  intros [[Hneg Htype]|[Hzero Htype]]; unfold stamp, draw.
  - destruct Htype as [Ht|[Ht|Ht]]; rewrite Ht; cbn [String.eqb Ascii.eqb Bool.eqb].
    + unfold drawRound.
      destruct (isEraser s); cbn [app run_calls exec with_path];
        rewrite (half_negative _ Hneg); reflexivity.
    + unfold drawRainbow, drawRound.
      destruct (isEraser s); cbn [app run_calls exec with_path];
        rewrite (half_negative _ Hneg); reflexivity.
    + rewrite spray_nothing by lia. destruct (isEraser s); reflexivity.
  - destruct Htype as [Ht|Ht]; rewrite Ht; cbn [String.eqb Ascii.eqb Bool.eqb].
    + unfold drawSquare. rewrite Hzero.
      assert (E : Q2Qc (rect_coverage (x - half 0) (y - half 0)
                                      (inject_Z 0) (inject_Z 0) i j) = 0%Qc).
      { apply Q2Qc_eq_iff. unfold rect_coverage.
        assert (Hz : (overlap (x - half 0) (inject_Z 0) i == 0)%Q).
        { unfold overlap. change (inject_Z 0) with 0%Q.
          generalize (inject_Z i). intros q.
          overlap_cases (x - half 0)%Q 0%Q q; lra. }
        rewrite Hz. ring. }
      destruct (isEraser s); cbn [app run_calls exec with_bitmap with_ctx ctx bitmap
        globalCompositeOperation fillStyle]; rewrite E; apply composite_nothing.
    + rewrite spray_nothing by lia. destruct (isEraser s); reflexivity.
Qed.




(** X15.  The spray thins towards the corners.  For a size from 1
    to [2^50], a stamp never paints more than [2 * size] rectangles;
    a sample drawn near a corner of the square (both random numbers
    at most 1/8) is always dropped, and a sample at the centre (both
    numbers 1/2) is always kept. *)
Theorem spray_drops_corner_samples (size : Z) (rnd : nat -> Q) (x y : Q)
        (r1 r2 : Q) :
  0 < size <= 2 ^ 50 ->
  Z.of_nat (length (drawSpray size rnd x y)) <= 2 * size /\
  ((0 <= r1 <= 1 # 8)%Q -> (0 <= r2 <= 1 # 8)%Q ->
   within_radius size (spray_offset size r1) (spray_offset size r2) = false) /\
  within_radius size (spray_offset size (1 # 2)) (spray_offset size (1 # 2)) = true.
Proof.
  intros Hs.
  assert (Hq : (1 <= inject_Z size)%Q) by (unfold Qle; cbn; lia).
  assert (Hh : (half size == inject_Z size * (1 # 2))%Q) by reflexivity.
  split; [|split].
  - unfold drawSpray, spray_accepted. rewrite length_map.
    pose proof (filter_length_le
                  (fun o => within_radius size (fst o) (snd o))
                  (spray_samples size rnd)) as Hle.
    unfold spray_samples, spray_density in *.
    rewrite length_map, length_seq in Hle. lia.
  - assert (Hcorner : forall r, (0 <= r <= 1 # 8)%Q ->
              (spray_offset size r <= - ((3 # 8) * inject_Z size))%Q).
    { intros r Hr. unfold spray_offset. change (1 / 2)%Q with (1 # 2)%Q.
      assert (N : (fl (- (3 # 8)) == - (3 # 8))%Q) by reflexivity.
      pose proof (fl_mono (r - (1 # 2)) (- (3 # 8)) ltac:(lra)) as A.
      rewrite N in A.
      pose proof (fl_dyadic (- (3 * size)) (-3) ltac:(lia) ltac:(lia)) as D.
      assert (E : (inject_Z (- (3 * size)) * pow2 (-3)
                   == - ((3 # 8) * inject_Z size))%Q).
      { rewrite inject_Z_opp, inject_Z_mult. change (pow2 (-3)) with (1 # 8)%Q.
        change (inject_Z 3) with 3%Q. ring. }
      generalize dependent (fl (r - (1 # 2))). intros a A.
      assert (B : (0 <= (- (3 # 8) - a) * inject_Z size)%Q)
        by (apply Qmult_le_0_compat; lra).
      assert (C : (a * inject_Z size <= inject_Z (- (3 * size)) * pow2 (-3))%Q)
        by (rewrite E; lra).
      apply fl_mono in C. lra. }
    intros H1 H2. apply not_true_is_false. intros Hacc.
    apply within_radius_bound in Hacc; [|lia].
    pose proof (Hcorner r1 H1) as C1. pose proof (Hcorner r2 H2) as C2.
    assert (U50 : (pow2 (-50) == 1 # 1125899906842624)%Q) by reflexivity.
    rewrite Hh, U50 in Hacc.
    assert (Sq : forall a o : Q, (0 <= a)%Q -> (o <= - a)%Q -> (a * a <= o * o)%Q).
    { intros a o Ha Ho.
      assert (P0 : (0 <= (- o - a) * (- o + a))%Q) by (apply Qmult_le_0_compat; lra).
      assert (E : ((- o - a) * (- o + a) == o * o - a * a)%Q) by ring.
      rewrite E in P0. lra. }
    apply Sq in C1; [|lra]. apply Sq in C2; [|lra].
    set (q := inject_Z size) in *.
    assert (Q2 : (1 <= q * q)%Q).
    { assert (P0 : (0 <= (q - 1) * (q + 1))%Q) by (apply Qmult_le_0_compat; lra).
      assert (E : ((q - 1) * (q + 1) == q * q - 1)%Q) by ring.
      rewrite E in P0. lra. }
    assert (E1 : ((3 # 8) * q * ((3 # 8) * q) == (9 # 64) * (q * q))%Q) by ring.
    assert (E2 : (q * (1 # 2) * (q * (1 # 2)) * (1 + (1 # 1125899906842624))
                  == ((1 # 4) + (1 # 4503599627370496)) * (q * q))%Q) by ring.
    rewrite E1 in C1, C2. rewrite E2 in Hacc.
    generalize dependent (q * q)%Q. intros qq. intros. lra.
  - assert (E0 : spray_offset size (1 # 2) = 0%Q).
    { unfold spray_offset. rewrite (fl_zero_eq ((1 # 2) - 1 / 2)) by reflexivity.
      apply fl_zero_eq. ring. }
    rewrite E0. unfold within_radius. apply Qle_bool_iff.
    change (spray_distance 0 0) with 0%Q.
    apply (proj1 (fl_sign (half size))). rewrite Hh. lra.
Qed.

(** [Qtruncate] of a number that is not negative is its integer part. *)
Lemma Qtruncate_floor (q : Q) (k : Z) :
  0 <= k -> (inject_Z k <= q < inject_Z k + 1)%Q -> Qtruncate q = k.
Proof.
  intros Hk [H1 H2]. unfold Qtruncate.
  assert (Hn : 0 <= Qnum q).
  { assert (H0 : (0 <= q)%Q).
    { apply Qle_trans with (inject_Z k); [|exact H1]. unfold Qle; cbn; lia. }
    unfold Qle in H0. cbn in H0. lia. }
  rewrite Z.quot_div_nonneg by lia.
  assert (Ef : Qnum q / Z.pos (Qden q) = Qfloor q) by (destruct q; reflexivity).
  rewrite Ef.
  pose proof (Zlt_floor_le k q H1) as L1.
  pose proof (Qfloor_bounds q) as [F1 _].
  assert (L2 : Qfloor q < k + 1).
  { rewrite Zlt_Qlt, inject_Z_plus. change (inject_Z 1) with 1%Q. lra. }
  lia.
Qed.

(** The hue is the rounded tenth of the clock, less the whole turns
    of the exact tenth: the rounding never carries the quotient over
    a multiple of 360. *)
Lemma rainbow_hue_value (t : Z) :
  0 <= t < 2 ^ 53 ->
  (rainbow_hue t
   == inject_Z (t mod 3600) / 10 + (fl (inject_Z t / 10) - inject_Z t / 10))%Q /\
  (0 <= rainbow_hue t < 360)%Q /\
  (Qabs (fl (inject_Z t / 10) - inject_Z t / 10) <= inject_Z t * pow2 (-53))%Q.
Proof.
  intros Ht.
  pose proof (Z.div_mod t 3600 ltac:(lia)) as Hdm.
  pose proof (Z.mod_pos_bound t 3600 ltac:(lia)) as [M0 M1].
  assert (K0 : 0 <= t / 3600) by (apply Z.div_pos; lia).
  set (k := t / 3600) in *. set (m := t mod 3600) in *.
  assert (Qm0 : (0 <= inject_Z m)%Q) by (unfold Qle; cbn; lia).
  assert (Qm1 : (inject_Z m <= 3599)%Q) by (unfold Qle; cbn; lia).
  assert (Qk0 : (0 <= inject_Z k)%Q) by (unfold Qle; cbn; lia).
  assert (Qt1 : (inject_Z t <= 9007199254740991)%Q) by (unfold Qle; cbn; lia).
  assert (Qt0 : (0 <= inject_Z t)%Q) by (unfold Qle; cbn; lia).
  assert (E : (inject_Z t == 3600 * inject_Z k + inject_Z m)%Q).
  { rewrite Hdm at 1. rewrite inject_Z_plus, inject_Z_mult. reflexivity. }
  assert (Eq : (inject_Z t / 10 == inject_Z t * (1 # 10))%Q) by reflexivity.
  assert (Em : (inject_Z m / 10 == inject_Z m * (1 # 10))%Q) by reflexivity.
  set (q := (inject_Z t / 10)%Q) in *.
  assert (U : (pow2 (-53) == 1 # 9007199254740992)%Q) by reflexivity.
  assert (Eta : (pow2 (-1075) <= pow2 (-100))%Q) by (apply pow2_le; lia).
  assert (U100 : (pow2 (-100) == 1 # 1267650600228229401496703205376)%Q) by reflexivity.
  pose proof (pow2_pos (-1075)) as P.
  (* the quotient is rounded by at most a [2^-53] part of itself *)
  pose proof (fl_error q) as Herr. rewrite (Qabs_pos q) in Herr by lra.
  assert (Hlow : (360 * inject_Z k <= fl q)%Q).
  { assert (Hz : (fl (inject_Z (360 * k)) == inject_Z (360 * k))%Q)
      by (apply fl_int; lia).
    rewrite inject_Z_mult in Hz. change (inject_Z 360) with 360%Q in Hz.
    assert (Hle : (inject_Z (360 * k) <= q)%Q).
    { rewrite inject_Z_mult. change (inject_Z 360) with 360%Q. lra. }
    apply fl_mono in Hle. rewrite inject_Z_mult in Hle.
    change (inject_Z 360) with 360%Q in Hle.
    assert (Hw : (fl (360 * inject_Z k) == fl (inject_Z (360 * k)))%Q).
    { apply fl_wd. rewrite inject_Z_mult. reflexivity. }
    rewrite inject_Z_mult in Hw. change (inject_Z 360) with 360%Q in Hw.
    lra. }
  assert (Hdiff : (Qabs (fl q - q) <= inject_Z t * pow2 (-53))%Q).
  { destruct (Z.eq_dec t 0) as [->|Hne].
    - subst q. rewrite (fl_zero_eq (inject_Z 0 / 10)) by reflexivity. cbn. lra.
    - assert (Q1 : (1 <= inject_Z t)%Q) by (unfold Qle; cbn; lia).
      apply Qle_trans with (1 := Herr). rewrite U. lra. }
  assert (Hup : (fl q < 360 * inject_Z k + 360)%Q).
  { apply Qabs_Qle_condition in Herr as [_ Herr]. rewrite U in Herr. lra. }
  assert (Htr : Qtruncate (fl q / 360) = k).
  { apply Qtruncate_floor; [exact K0|].
    assert (E360 : (fl q / 360 == fl q * (1 # 360))%Q) by reflexivity.
    rewrite E360. split; lra. }
  assert (Hval : (rainbow_hue t == fl q - 360 * inject_Z k)%Q).
  { unfold rainbow_hue, js_rem. fold q. rewrite Htr. reflexivity. }
  split; [|split; [|exact Hdiff]].
  - rewrite Hval, Em. lra.
  - rewrite Hval. split; lra.
Qed.

(** X16.  The rainbow hue.  For a clock from 0 to below [2^53] the
    hue lies in [[0, 360)] and differs from [(t mod 3600) / 10] by the
    rounding of the division, at most [t * 2^-53]; it is exactly
    [(t mod 3600) / 10] when [t] is a multiple of 10.  It does not
    repeat exactly every 3600 milliseconds: at 5113 and 8713 the two
    hues differ. *)
Theorem rainbow_hue_range (t : Z) :
  0 <= t < 2 ^ 53 ->
  (0 <= rainbow_hue t < 360)%Q /\
  (Qabs (rainbow_hue t - inject_Z (t mod 3600) / 10)
   <= inject_Z t * pow2 (-53))%Q /\
  (t mod 10 = 0 -> (rainbow_hue t == inject_Z (t mod 3600) / 10)%Q) /\
  ~ (rainbow_hue (5113 + 3600) == rainbow_hue 5113)%Q.
Proof.
  intros Ht. destruct (rainbow_hue_value t Ht) as (Hval & Hrange & Herr).
  split; [exact Hrange|]. split; [|split].
  - assert (E : (rainbow_hue t - inject_Z (t mod 3600) / 10
                 == fl (inject_Z t / 10) - inject_Z t / 10)%Q)
      by (rewrite Hval; ring).
    rewrite E. exact Herr.
  - intros H10. rewrite Hval.
    assert (Hz : (fl (inject_Z (t / 10)) == inject_Z (t / 10))%Q).
    { apply fl_int. pose proof (Z.div_le_upper_bound t 10 (2 ^ 53) ltac:(lia) ltac:(lia)).
      pose proof (Z.div_pos t 10 ltac:(lia) ltac:(lia)).
      assert (t / 10 <> 2 ^ 53).
      { intros E. pose proof (Z.mul_div_le t 10 ltac:(lia)). lia. }
      lia. }
    assert (Ez : (inject_Z t / 10 == inject_Z (t / 10))%Q).
    { pose proof (Z.div_mod t 10 ltac:(lia)) as D. rewrite H10, Z.add_0_r in D.
      rewrite D at 1. rewrite inject_Z_mult. change (inject_Z 10) with 10%Q.
      field. }
    pose proof (fl_wd _ _ Ez) as W. rewrite Hz in W. lra.
  - intros H. apply Qeq_bool_iff in H. vm_compute in H. discriminate.
Qed.

(** ** Further properties of the controls *)

(** X17.  What a key does.  [e] toggles the eraser and [c] asks to
    clear whether or not Ctrl/Cmd is held; [z] undoes and [s] saves
    only with Ctrl/Cmd; every other key, upper-case letters included,
    changes nothing. *)
Theorem keydown_dispatch (ctrl : bool) (key : string) (confirmed : bool)
        (s : globals) :
  keydown ctrl "e" confirmed s = eraserBtn_click s /\
  keydown ctrl "c" confirmed s = clearBtn_click confirmed s /\
  keydown true "z" confirmed s = undoBtn_click s /\
  keydown false "z" confirmed s = s /\
  keydown ctrl "s" confirmed s = s /\
  (key <> "e" -> key <> "c" -> key <> "z" -> key <> "s" ->
   keydown ctrl key confirmed s = s)%string.
Proof.
  repeat split; try (destruct ctrl; reflexivity).
  intros He Hc Hz Hs. unfold keydown.
  apply String.eqb_neq in He, Hc, Hz, Hs. rewrite He, Hc, Hz, Hs.
  now destruct ctrl.
Qed.

(** X18.  Toggling the eraser twice (two clicks, or two presses of
    [e]) gives back exactly the state before. *)
Theorem eraser_toggle_twice (ctrl1 ctrl2 a1 a2 : bool) (s : globals) :
  eraserBtn_click (eraserBtn_click s) = s /\
  keydown ctrl2 "e" a2 (keydown ctrl1 "e" a1 s) = s.
Proof.
  assert (H : eraserBtn_click (eraserBtn_click s) = s).
  { destruct s as [c d col size type er h st l]. unfold eraserBtn_click.
    cbn. now rewrite negb_involutive. }
  split; [exact H|].
  destruct ctrl1, ctrl2; exact H.
Qed.

(** Pointer moves, from the mouse or from a touch. *)
Definition is_move (ev : event) : bool :=
  match ev with
  | MouseMove _ _ _ | TouchMove _ _ _ => true
  | _ => false
  end.

Lemma hovering_paints_nothing_aux (evs : list event) : forall s,
  isDrawing s = false -> forallb is_move evs = true -> run evs s = s.
Proof.
  induction evs as [|ev evs IH]; intros s Hd Hall; cbn [run fold_left].
  - reflexivity.
  - cbn [forallb] in Hall. apply andb_prop in Hall as [Hev Hevs].
    assert (H1 : handle s ev = s).
    { destruct ev; try discriminate; cbn [handle]; unfold pointer_move;
        now rewrite Hd. }
    rewrite H1. now apply IH.
Qed.

(** X19.  Moving the pointer with no button down does nothing: after
    a mouse-up (or mouse-out, touch-end, touch-cancel), or on a fresh
    page, any run of move events leaves every global and the surface
    exactly as they were. *)
Theorem hovering_paints_nothing (evs : list event) (s : globals) :
  isDrawing s = false -> forallb is_move evs = true -> run evs s = s.
Proof. apply hovering_paints_nothing_aux. Qed.

(** X20.  Snapshot and restore round trip.  Restoring the snapshot of
    a surface onto a canvas of the same size whose context is on
    ['source-over'] reproduces that surface cell for cell, whatever
    the canvas held in between. *)
Theorem snapshot_restore_round_trip (c c' : context2d) (i j : Z) :
  width c' = width c -> height c' = height c ->
  globalCompositeOperation c' = source_over ->
  in_canvas c i j ->
  bitmap (img_onload (toDataURL c) c') i j = bitmap c i j.
Proof.
  intros Hw Hh Hg [Hi Hj].
  rewrite img_onload_pixel; [|exact Hg|unfold in_canvas; rewrite Hw, Hh; now split].
  unfold image_pixel, in_image, toDataURL. cbn [sw sh spix].
  destruct (Z.leb_spec 0 i); [|lia]. destruct (Z.ltb_spec i (width c)); [|lia].
  destruct (Z.leb_spec 0 j); [|lia]. destruct (Z.ltb_spec j (height c)); [|lia].
  reflexivity.
Qed.

(** X21.  The rainbow brush ignores the colour picker.  With the
    rainbow brush selected, picking any colour before a stamp changes
    nothing of what the stamp leaves on the bitmap: the fill style is
    overwritten by the hue of the clock before anything is painted. *)
Theorem rainbow_ignores_configured_color (s : globals) (v : hex_color)
        (e : env) (x y : Q) :
  brushType s = "rainbow"%string -> isEraser s = false ->
  bitmap (ctx (stamp e x y (handle s (ColorInput v))))
  = bitmap (ctx (stamp e x y s)).
Proof.
  intros Htype He. cbn [handle]. unfold stamp, draw.
  cbn [colorPicker_input brushType brushSize isEraser currentColor ctx with_ctx].
  rewrite Htype, He. cbn [String.eqb Ascii.eqb Bool.eqb].
  unfold drawRainbow, drawRound. cbn [app run_calls exec with_path].
  destruct (Qle_bool 0 (half (brushSize s))); reflexivity.
Qed.

(** X22.  A finished stroke ends drawing.  Once the button is up, any
    pointer moves that follow change nothing: the state is the one the
    stroke left. *)
Theorem moves_after_stroke_do_nothing
        (e : env) (x y : Q) (moves : list (env * Q * Q))
        (evs : list event) (s : globals) :
  forallb is_move evs = true ->
  run (stroke e x y moves ++ evs) s = run (stroke e x y moves) s.
Proof.
  intros Hall. unfold run at 1. rewrite fold_left_app.
  fold (run (stroke e x y moves) s). fold (run evs (run (stroke e x y moves) s)).
  apply hovering_paints_nothing_aux; [|exact Hall].
  unfold stroke, run. cbn [fold_left handle]. rewrite fold_left_app. reflexivity.
Qed.

End Script.

(** ** Concrete runs *)

(** A rasteriser without anti-aliasing: a cell is covered when its
    centre lies in one of the circles of the path. *)
Definition centre_sampled (p : list circle) (i j : Z) : Qc :=
  let px := (inject_Z i + 1 / 2)%Q in
  let py := (inject_Z j + 1 / 2)%Q in
  if existsb (fun c => Qle_bool ((px - cx c) * (px - cx c) + (py - cy c) * (py - cy c))
                                (radius c * radius c)) p
  then 1%Qc else 0%Qc.

(** The page just loaded, 800 wide. *)
Definition page : globals := init centre_sampled 800.

(** One stroke of two samples, then undo: the cursor is at entry 0 of 2. *)
Definition undone_once : globals :=
  run centre_sampled
      (stroke still 10 10 [(still, 12, 12)%Q] ++ [UndoClick; ImageLoaded 0]) page.

Lemma saveState_drops_redo_branch_witness :
  hist_ok undone_once /\
  historyStep undone_once + 1 < Z.of_nat (length (history undone_once)) /\
  history (saveState undone_once)
  = firstn 1 (history undone_once) ++ [toDataURL (ctx undone_once)] /\
  historyStep (saveState undone_once) = 1.
Proof.
  assert (H1 : hist_ok undone_once).
  { unfold hist_ok, history_cap. vm_compute. repeat split; discriminate. }
  assert (H2 : historyStep undone_once + 1 < Z.of_nat (length (history undone_once))).
  { vm_compute. reflexivity. }
  split; [exact H1|]. split; [exact H2|].
  destruct (saveState_drops_redo_branch undone_once H1 H2) as (A & B & _).
  split; [exact A|exact B].
Defined.

(** Fifty entries, the cursor on the last one. *)
Definition full : globals := saves (repeat (ctx page) 49) page.

Lemma history_never_exceeds_cap_witness :
  hist_ok full /\
  historyStep full + 1 = history_cap /\
  Z.of_nat (length (history (saveState full))) = history_cap /\
  historyStep (saveState full) = 49 /\
  hist_ok (handle centre_sampled full UndoClick).
Proof.
  assert (H : hist_ok full).
  { unfold hist_ok, history_cap. vm_compute. repeat split; discriminate. }
  assert (Hfull : historyStep full + 1 = history_cap) by (vm_compute; reflexivity).
  destruct (history_never_exceeds_cap centre_sampled full H)
    as (_ & _ & _ & Hall & Hevict).
  destruct (Hevict Hfull) as (_ & Hlen & Hstep & _).
  split; [exact H|]. split; [exact Hfull|]. split; [exact Hlen|].
  split; [rewrite Hstep; vm_compute; reflexivity|apply Hall].
Defined.

Lemma pushes_below_cap_witness :
  let cs := [ctx page; ctx page; ctx page] in
  let s := start centre_sampled 800 in
  history s = [] /\ historyStep s = -1 /\
  length (history (saves cs s)) = 3%nat /\ historyStep (saves cs s) = 2.
Proof.
  intros cs s.
  destruct (pushes_below_cap 3 cs s eq_refl eq_refl eq_refl ltac:(lia))
    as (Hlen & Hstep & _).
  repeat split; assumption.
Defined.

Lemma undo_after_eraser_blanks_surface_witness :
  bitmap (ctx (erased_then_undone centre_sampled)) 0 0 = transparent /\
  exists entry,
    nth_error (history (erased_then_undone centre_sampled)) 0 = Some entry /\
    spix entry 0 0 = solid black.
Proof.
  destruct (undo_after_eraser_blanks_surface centre_sampled 0 0
              ltac:(lia) ltac:(lia)) as (Hstep & entry & Hnth & Hentry & Hblank & _).
  split; [exact Hblank|].
  exists entry. rewrite Hstep in Hnth. split; assumption.
Defined.

Lemma fill_after_eraser_blanks_surface_witness :
  currentColor (erased_then_filled centre_sampled) = red_hex /\
  bitmap (ctx (erased_then_filled centre_sampled)) 0 0 = transparent.
Proof.
  destruct (fill_after_eraser_blanks_surface centre_sampled 0 0
              ltac:(lia) ltac:(lia)) as (_ & Hcol & _ & Hblank & _).
  split; assumption.
Defined.

Lemma gust_in_range (n : nat) : (0 <= gust n < 1)%Q.
Proof. destruct n as [|[|n]]; unfold gust, Qle, Qlt; cbn; lia. Qed.

Lemma spray_stamp_geometry_witness :
  0 < 2 <= 2 ^ 52 /\ (forall n, (0 <= gust n < 1)%Q) /\
  Z.of_nat (length (spray_samples 2 gust)) = 4 /\
  (forall o, In o (spray_accepted 2 gust) ->
     (fst o * fst o + snd o * snd o <= half 2 * half 2 * (1 + pow2 (-50)))%Q) /\
  (forall i j, touched (drawSpray 2 gust 10 10) i j ->
     forall px py : Q,
       (inject_Z i <= px <= inject_Z i + 1)%Q ->
       (inject_Z j <= py <= inject_Z j + 1)%Q ->
       (fl (10 - half 2) - 1 < px < fl (10 + half 2) + 2)%Q /\
       (fl (10 - half 2) - 1 < py < fl (10 + half 2) + 2)%Q).
Proof.
  assert (Hs : 0 < 2 <= 2 ^ 52) by (split; [lia|discriminate]).
  destruct (spray_stamp_geometry 2 gust 10 10 Hs gust_in_range)
    as (Hlen & _ & _ & Hacc & Hcells).
  split; [exact Hs|]. split; [exact gust_in_range|].
  split; [exact Hlen|]. split; [exact Hacc|exact Hcells].
Defined.

(** The page with the spray brush at size 2, before and after one
    stamp at (10, 10). *)
Definition spray_ready : globals :=
  run centre_sampled [BrushTypeChange "spray"; BrushSizeInput 2] page.

Definition sprayed : globals :=
  handle centre_sampled spray_ready (MouseDown (mk_env 0 gust) 10 10).

(** C6 as stated fails, in two ways.  At size 2 and centre (10, 10)
    the stamp paints into the cell (11, 11), every point of which is
    farther than [S / 2 = 1] from the centre: on the black page, with
    the white default colour, that cell is no longer black
    afterwards.  And at size 1, with the random numbers [0] and
    [0.5 + 2^-30], the sub-point at offset [(-0.5, 2^-30)] passes the
    test, because [0.25 + 2^-60] rounds to [0.25], and is painted
    although its distance from the centre exceeds [S / 2]. *)
Lemma spray_paints_beyond_radius :
  touched (drawSpray 2 gust 10 10) 11 11 /\
  (forall px py : Q, (11 <= px <= 12)%Q -> (11 <= py <= 12)%Q ->
     (half 2 * half 2 < (px - 10) * (px - 10) + (py - 10) * (py - 10))%Q) /\
  bitmap (ctx sprayed) 11 11 <> bitmap (ctx spray_ready) 11 11 /\
  (forall n, (0 <= edge n < 1)%Q /\ (fl (edge n) == edge n)%Q) /\
  (let o := spray_sample 1 edge 0 in
   (fst o == - (1 # 2))%Q /\ (snd o == pow2 (-30))%Q /\
   within_radius 1 (fst o) (snd o) = true /\
   In o (spray_accepted 1 edge) /\
   In (fillRect (fl (10 + fst o)) (fl (10 + snd o)) 1 1) (drawSpray 1 edge 10 10) /\
   (half 1 * half 1 < fst o * fst o + snd o * snd o)%Q).
Proof.
  split; [|split; [|split; [|split; [|cbv zeta;
    split; [|split; [|split; [|split; [|split]]]]]]]].
  - unfold touched. do 4 eexists. split.
    + vm_compute. left. reflexivity.
    + vm_compute. reflexivity.
  - intros px py Hx Hy. change (half 2 * half 2)%Q with ((2 # 2) * (2 # 2))%Q.
    nra.
  - intros H. apply (f_equal (fun p => Qnum (this (pr p)))) in H.
    vm_compute in H. discriminate.
  - intros n. destruct n as [|[|n]]; vm_compute; repeat split; discriminate.
  - vm_compute. reflexivity.
  - vm_compute. reflexivity.
  - vm_compute. reflexivity.
  - vm_compute. left. reflexivity.
  - vm_compute. left. reflexivity.
  - vm_compute. reflexivity.
Qed.

(** Two states that differ only in the configured colour, eraser on,
    rainbow brush; the same stroke at two different times. *)
Definition erasing_white : globals :=
  run centre_sampled [BrushTypeChange "rainbow"; EraserClick] page.

Definition erasing_red : globals :=
  run centre_sampled [ColorInput red_hex; BrushTypeChange "rainbow"; EraserClick] page.

Lemma eraser_ignores_color_witness :
  let evs1 := stroke (mk_env 0 gust) 10 10 [(mk_env 40 gust, 12, 12)%Q] in
  let evs2 := stroke (mk_env 1800 gust) 10 10 [(mk_env 1900 gust, 12, 12)%Q] in
  isEraser erasing_white = true /\
  currentColor erasing_white <> currentColor erasing_red /\
  globalCompositeOperation (ctx (stamp centre_sampled still 10 10 erasing_white))
  = destination_out /\
  paint_modes centre_sampled (draw erasing_white still 10 10) (ctx erasing_white)
  = [destination_out] /\
  bitmap (ctx (stamp centre_sampled still 10 10 erasing_white)) 10 10 = transparent /\
  bitmap (ctx (run centre_sampled evs1 erasing_white))
  = bitmap (ctx (run centre_sampled evs2 erasing_red)).
Proof.
  intros evs1 evs2.
  assert (He : isEraser erasing_white = true) by reflexivity.
  assert (Hsame : same_but_color erasing_white erasing_red).
  { unfold same_but_color, same_surface. repeat split. }
  assert (Hevs : Forall2 same_gesture evs1 evs2).
  { unfold evs1, evs2, stroke. cbn [map app fst snd].
    repeat constructor. }
  destruct (eraser_ignores_color centre_sampled erasing_white erasing_red
              evs1 evs2 He Hsame Hevs)
    as (_ & Hop & Hcalls & Herase & _ & _ & _ & Hbitmap).
  split; [exact He|]. split; [discriminate|].
  split; [exact (Hop erasing_white still 10%Q 10%Q He)|].
  split.
  { apply (Hcalls erasing_white still 10%Q 10%Q (ctx erasing_white) He).
    right. split; [right; reflexivity|]. cbn. lia. }
  split; [|exact Hbitmap].
  destruct (Herase erasing_white still 10%Q 10%Q 10 10 He) as (_ & Hround & _).
  rewrite Hround; [|right; reflexivity|cbn; lia].
  assert (E : centre_sampled [mk_circle 10 10 (half (brushSize erasing_white))] 10 10
              = 1%Qc) by reflexivity.
  rewrite E. apply erase_whole.
Defined.

Lemma brush_size_stored_unchecked_witness :
  let s' := handle centre_sampled page (BrushSizeInput (-3)) in
  brushSize s' = -3 /\ -3 <= 0 /\ drawSpray (brushSize s') (random still) 10 10 = [].
Proof.
  intros s'.
  destruct (brush_size_stored_unchecked centre_sampled (-3) page still 10 10)
    as (Hsize & Hspray).
  destruct (Hspray ltac:(lia)) as (_ & _ & Hcalls & _).
  split; [exact Hsize|]. split; [lia|exact Hcalls].
Defined.

(** C8 as stated fails: the listener accepts [-3], and the next stamp
    with the spray brush computes its density from it. *)
Lemma nonpositive_size_reaches_spray :
  let s := run centre_sampled [BrushTypeChange "spray"; BrushSizeInput (-3)] page in
  brushSize s = -3 /\ ~ 0 < brushSize s /\
  spray_density (brushSize s) = -6 /\
  draw s still 10 10
  = [set_globalCompositeOperation source_over; set_fillStyle (Hex 255 255 255)]
    ++ drawSpray (-3) (random still) 10 10.
Proof.
  intros s. split; [reflexivity|]. split; [cbn; lia|]. split; reflexivity.
Qed.

(** C4 as stated fails: after stroke A, undo and the push of stroke B
    the history has two entries, not three. *)
Lemma scenario_history_has_two_entries :
  let sB := run centre_sampled
                (stroke still 10 10 [(still, 12, 12)%Q]
                 ++ [UndoClick; ImageLoaded 0; MouseDown still 20 20]) page in
  length (history sB) = 2%nat /\
  ~ (exists i a b, history sB = [i; a; b]).
Proof.
  intros sB. split.
  - vm_compute. reflexivity.
  - intros (i & a & b & H). apply (f_equal (@length snapshot)) in H.
    vm_compute in H. discriminate.
Qed.

(** ** Sanity checks of the platform model *)

Example hue_0_is_red :
  let c := parse_color (Hsl 0 1 (1 / 2)) in
  (this (red c), this (green c), this (blue c)) = (1%Q, 0%Q, 0%Q).
Proof. reflexivity. Qed.

Example hue_120_is_green :
  let c := parse_color (Hsl 120 1 (1 / 2)) in
  (this (red c), this (green c), this (blue c)) = (0%Q, 1%Q, 0%Q).
Proof. reflexivity. Qed.

(** [(1234567 / 10) % 360] is the double printed as
    [336.6999999999971], the remainder of the double nearest to
    123456.7; and [(8713 / 10) % 360] is not [(5113 / 10) % 360]. *)
Example rainbow_hue_wraps :
  Qred (rainbow_hue 1234567) = (23137847817011 # 68719476736)%Q /\
  Qred (rainbow_hue 5113) = Qred (fl (1513 # 10)) /\
  Qeq_bool (rainbow_hue 8713) (rainbow_hue 5113) = false.
Proof. repeat split; vm_compute; reflexivity. Qed.

(** *** The rounding against the kernel's binary64 numbers *)

(** The value of a finite hardware double. *)
Definition Q_of_float (f : PrimFloat.float) : Q :=
  match FloatOps.Prim2SF f with
  | SpecFloat.S754_finite s m e =>
      ((if s then -1 else 1) * inject_Z (Zpos m) * pow2 e)%Q
  | _ => 0%Q
  end.

(** The double nearest to [n / d], as the processor divides. *)
Definition float_of_ratio (nd : Z * Z) : PrimFloat.float :=
  let n := PrimFloat.of_uint63 (Uint63.of_Z (Z.abs (fst nd))) in
  let d := PrimFloat.of_uint63 (Uint63.of_Z (snd nd)) in
  PrimFloat.div (if fst nd <? 0 then PrimFloat.opp n else n) d.

Definition ratios : list (Z * Z) :=
  [(1, 10); (1, 5); (3, 10); (7, 10); (9, 10); (1, 1); (3, 2); (7, 1);
   (1, 100000); (1234567, 10); (-1, 3); (-7, 8); (1, 2 ^ 30); (2 ^ 52 + 1, 2);
   (5113, 10); (8713, 10); (1, 3); (-5, 7); (2 ^ 53 - 1, 3); (1, 2 ^ 53 - 1)].

Definition agree (f : PrimFloat.float) (q : Q) : bool := Qeq_bool (Q_of_float f) q.

Definition on_pairs (t : PrimFloat.float -> PrimFloat.float -> bool) : bool :=
  forallb (fun a => forallb (fun b => t (float_of_ratio a) (float_of_ratio b)) ratios)
          ratios.

(** On these samples and on all their pairs, [fl] of the exact result
    is what the processor returns for the quotient, the sum, the
    difference, the product and the division, and [fl_sqrt] is its
    square root. *)
Example fl_is_binary64 :
  forallb (fun r => agree (float_of_ratio r) (fl (inject_Z (fst r) / inject_Z (snd r))))
          ratios = true /\
  on_pairs (fun a b => agree (PrimFloat.add a b) (fl (Q_of_float a + Q_of_float b))) = true /\
  on_pairs (fun a b => agree (PrimFloat.sub a b) (fl (Q_of_float a - Q_of_float b))) = true /\
  on_pairs (fun a b => agree (PrimFloat.mul a b) (fl (Q_of_float a * Q_of_float b))) = true /\
  on_pairs (fun a b => agree (PrimFloat.div a b) (fl (Q_of_float a / Q_of_float b))) = true /\
  forallb (fun r => agree (PrimFloat.sqrt (PrimFloat.abs (float_of_ratio r)))
                          (fl_sqrt (Qabs (Q_of_float (float_of_ratio r)))))
          ratios = true.
Proof. vm_compute. repeat split. Qed.

(** The rounding on a few numbers whose doubles are known: 0.1 is
    [3602879701896397 / 2^55], 2^53 + 1 rounds to 2^53, the smallest
    subnormal stays, half of it rounds to 0, and the root of 2 is
    [6369051672525773 / 2^52]. *)
Example fl_known_doubles :
  Qred (fl (1 # 10)) = (3602879701896397 # 36028797018963968)%Q /\
  Qred (fl (inject_Z (2 ^ 53 + 1))) = inject_Z (2 ^ 53) /\
  Qeq_bool (fl (pow2 (-1074))) (pow2 (-1074)) = true /\
  Qeq_bool (fl (pow2 (-1075))) 0 = true /\
  Qred (fl_sqrt 2) = (6369051672525773 # 4503599627370496)%Q.
Proof. repeat split; vm_compute; reflexivity. Qed.

Example spray_size_2_has_4_samples :
  length (spray_samples 2 gust) = 4%nat /\ length (drawSpray 2 gust 10 10) = 4%nat.
Proof. split; reflexivity. Qed.

Example page_starts_with_one_entry :
  length (history page) = 1%nat /\ historyStep page = 0.
Proof. split; reflexivity. Qed.

(** ** Concrete runs for the further properties *)

Lemma page_hist_ok : hist_ok page.
Proof. unfold hist_ok, history_cap. vm_compute. repeat split; discriminate. Qed.

Lemma page_in_canvas : in_canvas (ctx page) 0 0.
Proof. unfold in_canvas. vm_compute. repeat split; discriminate. Qed.

Lemma saveState_cursor_on_snapshot_witness :
  hist_ok page /\
  nth_error (history (saveState page)) (Z.to_nat (historyStep (saveState page)))
  = Some (toDataURL (ctx page)).
Proof.
  split; [exact page_hist_ok|].
  exact (proj1 (saveState_cursor_on_snapshot page page_hist_ok)).
Defined.

Lemma cursor_advances_only_by_push_witness :
  let ev := MouseDown still 10 10 in
  hist_ok page /\
  historyStep page < historyStep (handle centre_sampled page ev) /\
  historyStep (handle centre_sampled page ev) = historyStep page + 1.
Proof.
  intros ev.
  assert (Hfwd : historyStep page < historyStep (handle centre_sampled page ev))
    by (vm_compute; reflexivity).
  split; [exact page_hist_ok|]. split; [exact Hfwd|].
  exact (proj1 (cursor_advances_only_by_push centre_sampled page ev
                  page_hist_ok Hfwd)).
Defined.

Lemma reachable_page_ok_witness :
  reachable centre_sampled 800 undone_once /\ page_ok undone_once.
Proof.
  assert (H : reachable centre_sampled 800 undone_once).
  { unfold undone_once, stroke, run. cbn [map app fold_left].
    repeat apply reach_step. apply reach_init. }
  split; [exact H|]. exact (reachable_page_ok centre_sampled 800 undone_once H).
Defined.

(** Two strokes on the fresh page, then undo and its load. *)
Definition two_strokes_undone : globals :=
  run centre_sampled
      (stroke still 10 10 [(still, 12, 12)%Q] ++ stroke still 30 30 []
       ++ [UndoClick; ImageLoaded 0]) page.

Lemma undo_after_two_strokes_witness :
  hist_ok page /\ loading page = [] /\ isEraser page = false /\
  in_canvas (ctx page) 0 0 /\
  bitmap (ctx two_strokes_undone) 0 0 = bitmap (ctx page) 0 0.
Proof.
  split; [exact page_hist_ok|]. split; [reflexivity|]. split; [reflexivity|].
  split; [exact page_in_canvas|].
  exact (undo_after_two_strokes centre_sampled page still 10 10 [(still, 12, 12)%Q]
           still 30 30 [] 0 0 page_hist_ok eq_refl eq_refl page_in_canvas).
Defined.

(** The fresh page after one stroke: two entries, the cursor at 1. *)
Definition one_stroke : globals :=
  run centre_sampled (stroke still 10 10 [(still, 12, 12)%Q]) page.

Lemma one_stroke_in_canvas : in_canvas (ctx one_stroke) 0 0.
Proof. unfold in_canvas. vm_compute. repeat split; discriminate. Qed.

Lemma late_onload_overwrites_stroke_witness :
  let url := toDataURL (ctx page) in
  let drawn := run centre_sampled (UndoClick :: stroke still 30 30 []) one_stroke in
  let erasing := handle centre_sampled one_stroke EraserClick in
  let erased := run centre_sampled (UndoClick :: stroke still 30 30 []) erasing in
  0 < historyStep one_stroke /\
  nth_error (history one_stroke) (Z.to_nat (historyStep one_stroke - 1)) = Some url /\
  bitmap (ctx (handle centre_sampled drawn (ImageLoaded 0))) 0 0 = spix url 0 0 /\
  bitmap (ctx (handle centre_sampled erased (ImageLoaded 0))) 0 0 = transparent.
Proof.
  intros url drawn erasing erased.
  split; [reflexivity|]. split; [reflexivity|]. split.
  - exact (proj1 (late_onload_overwrites_stroke centre_sampled one_stroke url
                    still 30 30 [] 0 0 eq_refl eq_refl eq_refl eq_refl eq_refl
                    one_stroke_in_canvas)).
  - exact (proj1 (late_onload_overwrites_stroke centre_sampled erasing url
                    still 30 30 [] 0 0 eq_refl eq_refl eq_refl eq_refl eq_refl
                    one_stroke_in_canvas)).
Defined.

Lemma resize_clears_and_resets_witness :
  40 <= 840 /\ canvas_width 840 = 800 /\
  bitmap (ctx (handle centre_sampled one_stroke (Resize (canvas_width 840)))) 0 0
  = solid black.
Proof.
  split; [lia|]. split; [reflexivity|].
  destruct (resize_clears_and_resets centre_sampled 840 one_stroke 0 0
              ltac:(lia) ltac:(cbn; lia) ltac:(lia)) as (_ & _ & _ & H & _).
  exact H.
Defined.

(** A page whose canvas had width 0 when the script started: its
    first entry has no pixels. *)
Definition narrow_stroke : globals :=
  run centre_sampled (stroke still 10 10 []) (init centre_sampled 0).

Lemma undo_after_resize_witness :
  let s' := run centre_sampled [Resize 1000; UndoClick; ImageLoaded 0] one_stroke in
  let n' := run centre_sampled [Resize 1000; UndoClick; ImageLoaded 0] narrow_stroke in
  0 < historyStep one_stroke /\
  bitmap (ctx s') 900 0 = transparent /\
  bitmap (ctx s') 0 0 = spix (toDataURL (ctx page)) 0 0 /\
  bitmap (ctx n') 0 0 = solid black.
Proof.
  intros s' n'. split; [reflexivity|].
  destruct (undo_after_resize centre_sampled one_stroke (toDataURL (ctx page))
              1000 900 0 eq_refl eq_refl eq_refl ltac:(lia) ltac:(lia))
    as (_ & Hout & _).
  destruct (undo_after_resize centre_sampled one_stroke (toDataURL (ctx page))
              1000 0 0 eq_refl eq_refl eq_refl ltac:(lia) ltac:(lia))
    as (_ & Hin & _).
  destruct (undo_after_resize centre_sampled narrow_stroke
              (toDataURL (ctx (init centre_sampled 0)))
              1000 0 0 eq_refl eq_refl eq_refl ltac:(lia) ltac:(lia))
    as (_ & _ & Hfail).
  split; [|split].
  - apply Hout; [reflexivity|reflexivity|]. left. vm_compute. discriminate.
  - apply Hin; [reflexivity|reflexivity|]. split; vm_compute; reflexivity.
  - apply Hfail. left. vm_compute. discriminate.
Defined.

Lemma clear_button_witness :
  in_canvas (ctx page) 0 0 /\
  bitmap (ctx (clearBtn_click centre_sampled true page)) 0 0 = solid black.
Proof.
  split; [exact page_in_canvas|].
  exact (proj2 (proj2 (proj2 (clear_button centre_sampled page 0 0 page_in_canvas)))).
Defined.

Lemma fill_after_stroke_witness :
  isEraser page = false /\ in_canvas (ctx page) 0 0 /\
  bitmap (ctx (run centre_sampled (stroke still 10 10 [] ++ [FillClick]) page)) 0 0
  = solid (parse_color (Hex 255 255 255)).
Proof.
  split; [reflexivity|]. split; [exact page_in_canvas|].
  exact (fill_after_stroke centre_sampled page still 10 10 [] 0 0
           eq_refl page_in_canvas).
Defined.

(** The fresh page with the square brush at size 4. *)
Definition square_ready : globals :=
  run centre_sampled [BrushTypeChange "square"; BrushSizeInput 4] page.

Lemma square_stamp_is_local_witness :
  brushType square_ready = "square"%string /\ 0 <= brushSize square_ready /\
  bitmap (ctx (stamp centre_sampled still 10 10 square_ready)) 9 9
  = solid (parse_color (Hex 255 255 255)) /\
  bitmap (ctx (stamp centre_sampled still 10 10 square_ready)) 12 9
  = bitmap (ctx square_ready) 12 9.
Proof.
  assert (H0 : 0 <= brushSize square_ready) by (cbn; lia).
  split; [reflexivity|]. split; [exact H0|].
  destruct (square_stamp_is_local centre_sampled square_ready still 10 10 9 9
              eq_refl H0) as [Hin _].
  destruct (square_stamp_is_local centre_sampled square_ready still 10 10 12 9
              eq_refl H0) as [_ Hout].
  split.
  - apply Hin. vm_compute. repeat split; discriminate.
  - apply Hout. right; left. vm_compute. discriminate.
Defined.

Lemma unknown_brush_paints_nothing_witness :
  let s := handle centre_sampled page (BrushTypeChange "Round") in
  brushType s <> "round"%string /\
  bitmap (ctx (stamp centre_sampled still 10 10 s)) = bitmap (ctx s).
Proof.
  intros s.
  assert (H1 : brushType s <> "round"%string) by discriminate.
  split; [exact H1|].
  exact (proj1 (unknown_brush_paints_nothing centre_sampled s still 10 10
                  H1 ltac:(discriminate) ltac:(discriminate) ltac:(discriminate))).
Defined.

Lemma nonpositive_size_paints_nothing_witness :
  let s := handle centre_sampled page (BrushSizeInput (-3)) in
  brushSize s < 0 /\ brushType s = "round"%string /\
  bitmap (ctx (stamp centre_sampled still 10 10 s)) 10 10 = bitmap (ctx s) 10 10.
Proof.
  intros s.
  assert (Hn : brushSize s < 0) by (cbn; lia).
  split; [exact Hn|]. split; [reflexivity|].
  exact (nonpositive_size_paints_nothing centre_sampled s still 10 10 10 10
           (or_introl (conj Hn (or_introl eq_refl)))).
Defined.


Lemma spray_drops_corner_samples_witness :
  0 < 7 <= 2 ^ 50 /\
  within_radius 7 (spray_offset 7 (1 # 16)) (spray_offset 7 (1 # 8)) = false /\
  Z.of_nat (length (drawSpray 7 gust 10 10)) <= 14.
Proof.
  assert (Hs : 0 < 7 <= 2 ^ 50) by (split; [lia|discriminate]).
  destruct (spray_drops_corner_samples 7 gust 10 10 (1 # 16) (1 # 8) Hs)
    as (Hlen & Hcorner & _).
  split; [exact Hs|]. split; [|exact Hlen].
  apply Hcorner; unfold Qle; cbn; lia.
Defined.

Lemma rainbow_hue_range_witness :
  0 <= 1234567 < 2 ^ 53 /\ (0 <= rainbow_hue 1234567 < 360)%Q /\
  (Qabs (rainbow_hue 1234567 - inject_Z (1234567 mod 3600) / 10)
   <= inject_Z 1234567 * pow2 (-53))%Q.
Proof.
  assert (Ht : 0 <= 1234567 < 2 ^ 53) by (split; [lia|reflexivity]).
  destruct (rainbow_hue_range 1234567 Ht) as (Hrange & Herr & _).
  split; [exact Ht|]. split; [exact Hrange|exact Herr].
Defined.

Lemma keydown_dispatch_witness :
  ("E" <> "e" /\ "E" <> "c" /\ "E" <> "z" /\ "E" <> "s")%string /\
  keydown centre_sampled true "E" true page = page.
Proof.
  assert (H : ("E" <> "e" /\ "E" <> "c" /\ "E" <> "z" /\ "E" <> "s")%string)
    by (repeat split; discriminate).
  split; [exact H|].
  destruct H as (He & Hc & Hz & Hs).
  destruct (keydown_dispatch centre_sampled true "E" true page)
    as (_ & _ & _ & _ & _ & Hother).
  exact (Hother He Hc Hz Hs).
Defined.

Lemma hovering_paints_nothing_witness :
  let evs := [MouseMove still 10 10; TouchMove still 11 12; MouseMove still 13 14] in
  isDrawing one_stroke = false /\ forallb is_move evs = true /\
  run centre_sampled evs one_stroke = one_stroke.
Proof.
  intros evs. split; [reflexivity|]. split; [reflexivity|].
  exact (hovering_paints_nothing centre_sampled evs one_stroke eq_refl eq_refl).
Defined.

Lemma snapshot_restore_round_trip_witness :
  in_canvas (ctx page) 0 0 /\
  bitmap (img_onload centre_sampled (toDataURL (ctx page)) (ctx one_stroke)) 0 0
  = bitmap (ctx page) 0 0.
Proof.
  split; [exact page_in_canvas|].
  exact (snapshot_restore_round_trip centre_sampled (ctx page) (ctx one_stroke) 0 0
           eq_refl eq_refl eq_refl page_in_canvas).
Defined.

Lemma rainbow_ignores_configured_color_witness :
  let s := handle centre_sampled page (BrushTypeChange "rainbow") in
  brushType s = "rainbow"%string /\ isEraser s = false /\
  bitmap (ctx (stamp centre_sampled still 10 10
                 (handle centre_sampled s (ColorInput red_hex))))
  = bitmap (ctx (stamp centre_sampled still 10 10 s)).
Proof.
  intros s. split; [reflexivity|]. split; [reflexivity|].
  exact (rainbow_ignores_configured_color centre_sampled s red_hex still 10 10
           eq_refl eq_refl).
Defined.

Lemma moves_after_stroke_do_nothing_witness :
  let evs := [MouseMove still 40 40; TouchMove still 41 41] in
  forallb is_move evs = true /\
  run centre_sampled (stroke still 10 10 [(still, 12, 12)%Q] ++ evs) page = one_stroke.
Proof.
  intros evs. split; [reflexivity|].
  exact (moves_after_stroke_do_nothing centre_sampled still 10 10
           [(still, 12, 12)%Q] evs page eq_refl).
Defined.
